(** * VR controller emulator: pose estimator, stream framer and relay

    A shallow embedding of [src/utils/physics.ts] (the [PhysicsEngine]
    class) and of [src/termux/server.js] (the stdout framer and the
    WebSocket broadcast), with the properties of the design document
    stated and proved about them.  The message handler and the status
    log of [src/App.tsx], the frame callback of
    [src/components/Visualizer.tsx] and the address discovery of the
    server are embedded too, with properties read off the code.

    Conventions.
    - The estimator is embedded three times.  [Physics] reads a
      JavaScript [number] as a real number of [R] and computes exactly:
      it says which quantities the code computes, and a sample is three
      numbers.  [Rounded] computes on [R] with one rounding after every
      operation, the rounding being a parameter: it carries the
      statements about tolerances.  [Binary64] computes on the binary64
      numbers of the host, with their infinities and NaN, on samples of
      any length: it carries what goes wrong out of range.
      [Math.sqrt] is [sqrt], [Math.abs] is [Rabs], [x ** 2] is [x ^ 2].
    - The object [this.state] that the methods mutate in place is passed
      in and returned.
    - A JavaScript string is the list of its UTF-16 code units. *)

From Stdlib Require Import Reals Lra Lia Bool NArith ZArith Ascii String List.
From Stdlib Require PrimFloat.
Import ListNotations.

(* ================================================================== *)
(** * The pose estimator ([src/utils/physics.ts]) *)
(* ================================================================== *)

Module Physics.

Local Open Scope R_scope.

(** ** Data model (the interfaces of the types module) *)

Record Vector3 : Type := mkVector3 { x : R; y : R; z : R }.

Record Quaternion : Type := mkQuaternion { qx : R; qy : R; qz : R; qw : R }.

Record ControllerState : Type := mkState {
  position : Vector3;
  rotation : Quaternion;
  velocity : Vector3;
  lastUpdate : R
}.

(** The arrays [accel] and [gyro] are read at indices 0, 1 and 2 only; a
    sample is the triple of those three entries. *)
Definition sample : Type := (R * R * R)%type.

(** ** Constants for tuning *)

Definition ALPHA : R := 0.98.
Definition FRICTION : R := 0.95.
Definition VELOCITY_THRESHOLD : R := 0.05.
Definition GRAVITY : R := 9.81.
Definition SCALE_FACTOR : R := 0.5.

(** ** Comparisons and truthiness *)

Definition Rltb (a b : R) : bool := if Rlt_dec a b then true else false.
Definition Rleb (a b : R) : bool := if Rle_dec a b then true else false.
Definition Rgtb (a b : R) : bool := Rltb b a.
Definition Reqb (a b : R) : bool := if Req_dec_T a b then true else false.

(** [a || b] on numbers: [a] unless it is falsy, and the only falsy real
    is 0. *)
Definition or_else (a b : R) : R := if Reqb a 0 then b else a.

(** ** construct, reset, getState *)

Definition identityRotation : Quaternion := mkQuaternion 0 0 0 1.
Definition origin : Vector3 := mkVector3 0 0 0.

Definition construct : ControllerState :=
  {| position := origin;
     rotation := identityRotation;
     velocity := origin;
     lastUpdate := 0 |}.

(** [reset()] replaces the state object; [now] is the value read from
    [performance.now()]. *)
Definition reset (st : ControllerState) (now : R) : ControllerState :=
  {| position := mkVector3 0 0 0;
     rotation := mkQuaternion 0 0 0 1;
     velocity := mkVector3 0 0 0;
     lastUpdate := now |}.

Definition getState (st : ControllerState) : ControllerState := st.

(** ** Helpers *)

Definition multiplyQuaternions (q1 q2 : Quaternion) : Quaternion :=
  {| qx := q1.(qx) * q2.(qw) + q1.(qy) * q2.(qz) - q1.(qz) * q2.(qy) + q1.(qw) * q2.(qx);
     qy := - q1.(qx) * q2.(qz) + q1.(qy) * q2.(qw) + q1.(qz) * q2.(qx) + q1.(qw) * q2.(qy);
     qz := q1.(qx) * q2.(qy) - q1.(qy) * q2.(qx) + q1.(qz) * q2.(qw) + q1.(qw) * q2.(qz);
     qw := - q1.(qx) * q2.(qx) - q1.(qy) * q2.(qy) - q1.(qz) * q2.(qz) + q1.(qw) * q2.(qw) |}.

Definition applyQuaternion (v : Vector3) (q : Quaternion) : Vector3 :=
  let x := v.(x) in let y := v.(y) in let z := v.(z) in
  let qx := q.(qx) in let qy := q.(qy) in let qz := q.(qz) in let qw := q.(qw) in
  let ix := qw * x + qy * z - qz * y in
  let iy := qw * y + qz * x - qx * z in
  let iz := qw * z + qx * y - qy * x in
  let iw := - qx * x - qy * y - qz * z in
  {| x := ix * qw + iw * - qx + iy * - qz - iz * - qy;
     y := iy * qw + iw * - qy + iz * - qx - ix * - qz;
     z := iz * qw + iw * - qz + ix * - qy - iy * - qx |}.

(** ** update, block by block *)

(** [dt = (now - (this.state.lastUpdate || now)) / 1000]. *)
Definition timeDelta (st : ControllerState) (timestamp : R) : R :=
  let now := timestamp in
  (now - or_else st.(lastUpdate) now) / 1000.

(** The guard [if (dt > 1 || dt <= 0) return]. *)
Definition rejected (dt : R) : bool := Rgtb dt 1 || Rleb dt 0.

(** Block 1, "Process Rotation (Gyro Integration)": the rotation stored
    in the state when the block ends.  [halfTheta], [sinHalfTheta],
    [cosHalfTheta] and [ratio] are computed by the source and never
    read. *)
Definition integrateGyro (rot : Quaternion) (gyro : sample) (dt : R) : Quaternion :=
  let '(gx, gy, gz) := gyro in
  let halfTheta := sqrt (gx * gx + gy * gy + gz * gz) * dt * 0.5 in
  let sinHalfTheta := sin halfTheta in
  let cosHalfTheta := cos halfTheta in
  let ratio := if Reqb halfTheta 0 then 0 else sinHalfTheta / (halfTheta / (dt * 0.5)) in
  let dQ := {| qx := gx * dt * 0.5; qy := gy * dt * 0.5; qz := gz * dt * 0.5; qw := 1 |} in
  let dQMag := sqrt (dQ.(qx) * dQ.(qx) + dQ.(qy) * dQ.(qy) + dQ.(qz) * dQ.(qz) + dQ.(qw) * dQ.(qw)) in
  let dQ := {| qx := dQ.(qx) / dQMag; qy := dQ.(qy) / dQMag;
               qz := dQ.(qz) / dQMag; qw := dQ.(qw) / dQMag |} in
  let rotation := multiplyQuaternions rot dQ in
  let mag := sqrt (rotation.(qx) ^ 2 + rotation.(qy) ^ 2 + rotation.(qz) ^ 2 + rotation.(qw) ^ 2) in
  {| qx := rotation.(qx) / mag; qy := rotation.(qy) / mag;
     qz := rotation.(qz) / mag; qw := rotation.(qw) / mag |}.

(** Block 2, first half: the local acceleration rotated into world
    space, with [GRAVITY] taken off the Y axis.  This is [worldAccel]
    as it stands just before the dead zone. *)
Definition worldAccelRaw (accel : sample) (rot : Quaternion) : Vector3 :=
  let '(ax, ay, az) := accel in
  let localAccel := {| x := ax; y := ay; z := az |} in
  let worldAccel := applyQuaternion localAccel rot in
  {| x := worldAccel.(x); y := worldAccel.(y) - GRAVITY; z := worldAccel.(z) |}.

(** "Dead zone for small noise": the three assignments to [worldAccel]. *)
Definition deadZone (worldAccel : Vector3) : Vector3 :=
  {| x := if Rltb (Rabs worldAccel.(x)) 0.2 then 0 else worldAccel.(x);
     y := if Rltb (Rabs worldAccel.(y)) 0.2 then 0 else worldAccel.(y);
     z := if Rltb (Rabs worldAccel.(z)) 0.2 then 0 else worldAccel.(z) |}.

(** The condition of the "Zero Velocity Update", read on [worldAccel]
    as it stands at that line. *)
Definition zeroVelocity (worldAccel : Vector3) : bool :=
  Rltb (Rabs worldAccel.(x)) 0.1 && Rltb (Rabs worldAccel.(y)) 0.1
  && Rltb (Rabs worldAccel.(z)) 0.1.

Definition update (st : ControllerState) (accel gyro : sample) (timestamp : R)
  : ControllerState :=
  let now := timestamp in
  let dt := timeDelta st timestamp in
  let st := {| position := st.(position); rotation := st.(rotation);
               velocity := st.(velocity); lastUpdate := now |} in
  if rejected dt then st else
  (* 1. Process Rotation *)
  let rotation := integrateGyro st.(rotation) gyro dt in
  (* 2. Process Position *)
  let worldAccel := worldAccelRaw accel rotation in
  let worldAccel := deadZone worldAccel in
  (* Integrate to Velocity *)
  let velocity := {| x := st.(velocity).(x) + worldAccel.(x) * dt;
                     y := st.(velocity).(y) + worldAccel.(y) * dt;
                     z := st.(velocity).(z) + worldAccel.(z) * dt |} in
  (* Friction / Damping *)
  let velocity := {| x := velocity.(x) * FRICTION;
                     y := velocity.(y) * FRICTION;
                     z := velocity.(z) * FRICTION |} in
  (* Zero Velocity Update *)
  let velocity :=
    if zeroVelocity worldAccel
    then {| x := velocity.(x) * 0.5; y := velocity.(y) * 0.5; z := velocity.(z) * 0.5 |}
    else velocity in
  (* Integrate to Position *)
  let position := {| x := st.(position).(x) + velocity.(x) * dt * SCALE_FACTOR;
                     y := st.(position).(y) + velocity.(y) * dt * SCALE_FACTOR;
                     z := st.(position).(z) + velocity.(z) * dt * SCALE_FACTOR |} in
  {| position := position; rotation := rotation; velocity := velocity; lastUpdate := now |}.

End Physics.

(* ================================================================== *)
(** * The vocabulary of the design document, for the estimator *)
(* ================================================================== *)

Module PhysicsTerms.

Import Physics.
Local Open Scope R_scope.

(** Euclidean norm of a quaternion. *)
Definition norm (q : Quaternion) : R :=
  sqrt (q.(qx) * q.(qx) + q.(qy) * q.(qy) + q.(qz) * q.(qz) + q.(qw) * q.(qw)).

(** Unit-normalization: every component divided by the norm. *)
Definition normalize (q : Quaternion) : Quaternion :=
  {| qx := q.(qx) / norm q; qy := q.(qy) / norm q;
     qz := q.(qz) / norm q; qw := q.(qw) / norm q |}.

(** Hamilton product, from its textbook form: with [p = (pw, pv)] and
    [q = (qw, qv)], scalar part [pw qw - pv . qv] and vector part
    [pw qv + qw pv + pv x qv]. *)
Definition dot (a b : Vector3) : R := a.(x) * b.(x) + a.(y) * b.(y) + a.(z) * b.(z).

Definition cross (a b : Vector3) : Vector3 :=
  {| x := a.(y) * b.(z) - a.(z) * b.(y);
     y := a.(z) * b.(x) - a.(x) * b.(z);
     z := a.(x) * b.(y) - a.(y) * b.(x) |}.

Definition vec (q : Quaternion) : Vector3 := {| x := q.(qx); y := q.(qy); z := q.(qz) |}.

Definition hamilton (p q : Quaternion) : Quaternion :=
  let c := cross (vec p) (vec q) in
  {| qx := p.(qw) * q.(qx) + q.(qw) * p.(qx) + c.(x);
     qy := p.(qw) * q.(qy) + q.(qw) * p.(qy) + c.(y);
     qz := p.(qw) * q.(qz) + q.(qw) * p.(qz) + c.(z);
     qw := p.(qw) * q.(qw) - dot (vec p) (vec q) |}.

(** The small-angle increment [(gx dt/2, gy dt/2, gz dt/2, 1)]. *)
Definition smallAngle (gyro : sample) (dt : R) : Quaternion :=
  let '(gx, gy, gz) := gyro in
  {| qx := gx * dt / 2; qy := gy * dt / 2; qz := gz * dt / 2; qw := 1 |}.

(** The state a dropped sample leaves behind: only the time stamp moves. *)
Definition touched (st : ControllerState) (timestamp : R) : ControllerState :=
  {| position := st.(position); rotation := st.(rotation);
     velocity := st.(velocity); lastUpdate := timestamp |}.

(** Calls a host can make on an estimator, and their effect in order. *)
Inductive call : Type :=
| Update (accel gyro : sample) (timestamp : R)
| Reset (now : R).

Definition perform (st : ControllerState) (c : call) : ControllerState :=
  match c with
  | Update accel gyro timestamp => update st accel gyro timestamp
  | Reset now => reset st now
  end.

Definition run (calls : list call) (st : ControllerState) : ControllerState :=
  fold_left perform calls st.

(** Velocity after integration and friction, before the zero-velocity
    update: [(v + a dt) * FRICTION] per axis. *)
Definition damped (v a : Vector3) (dt : R) : Vector3 :=
  {| x := (v.(x) + a.(x) * dt) * FRICTION;
     y := (v.(y) + a.(y) * dt) * FRICTION;
     z := (v.(z) + a.(z) * dt) * FRICTION |}.

Definition halved (v : Vector3) : Vector3 :=
  {| x := v.(x) * 0.5; y := v.(y) * 0.5; z := v.(z) * 0.5 |}.

(** Every axis below [bound] in magnitude. *)
Definition below (bound : R) (a : Vector3) : Prop :=
  Rabs a.(x) < bound /\ Rabs a.(y) < bound /\ Rabs a.(z) < bound.

(** Sum of the squares of the components. *)
Definition sumsq (q : Quaternion) : R :=
  q.(qx) * q.(qx) + q.(qy) * q.(qy) + q.(qz) * q.(qz) + q.(qw) * q.(qw).

End PhysicsTerms.


(* ================================================================== *)
(** * The pose estimator with rounding *)
(* ================================================================== *)

Module Rounded.
Import Physics.
Local Open Scope R_scope.

(** The estimator once more, every arithmetic operation of the source
    written as the operation on reals followed by a rounding, in the
    order in which JavaScript evaluates them (left to right, [*] and [/]
    before [+] and [-], the unary minus first).  Comparisons,
    [Math.abs] and the unary minus are exact.  Records, [construct] and
    [reset] are those of [Physics].

    How the host computes: [round] gives the stored result of an
    operation from its exact result (one rounding per operation, as in
    IEEE 754), [square] is [x ** 2], which the language leaves to the
    implementation. *)
Record Arithmetic : Type := mkArithmetic {
  round : R -> R;
  square : R -> R
}.

Section Engine.

Variable ar : Arithmetic.

Definition add (a b : R) : R := round ar (a + b).
Definition sub (a b : R) : R := round ar (a - b).
Definition mul (a b : R) : R := round ar (a * b).
Definition div (a b : R) : R := round ar (a / b).
Definition root (a : R) : R := round ar (sqrt a).

(** A literal that is not a binary fraction: 0.95, 9.81, 0.2, 0.1.
    The literals 0, 0.5, 1 and 1000 are exact. *)
Definition literal (c : R) : R := round ar c.

Local Notation "a *! b" := (mul a b) (at level 40, left associativity).
Local Notation "a /! b" := (div a b) (at level 40, left associativity).
Local Notation "a +! b" := (add a b) (at level 50, left associativity).
Local Notation "a -! b" := (sub a b) (at level 50, left associativity).

Definition multiplyQuaternions (q1 q2 : Quaternion) : Quaternion :=
  {| qx := q1.(qx) *! q2.(qw) +! q1.(qy) *! q2.(qz) -! q1.(qz) *! q2.(qy) +! q1.(qw) *! q2.(qx);
     qy := - q1.(qx) *! q2.(qz) +! q1.(qy) *! q2.(qw) +! q1.(qz) *! q2.(qx) +! q1.(qw) *! q2.(qy);
     qz := q1.(qx) *! q2.(qy) -! q1.(qy) *! q2.(qx) +! q1.(qz) *! q2.(qw) +! q1.(qw) *! q2.(qz);
     qw := - q1.(qx) *! q2.(qx) -! q1.(qy) *! q2.(qy) -! q1.(qz) *! q2.(qz) +! q1.(qw) *! q2.(qw) |}.

Definition applyQuaternion (v : Vector3) (q : Quaternion) : Vector3 :=
  let x := v.(x) in let y := v.(y) in let z := v.(z) in
  let qx := q.(qx) in let qy := q.(qy) in let qz := q.(qz) in let qw := q.(qw) in
  let ix := qw *! x +! qy *! z -! qz *! y in
  let iy := qw *! y +! qz *! x -! qx *! z in
  let iz := qw *! z +! qx *! y -! qy *! x in
  let iw := - qx *! x -! qy *! y -! qz *! z in
  {| x := ix *! qw +! iw *! - qx +! iy *! - qz -! iz *! - qy;
     y := iy *! qw +! iw *! - qy +! iz *! - qx -! ix *! - qz;
     z := iz *! qw +! iw *! - qz +! ix *! - qy -! iy *! - qx |}.

(** [dt = (now - (this.state.lastUpdate || now)) / 1000]. *)
Definition timeDelta (st : ControllerState) (timestamp : R) : R :=
  let now := timestamp in
  (now -! or_else st.(lastUpdate) now) /! 1000.

(** Block 1, "Process Rotation (Gyro Integration)". *)
Definition integrateGyro (rot : Quaternion) (gyro : sample) (dt : R) : Quaternion :=
  let '(gx, gy, gz) := gyro in
  let halfTheta := root (gx *! gx +! gy *! gy +! gz *! gz) *! dt *! 0.5 in
  let sinHalfTheta := round ar (sin halfTheta) in
  let cosHalfTheta := round ar (cos halfTheta) in
  let ratio := if Reqb halfTheta 0 then 0 else sinHalfTheta /! (halfTheta /! (dt *! 0.5)) in
  let dQ := {| qx := gx *! dt *! 0.5; qy := gy *! dt *! 0.5; qz := gz *! dt *! 0.5; qw := 1 |} in
  let dQMag := root (dQ.(qx) *! dQ.(qx) +! dQ.(qy) *! dQ.(qy) +! dQ.(qz) *! dQ.(qz)
                     +! dQ.(qw) *! dQ.(qw)) in
  let dQ := {| qx := dQ.(qx) /! dQMag; qy := dQ.(qy) /! dQMag;
               qz := dQ.(qz) /! dQMag; qw := dQ.(qw) /! dQMag |} in
  let rotation := multiplyQuaternions rot dQ in
  let mag := root (square ar rotation.(qx) +! square ar rotation.(qy)
                   +! square ar rotation.(qz) +! square ar rotation.(qw)) in
  {| qx := rotation.(qx) /! mag; qy := rotation.(qy) /! mag;
     qz := rotation.(qz) /! mag; qw := rotation.(qw) /! mag |}.

(** Block 2, "Process Position", up to the dead zone. *)
Definition worldAccelRaw (accel : sample) (rot : Quaternion) : Vector3 :=
  let '(ax, ay, az) := accel in
  let localAccel := {| x := ax; y := ay; z := az |} in
  let worldAccel := applyQuaternion localAccel rot in
  {| x := worldAccel.(x); y := worldAccel.(y) -! literal GRAVITY; z := worldAccel.(z) |}.

(** "Dead zone for small noise" and, below, the test of the "Zero
    Velocity Update". *)
Definition deadZone (worldAccel : Vector3) : Vector3 :=
  {| x := if Rltb (Rabs worldAccel.(x)) (literal 0.2) then 0 else worldAccel.(x);
     y := if Rltb (Rabs worldAccel.(y)) (literal 0.2) then 0 else worldAccel.(y);
     z := if Rltb (Rabs worldAccel.(z)) (literal 0.2) then 0 else worldAccel.(z) |}.

Definition zeroVelocity (worldAccel : Vector3) : bool :=
  Rltb (Rabs worldAccel.(x)) (literal 0.1) && Rltb (Rabs worldAccel.(y)) (literal 0.1)
  && Rltb (Rabs worldAccel.(z)) (literal 0.1).

Definition update (st : ControllerState) (accel gyro : sample) (timestamp : R)
  : ControllerState :=
  let now := timestamp in
  let dt := timeDelta st timestamp in
  let st := {| position := st.(position); rotation := st.(rotation);
               velocity := st.(velocity); lastUpdate := now |} in
  if rejected dt then st else
  let rotation := integrateGyro st.(rotation) gyro dt in
  let worldAccel := worldAccelRaw accel rotation in
  let worldAccel := deadZone worldAccel in
  let velocity := {| x := st.(velocity).(x) +! worldAccel.(x) *! dt;
                     y := st.(velocity).(y) +! worldAccel.(y) *! dt;
                     z := st.(velocity).(z) +! worldAccel.(z) *! dt |} in
  let velocity := {| x := velocity.(x) *! literal FRICTION;
                     y := velocity.(y) *! literal FRICTION;
                     z := velocity.(z) *! literal FRICTION |} in
  let velocity :=
    if zeroVelocity worldAccel
    then {| x := velocity.(x) *! 0.5; y := velocity.(y) *! 0.5; z := velocity.(z) *! 0.5 |}
    else velocity in
  let position := {| x := st.(position).(x) +! velocity.(x) *! dt *! SCALE_FACTOR;
                     y := st.(position).(y) +! velocity.(y) *! dt *! SCALE_FACTOR;
                     z := st.(position).(z) +! velocity.(z) *! dt *! SCALE_FACTOR |} in
  {| position := position; rotation := rotation; velocity := velocity; lastUpdate := now |}.

End Engine.

(** Arithmetic without rounding. *)
Definition exact : Arithmetic := {| round := fun x => x; square := fun x => x ^ 2 |}.

End Rounded.

Module RoundedTerms.
Import Physics PhysicsTerms Rounded.
Local Open Scope R_scope.

(** The arithmetic is accurate: while the exact result of an operation
    is at most 1e308 in magnitude, the stored result differs from it by
    at most 1e-9 of its magnitude plus 1e-9.  Binary64 with rounding to
    nearest is far inside these bounds (relative error 2^-53 in the
    normal range, absolute error 2^-1075 below it) for every result
    that does not overflow. *)
Definition accurate (ar : Arithmetic) : Prop :=
  (forall x, Rabs x <= 1e308 ->
             Rabs (round ar x - x) <= 1e-9 * Rabs x + 1e-9)
  /\ (forall x, x * x <= 1e308 ->
                Rabs (square ar x - x * x) <= 1e-9 * (x * x) + 1e-9).

(** The angular velocity of the call is at most 1e150 on each axis. *)
Definition moderate (c : call) : Prop :=
  match c with
  | Update _ (gx, gy, gz) _ => Rabs gx <= 1e150 /\ Rabs gy <= 1e150 /\ Rabs gz <= 1e150
  | Reset _ => True
  end.

Definition perform (ar : Arithmetic) (st : ControllerState) (c : call) : ControllerState :=
  match c with
  | Update accel gyro timestamp => Rounded.update ar st accel gyro timestamp
  | Reset now => reset st now
  end.

Definition run (ar : Arithmetic) (calls : list call) (st : ControllerState)
  : ControllerState :=
  fold_left (perform ar) calls st.

(** An arithmetic that is accurate and not exact: every result a tenth
    of a billionth too large in magnitude, squares as much too small. *)
Definition sloppy : Arithmetic :=
  {| round := fun x => x * (1 + 1e-10); square := fun x => x * x * (1 - 1e-10) |}.

End RoundedTerms.

(* ================================================================== *)
(** * The pose estimator on binary64 numbers *)
(* ================================================================== *)

Module Binary64.
Import PrimFloat.
Local Open Scope float_scope.

#[local] Set Warnings "-inexact-float".

(** The estimator on binary64 numbers, the [number] of the host: every
    operation rounds to nearest, overflows to an infinity and gives NaN
    where IEEE 754 does.  Samples are arrays of any length. *)
Record Vector3 : Type := mkVector3 { x : float; y : float; z : float }.

Record Quaternion : Type := mkQuaternion { qx : float; qy : float; qz : float; qw : float }.

Record ControllerState : Type := mkState {
  position : Vector3;
  rotation : Quaternion;
  velocity : Vector3;
  lastUpdate : float
}.

Definition FRICTION : float := 0.95.
Definition GRAVITY : float := 9.81.
Definition SCALE_FACTOR : float := 0.5.

(** [a[i]] where a number is expected: an element that is missing is
    [undefined], and the arithmetic that reads it gives NaN. *)
Definition index (a : list float) (i : nat) : float := nth i a nan.

(** [a || b] on numbers: 0, -0 and NaN are falsy. *)
Definition or_else (a b : float) : float :=
  if (a =? 0) || is_nan a then b else a.

Definition construct : ControllerState :=
  {| position := mkVector3 0 0 0;
     rotation := mkQuaternion 0 0 0 1;
     velocity := mkVector3 0 0 0;
     lastUpdate := 0 |}.

Definition reset (st : ControllerState) (now : float) : ControllerState :=
  {| position := mkVector3 0 0 0;
     rotation := mkQuaternion 0 0 0 1;
     velocity := mkVector3 0 0 0;
     lastUpdate := now |}.

Definition multiplyQuaternions (q1 q2 : Quaternion) : Quaternion :=
  {| qx := q1.(qx) * q2.(qw) + q1.(qy) * q2.(qz) - q1.(qz) * q2.(qy) + q1.(qw) * q2.(qx);
     qy := - q1.(qx) * q2.(qz) + q1.(qy) * q2.(qw) + q1.(qz) * q2.(qx) + q1.(qw) * q2.(qy);
     qz := q1.(qx) * q2.(qy) - q1.(qy) * q2.(qx) + q1.(qz) * q2.(qw) + q1.(qw) * q2.(qz);
     qw := - q1.(qx) * q2.(qx) - q1.(qy) * q2.(qy) - q1.(qz) * q2.(qz) + q1.(qw) * q2.(qw) |}.

Definition applyQuaternion (v : Vector3) (q : Quaternion) : Vector3 :=
  let x := v.(x) in let y := v.(y) in let z := v.(z) in
  let qx := q.(qx) in let qy := q.(qy) in let qz := q.(qz) in let qw := q.(qw) in
  let ix := qw * x + qy * z - qz * y in
  let iy := qw * y + qz * x - qx * z in
  let iz := qw * z + qx * y - qy * x in
  let iw := - qx * x - qy * y - qz * z in
  {| x := ix * qw + iw * - qx + iy * - qz - iz * - qy;
     y := iy * qw + iw * - qy + iz * - qx - ix * - qz;
     z := iz * qw + iw * - qz + ix * - qy - iy * - qx |}.

(** [dt = (now - (this.state.lastUpdate || now)) / 1000]. *)
Definition timeDelta (st : ControllerState) (timestamp : float) : float :=
  let now := timestamp in
  (now - or_else st.(lastUpdate) now) / 1000.

(** The guard [if (dt > 1 || dt <= 0) return]. *)
Definition rejected (dt : float) : bool := (1 <? dt) || (dt <=? 0).

(** Block 1.  [halfTheta], its sine and cosine and [ratio] are computed
    by the source and never read; they are left out here.  [x ** 2] is
    taken as [x * x]. *)
Definition integrateGyro (rot : Quaternion) (gyro : list float) (dt : float)
  : Quaternion :=
  let gx := index gyro 0 in
  let gy := index gyro 1 in
  let gz := index gyro 2 in
  let dQ := {| qx := gx * dt * 0.5; qy := gy * dt * 0.5; qz := gz * dt * 0.5; qw := 1 |} in
  let dQMag := sqrt (dQ.(qx) * dQ.(qx) + dQ.(qy) * dQ.(qy) + dQ.(qz) * dQ.(qz)
                     + dQ.(qw) * dQ.(qw)) in
  let dQ := {| qx := dQ.(qx) / dQMag; qy := dQ.(qy) / dQMag;
               qz := dQ.(qz) / dQMag; qw := dQ.(qw) / dQMag |} in
  let rotation := multiplyQuaternions rot dQ in
  let mag := sqrt (rotation.(qx) * rotation.(qx) + rotation.(qy) * rotation.(qy)
                   + rotation.(qz) * rotation.(qz) + rotation.(qw) * rotation.(qw)) in
  {| qx := rotation.(qx) / mag; qy := rotation.(qy) / mag;
     qz := rotation.(qz) / mag; qw := rotation.(qw) / mag |}.

Definition worldAccelRaw (accel : list float) (rot : Quaternion) : Vector3 :=
  let ax := index accel 0 in
  let ay := index accel 1 in
  let az := index accel 2 in
  let localAccel := {| x := ax; y := ay; z := az |} in
  let worldAccel := applyQuaternion localAccel rot in
  {| x := worldAccel.(x); y := worldAccel.(y) - GRAVITY; z := worldAccel.(z) |}.

Definition deadZone (worldAccel : Vector3) : Vector3 :=
  {| x := if abs worldAccel.(x) <? 0.2 then 0 else worldAccel.(x);
     y := if abs worldAccel.(y) <? 0.2 then 0 else worldAccel.(y);
     z := if abs worldAccel.(z) <? 0.2 then 0 else worldAccel.(z) |}.

Definition zeroVelocity (worldAccel : Vector3) : bool :=
  (abs worldAccel.(x) <? 0.1) && (abs worldAccel.(y) <? 0.1)
  && (abs worldAccel.(z) <? 0.1).

Definition update (st : ControllerState) (accel gyro : list float) (timestamp : float)
  : ControllerState :=
  let now := timestamp in
  let dt := timeDelta st timestamp in
  let st := {| position := st.(position); rotation := st.(rotation);
               velocity := st.(velocity); lastUpdate := now |} in
  if rejected dt then st else
  let rotation := integrateGyro st.(rotation) gyro dt in
  let worldAccel := worldAccelRaw accel rotation in
  let worldAccel := deadZone worldAccel in
  let velocity := {| x := st.(velocity).(x) + worldAccel.(x) * dt;
                     y := st.(velocity).(y) + worldAccel.(y) * dt;
                     z := st.(velocity).(z) + worldAccel.(z) * dt |} in
  let velocity := {| x := velocity.(x) * FRICTION;
                     y := velocity.(y) * FRICTION;
                     z := velocity.(z) * FRICTION |} in
  let velocity :=
    if zeroVelocity worldAccel
    then {| x := velocity.(x) * 0.5; y := velocity.(y) * 0.5; z := velocity.(z) * 0.5 |}
    else velocity in
  let position := {| x := st.(position).(x) + velocity.(x) * dt * SCALE_FACTOR;
                     y := st.(position).(y) + velocity.(y) * dt * SCALE_FACTOR;
                     z := st.(position).(z) + velocity.(z) * dt * SCALE_FACTOR |} in
  {| position := position; rotation := rotation; velocity := velocity; lastUpdate := now |}.

End Binary64.

Module Binary64Terms.
Import PrimFloat Binary64.
Local Open Scope float_scope.

#[local] Set Warnings "-inexact-float".

(** The Euclidean norm as the host computes it, and the test that it is
    within 1e-6 of 1.  A comparison with NaN is false. *)
Definition norm (q : Quaternion) : float :=
  sqrt (q.(qx) * q.(qx) + q.(qy) * q.(qy) + q.(qz) * q.(qz) + q.(qw) * q.(qw)).

Definition withinTolerance (q : Quaternion) : bool := abs (norm q - 1) <=? 1e-6.

(** Every component is NaN. *)
Definition allNaN (q : Quaternion) : bool :=
  is_nan q.(qx) && is_nan q.(qy) && is_nan q.(qz) && is_nan q.(qw).

End Binary64Terms.

(* ================================================================== *)
(** * JavaScript strings *)
(* ================================================================== *)

Module JS.

Local Open Scope N_scope.

(** A string is the list of its UTF-16 code units. *)
Definition jsstring : Type := list N.

(** The code units of a literal of this file. *)
Fixpoint units (s : string) : jsstring :=
  match s with
  | EmptyString => []
  | String a s' => N_of_ascii a :: units s'
  end.

(** The same, with every apostrophe read as a double quote (U+0022), so
    that JSON text can be written down in a literal. *)
Definition quoted (s : string) : jsstring :=
  map (fun c => if c =? 39 then 34 else c) (units s).

(** [startsWith]: [p] is a prefix of [s]. *)
Fixpoint startsWith (s p : jsstring) {struct p} : bool :=
  match p, s with
  | [], _ => true
  | c :: p', d :: s' => (c =? d) && startsWith s' p'
  | _ :: _, [] => false
  end.

(** [s.endsWith(p)]. *)
Definition endsWith (s p : jsstring) : bool := startsWith (rev s) (rev p).

(** Position of the first occurrence of [p] in [s]. *)
Fixpoint search (s p : jsstring) : option nat :=
  if startsWith s p then Some O
  else match s with
       | [] => None
       | _ :: s' => option_map S (search s' p)
       end.

(** [s.indexOf(p)]: the position of the first occurrence, or -1. *)
Definition indexOf (s p : jsstring) : Z :=
  match search s p with
  | Some i => Z.of_nat i
  | None => (-1)%Z
  end.

(** [s.slice(start, end)]; [None] is an omitted [end].  A negative index
    counts from the end of the string, and both are clamped to it. *)
Definition clampIndex (len i : Z) : Z :=
  if (i <? 0)%Z then Z.max (len + i) 0 else Z.min i len.

Definition slice (s : jsstring) (start : Z) (stop : option Z) : jsstring :=
  let len := Z.of_nat (length s) in
  let from := clampIndex len start in
  let to := match stop with Some e => clampIndex len e | None => len end in
  firstn (Z.to_nat (Z.max (to - from) 0)) (skipn (Z.to_nat from) s).

(** White space and line terminators, the code units [trim] removes. *)
Definition isWhiteSpace (c : N) : bool :=
  (c =? 9) || (c =? 10) || (c =? 11) || (c =? 12) || (c =? 13) || (c =? 32)
  || (c =? 160) || (c =? 5760) || ((8192 <=? c) && (c <=? 8202))
  || (c =? 8232) || (c =? 8233) || (c =? 8239) || (c =? 8287)
  || (c =? 12288) || (c =? 65279).

(** The string without the longest prefix whose code units satisfy [f],
    and without the longest such prefix and suffix. *)
Fixpoint dropWhile (f : N -> bool) (s : jsstring) : jsstring :=
  match s with
  | c :: s' => if f c then dropWhile f s' else s
  | [] => []
  end.

Definition strip (f : N -> bool) (s : jsstring) : jsstring :=
  rev (dropWhile f (rev (dropWhile f s))).

(** [s.trim()]. *)
Definition trim (s : jsstring) : jsstring := strip isWhiteSpace s.

(** Truthiness of a string: only the empty string is falsy. *)
Definition truthy (s : jsstring) : bool :=
  match s with [] => false | _ :: _ => true end.

End JS.

(* ================================================================== *)
(** * JSON.parse *)
(* ================================================================== *)

Module JSON.

Import JS.
Local Open Scope N_scope.

#[local] Set Warnings "-register-all".

(** [JSON.parse] is a built-in of the JavaScript host, not code of the
    repository.  It is modelled after the JSON grammar (ECMA-404) that it
    accepts, and returns the parse tree: members in source order, string
    values decoded to code units, numbers kept as the text of their
    token. *)
Inductive json : Type :=
| JNull
| JBool (b : bool)
| JNumber (token : jsstring)
| JString (s : jsstring)
| JArray (elements : list json)
| JObject (members : list (jsstring * json)).

Definition isJSONWhiteSpace (c : N) : bool :=
  (c =? 9) || (c =? 10) || (c =? 13) || (c =? 32).

Definition skipWS (s : jsstring) : jsstring := dropWhile isJSONWhiteSpace s.

Definition isDigit (c : N) : bool := (48 <=? c) && (c <=? 57).

Definition hexValue (c : N) : option N :=
  if (48 <=? c) && (c <=? 57) then Some (c - 48)
  else if (65 <=? c) && (c <=? 70) then Some (c - 55)
  else if (97 <=? c) && (c <=? 102) then Some (c - 87)
  else None.

Definition hex4 (a b c d : N) : option N :=
  match hexValue a, hexValue b, hexValue c, hexValue d with
  | Some a, Some b, Some c, Some d => Some (((a * 16 + b) * 16 + c) * 16 + d)
  | _, _, _, _ => None
  end.

(** The code unit a one-letter escape stands for. *)
Definition escape (c : N) : option N :=
  if c =? 34 then Some 34          (* quotation mark *)
  else if c =? 92 then Some 92     (* reverse solidus *)
  else if c =? 47 then Some 47     (* solidus *)
  else if c =? 98 then Some 8      (* b: backspace *)
  else if c =? 102 then Some 12    (* f: form feed *)
  else if c =? 110 then Some 10    (* n: line feed *)
  else if c =? 114 then Some 13    (* r: carriage return *)
  else if c =? 116 then Some 9     (* t: tab *)
  else None.

(** The characters of a string after its opening quote, up to and
    including the closing quote; [acc] holds the decoded units so far,
    last first. *)
Fixpoint parseChars (s acc : jsstring) : option (jsstring * jsstring) :=
  match s with
  | [] => None
  | c :: r =>
    if c =? 34 then Some (rev acc, r)
    else if c =? 92 then
      match r with
      | [] => None
      | e :: r1 =>
        if e =? 117 then
          match r1 with
          | h1 :: h2 :: h3 :: h4 :: r2 =>
            match hex4 h1 h2 h3 h4 with
            | Some u => parseChars r2 (u :: acc)
            | None => None
            end
          | _ => None
          end
        else
          match escape e with
          | Some u => parseChars r1 (u :: acc)
          | None => None
          end
      end
    else if c <? 32 then None
    else parseChars r (c :: acc)
  end.

(** The longest run of digits at the head of [s], and what follows. *)
Fixpoint digits (s : jsstring) : jsstring * jsstring :=
  match s with
  | c :: s' =>
    if isDigit c then let (ds, r) := digits s' in (c :: ds, r) else ([], s)
  | [] => ([], [])
  end.

(** A number token: an optional minus; then 0, or a digit 1-9 and any
    digits; then an optional fraction, a dot and one digit or more; then
    an optional exponent, e or E, an optional sign and one digit or
    more. *)
Definition parseInt (s : jsstring) : option (jsstring * jsstring) :=
  match s with
  | c :: r =>
    if c =? 48 then Some ([c], r)
    else if isDigit c then let (ds, r') := digits r in Some (c :: ds, r')
    else None
  | [] => None
  end.

Definition parseFrac (s : jsstring) : option (jsstring * jsstring) :=
  match s with
  | c :: r =>
    if c =? 46 then
      match digits r with
      | ([], _) => None
      | (ds, r') => Some (c :: ds, r')
      end
    else Some ([], s)
  | [] => Some ([], s)
  end.

Definition parseSign (s : jsstring) : jsstring * jsstring :=
  match s with
  | c :: r => if (c =? 43) || (c =? 45) then ([c], r) else ([], s)
  | [] => ([], s)
  end.

Definition parseExp (s : jsstring) : option (jsstring * jsstring) :=
  match s with
  | c :: r =>
    if (c =? 101) || (c =? 69) then
      let (sg, r1) := parseSign r in
      match digits r1 with
      | ([], _) => None
      | (ds, r2) => Some (c :: sg ++ ds, r2)
      end
    else Some ([], s)
  | [] => Some ([], s)
  end.

Definition parseNumber (s : jsstring) : option (jsstring * jsstring) :=
  let (minus, s0) :=
    match s with
    | c :: r => if c =? 45 then ([c], r) else ([], s)
    | [] => ([], s)
    end in
  match parseInt s0 with
  | None => None
  | Some (int, s1) =>
    match parseFrac s1 with
    | None => None
    | Some (frac, s2) =>
      match parseExp s2 with
      | None => None
      | Some (exp, s3) => Some (minus ++ int ++ frac ++ exp, s3)
      end
    end
  end.

(** A value with the white space before it; the result holds the input
    left after the value.  [parseElements] reads the elements of an
    array after its opening bracket and [parseMembers] the members of an
    object after its opening brace, each up to and including the closing
    one.  [fuel] bounds the number of nested calls. *)
Fixpoint parseValue (fuel : nat) (s : jsstring) : option (json * jsstring) :=
  match fuel with
  | O => None
  | S fuel =>
    match skipWS s with
    | [] => None
    | c :: r =>
      if c =? 123 then
        match skipWS r with
        | d :: r' => if d =? 125 then Some (JObject [], r') else parseMembers fuel r []
        | [] => parseMembers fuel r []
        end
      else if c =? 91 then
        match skipWS r with
        | d :: r' => if d =? 93 then Some (JArray [], r') else parseElements fuel r []
        | [] => parseElements fuel r []
        end
      else if c =? 34 then
        match parseChars r [] with
        | Some (str, r') => Some (JString str, r')
        | None => None
        end
      else if startsWith (c :: r) (units "true") then Some (JBool true, skipn 4 (c :: r))
      else if startsWith (c :: r) (units "false") then Some (JBool false, skipn 5 (c :: r))
      else if startsWith (c :: r) (units "null") then Some (JNull, skipn 4 (c :: r))
      else
        match parseNumber (c :: r) with
        | Some (token, r') => Some (JNumber token, r')
        | None => None
        end
    end
  end

with parseElements (fuel : nat) (s : jsstring) (acc : list json)
  : option (json * jsstring) :=
  match fuel with
  | O => None
  | S fuel =>
    match parseValue fuel s with
    | None => None
    | Some (v, r) =>
      match skipWS r with
      | c :: r' =>
        if c =? 44 then parseElements fuel r' (v :: acc)
        else if c =? 93 then Some (JArray (rev (v :: acc)), r')
        else None
      | [] => None
      end
    end
  end

with parseMembers (fuel : nat) (s : jsstring) (acc : list (jsstring * json))
  : option (json * jsstring) :=
  match fuel with
  | O => None
  | S fuel =>
    match skipWS s with
    | c :: r =>
      if c =? 34 then
        match parseChars r [] with
        | None => None
        | Some (key, r1) =>
          match skipWS r1 with
          | c1 :: r2 =>
            if c1 =? 58 then
              match parseValue fuel r2 with
              | None => None
              | Some (v, r3) =>
                match skipWS r3 with
                | c3 :: r4 =>
                  if c3 =? 44 then parseMembers fuel r4 ((key, v) :: acc)
                  else if c3 =? 125 then Some (JObject (rev ((key, v) :: acc)), r4)
                  else None
                | [] => None
                end
              end
            else None
          | [] => None
          end
        end
      else None
    | [] => None
    end
  end.

(** Nesting costs at most two calls per code unit. *)
Definition fuelFor (s : jsstring) : nat := 2 * length s + 2.

(** [JSON.parse(text)]: a JSON text is one value with white space
    around it.  [None] stands for the SyntaxError it throws. *)
Definition parse (text : jsstring) : option json :=
  let core := strip isJSONWhiteSpace text in
  match parseValue (fuelFor core) core with
  | Some (v, []) => Some v
  | Some (_, _ :: _) => None
  | None => None
  end.

End JSON.

(* ================================================================== *)
(** * The framer and the relay ([src/termux/server.js]) *)
(* ================================================================== *)

Module Server.

Import JS JSON.

(** ** WebSocket clients *)

Inductive ReadyState : Type := CONNECTING | OPEN | CLOSING | CLOSED.

Definition isOpen (rs : ReadyState) : bool :=
  match rs with OPEN => true | _ => false end.

(** One element of [wss.clients].  [inbox] lists what [send] was called
    with on this socket, oldest first; a message is identified with the
    value it serializes ([JSON.stringify] of that value is what goes
    over the wire).  [send] on an open socket returns normally. *)
Record client : Type := mkClient {
  sid : nat;
  readyState : ReadyState;
  inbox : list json
}.

Definition send (c : client) (msg : json) : client :=
  {| sid := c.(sid); readyState := c.(readyState); inbox := c.(inbox) ++ [msg] |}.

(** The state the handlers share: the module variable [buffer] and the
    set [wss.clients].  [emitted] is not in the source: it records, in
    order, every value that reached the broadcast loop.  The one-time
    console log of [tryParseAndSend] is left out. *)
Record server : Type := mkServer {
  buffer : jsstring;
  clients : list client;
  emitted : list json
}.

Definition withBuffer (b : jsstring) (st : server) : server :=
  {| buffer := b; clients := st.(clients); emitted := st.(emitted) |}.

(** [wss.clients.forEach(client => { if (client.readyState ===
    WebSocket.OPEN) client.send(msg) })] *)
Definition broadcast (msg : json) (cs : list client) : list client :=
  map (fun c => if isOpen c.(readyState) then send c msg else c) cs.

Definition tryParseAndSend (jsonStr : jsstring) (st : server) : server :=
  let cleanStr := trim jsonStr in
  if negb (truthy cleanStr) then st
  else
    match parse cleanStr with
    | Some data =>
      {| buffer := st.(buffer);
         clients := broadcast data st.(clients);
         emitted := st.(emitted) ++ [data] |}
    | None => st   (* catch (e) { } *)
    end.

(** ** The handler of [sensorProcess.stdout.on('data')] *)

Definition newlineBoundary : jsstring := [125; 10; 123]%N.   (* }\n{ *)
Definition bareBoundary : jsstring := [125; 123]%N.          (* }{ *)

Local Open Scope Z_scope.

(** The condition of the [while] loop. *)
Definition hasBoundary (buffer : jsstring) : bool :=
  negb (indexOf buffer newlineBoundary =? -1)
  || negb (indexOf buffer bareBoundary =? -1).

Definition splitPoint (buffer : jsstring) : Z :=
  if negb (indexOf buffer newlineBoundary =? -1)
  then indexOf buffer newlineBoundary + 1
  else indexOf buffer bareBoundary + 1.

(** The body of the [while] loop. *)
Definition splitOnce (st : server) : server :=
  let splitPoint := splitPoint st.(buffer) in
  let jsonStr := trim (slice st.(buffer) 0 (Some splitPoint)) in
  let buffer := trim (slice st.(buffer) splitPoint None) in
  tryParseAndSend jsonStr (withBuffer buffer st).

(** The [while] loop, for at most [fuel] iterations. *)
Fixpoint drain (fuel : nat) (st : server) : server :=
  match fuel with
  | O => st
  | S fuel => if hasBoundary st.(buffer) then drain fuel (splitOnce st) else st
  end.

(** The buffer loses at least one code unit at every iteration. *)
Definition drainFuel (st : server) : nat := length st.(buffer).

Definition closingBrace : jsstring := [125]%N.

Definition onData (st : server) (data : jsstring) : server :=
  let st := withBuffer (st.(buffer) ++ data) st in
  let st := drain (drainFuel st) st in
  if endsWith (trim st.(buffer)) closingBrace then
    match parse st.(buffer) with
    | Some _ => withBuffer [] (tryParseAndSend st.(buffer) st)
    | None => st   (* catch (e) { } *)
    end
  else st.

(** ** The connection handler and the life of a socket *)

(** [{ type: 'info', msg: 'Connected to Phone' }] *)
Definition infoMessage : json :=
  JObject [(units "type", JString (units "info"));
           (units "msg", JString (units "Connected to Phone"))].

(** What happens to the server, one event at a time.  [Connection]: the
    library adds an open socket to [wss.clients] and the handler sends it
    the info message.  [Transport]: a socket of the set changes its
    [readyState].  [Close]: the library takes the socket out of the set.
    [Data]: a chunk arrives on the sensor's stdout. *)
Inductive event : Type :=
| Connection (id : nat)
| Transport (id : nat) (rs : ReadyState)
| Close (id : nat)
| Data (chunk : jsstring).

Definition handle (st : server) (e : event) : server :=
  match e with
  | Connection id =>
    {| buffer := st.(buffer);
       clients := st.(clients) ++ [send (mkClient id OPEN []) infoMessage];
       emitted := st.(emitted) |}
  | Transport id rs =>
    {| buffer := st.(buffer);
       clients := map (fun c => if Nat.eqb c.(sid) id
                                then mkClient c.(sid) rs c.(inbox) else c) st.(clients);
       emitted := st.(emitted) |}
  | Close id =>
    {| buffer := st.(buffer);
       clients := filter (fun c => negb (Nat.eqb c.(sid) id)) st.(clients);
       emitted := st.(emitted) |}
  | Data chunk => onData st chunk
  end.

Definition start : server := {| buffer := []; clients := []; emitted := [] |}.

Definition serve (events : list event) (st : server) : server :=
  fold_left handle events st.

(** The records a list of chunks makes the framer emit, from an empty
    buffer. *)
Definition feed (chunks : list jsstring) : list json :=
  emitted (serve (map Data chunks) start).

End Server.

(* ================================================================== *)
(** * The vocabulary of the design document, for the framer and relay *)
(* ================================================================== *)

Module ServerTerms.

Import JS JSON Server.
Local Open Scope N_scope.

(** [p] occurs in [s] at position [i]; and [i] is its first position. *)
Definition occursAt (s p : jsstring) (i : nat) : Prop :=
  exists pre post, s = pre ++ p ++ post /\ length pre = i.

Definition firstAt (s p : jsstring) (i : nat) : Prop :=
  occursAt s p i /\ forall j, (j < i)%nat -> ~ occursAt s p j.

(** The last code unit of the text of a value. *)
Definition lastUnit (v : json) (c : N) : Prop :=
  match v with
  | JObject _ => c = 125
  | JArray _ => c = 93
  | JString _ => c = 34
  | JBool _ => c = 101
  | JNull => c = 108
  | JNumber _ => isDigit c = true
  end.

(** A parser that turns [s] into [r] has read a text that ends in [c]. *)
Definition consumes (s r : jsstring) (c : N) : Prop :=
  exists pre, s = pre ++ c :: r.

(** A parser that turns [s] into [r] has read a text that ends in a
    digit. *)
Definition endsInDigit (s r : jsstring) : Prop :=
  exists d, consumes s r d /\ isDigit d = true.

(** The state in which the [while] loop of the data handler ends. *)
Definition afterLoop (st : server) (chunk : jsstring) : server :=
  let st1 := withBuffer (st.(buffer) ++ chunk) st in
  drain (drainFuel st1) st1.

(** A text that [JSON.parse] reads as one complete record (an object). *)
Definition isRecord (text : jsstring) : Prop :=
  exists members, parse text = Some (JObject members).

(** The boundary the design document asks for: the first occurrence of
    either separator, whichever comes first in the buffer. *)
Definition earliestBoundary (buffer : jsstring) : Z :=
  let i := indexOf buffer newlineBoundary in
  let j := indexOf buffer bareBoundary in
  if (i =? -1)%Z then j else if (j =? -1)%Z then i else Z.min i j.

(** [l] is [m] with some elements left out, order kept. *)
Inductive subsequence {A : Type} : list A -> list A -> Prop :=
| subsequence_nil : subsequence [] []
| subsequence_skip (x : A) (l m : list A) : subsequence l m -> subsequence l (x :: m)
| subsequence_keep (x : A) (l m : list A) : subsequence l m -> subsequence (x :: l) (x :: m).

(** The two sensor records of the design document. *)
Definition motionAccel : jsstring := quoted "{'Motion Accel':{'values':[1,2,3]}}".
Definition pseudoGyro : jsstring := quoted "{'Pseudo Gyro':{'values':[0.1,0.2,0.3]}}".

Definition values (tokens : list jsstring) : json :=
  JObject [(units "values", JArray (map JNumber tokens))].

(** Everything a client registered under [id] has received, after the
    info message, was emitted after the log had length [n0]. *)
Definition lateOnly (n0 id : nat) (st : server) : Prop :=
  (n0 <= length (emitted st))%nat /\
  forall c, In c (clients st) -> sid c = id ->
    exists l, inbox c = infoMessage :: l /\ subsequence l (skipn n0 (emitted st)).

(** The log of emissions only grows. *)
Definition extends (st st' : server) : Prop :=
  exists more, emitted st' = emitted st ++ more.

(** The clients after the records [new] have been broadcast, oldest
    first: the open ones have them at the end of their inbox, the others
    are as they were. *)
Definition deliver (new : list json) (cs : list client) : list client :=
  map (fun c => if isOpen c.(readyState)
                then mkClient c.(sid) c.(readyState) (c.(inbox) ++ new)
                else c) cs.

(** [st'] is [st] after emitting and broadcasting [new]. *)
Definition delivers (st st' : server) (new : list json) : Prop :=
  emitted st' = emitted st ++ new /\ clients st' = deliver new (clients st).

(** Two records with nothing between them. *)
Definition twoBare : jsstring := quoted "{'a':1}{'b':2}".

(** The server after the first [k] code units of [text] have come in one
    chunk. *)
Definition afterPrefix (text : jsstring) (k : nat) : server :=
  onData start (firstn k text).

End ServerTerms.

(* ================================================================== *)
(** * JavaScript values read by the client *)
(* ================================================================== *)

Module Values.
Import JS JSON.
Local Open Scope N_scope.

(** [a === b] on strings. *)
Fixpoint strictEquals (a b : jsstring) : bool :=
  match a, b with
  | [], [] => true
  | c :: a', d :: b' => (c =? d) && strictEquals a' b'
  | _, _ => false
  end.

(** What a property read on a parsed message can give: [undefined], a
    value of the parse tree, or the method [Array.prototype.values]
    (the one property read by the client that an array inherits). *)
Inductive value : Type :=
| Undefined
| Parsed (v : json)
| ArrayValues.

(** The own property [key] of an object made by [JSON.parse]: of two
    members with the same name the later one is kept. *)
Fixpoint getOwn (members : list (jsstring * json)) (key : jsstring) : option json :=
  match members with
  | [] => None
  | (k, v) :: rest =>
    match getOwn rest key with
    | Some w => Some w
    | None => if strictEquals k key then Some v else None
    end
  end.

(** [v[key]] on a value other than [null], for a name that no
    prototype defines ([type], [msg] and the two channel names): the
    own property of an object, [undefined] on an array, a string, a
    number or a boolean. *)
Definition get (v : json) (key : jsstring) : value :=
  match v with
  | JObject members =>
    match getOwn members key with Some w => Parsed w | None => Undefined end
  | _ => Undefined
  end.

(** [channel?.values]. *)
Definition valuesOf (channel : value) : value :=
  match channel with
  | Undefined => Undefined
  | ArrayValues => Undefined
  | Parsed JNull => Undefined
  | Parsed (JObject members) =>
    match getOwn members (units "values") with Some w => Parsed w | None => Undefined end
  | Parsed (JArray _) => ArrayValues
  | Parsed _ => Undefined
  end.

Local Open Scope Z_scope.

(** The digits at the head of [s]: the number read so far, how many
    digits were read, and the rest. *)
Fixpoint readDigits (acc : Z) (count : nat) (s : jsstring) : Z * nat * jsstring :=
  match s with
  | c :: r =>
    if isDigit c then readDigits (acc * 10 + Z.of_N (c - 48)) (S count) r
    else (acc, count, s)
  | [] => (acc, count, [])
  end.

Definition readSign (s : jsstring) : bool * jsstring :=
  match s with
  | c :: r => if (c =? 45)%N then (true, r) else if (c =? 43)%N then (false, r) else (false, s)
  | [] => (false, [])
  end.

(** The number a JSON number token denotes, taken exactly. *)
Definition numberValue (token : jsstring) : R :=
  let '(negative, s) := readSign token in
  let '(int, _, s) := readDigits 0 0 s in
  let '(mantissa, decimals, s) :=
    match s with
    | c :: r => if (c =? 46)%N then readDigits int 0 r else (int, 0%nat, s)
    | [] => (int, 0%nat, [])
    end in
  let exponent :=
    match s with
    | _ :: r =>
      let '(down, r) := readSign r in
      let '(e, _, _) := readDigits 0 0 r in
      if down then - e else e
    | [] => 0
    end in
  ((if negative then -1 else 1) * IZR mantissa
   * powerRZ 10 (exponent - Z.of_nat decimals))%R.

(** ToBoolean. *)
Definition truthy (v : value) : bool :=
  match v with
  | Undefined => false
  | ArrayValues => true
  | Parsed JNull => false
  | Parsed (JBool b) => b
  | Parsed (JNumber token) => negb (Physics.Reqb (numberValue token) 0)
  | Parsed (JString s) => JS.truthy s
  | Parsed (JArray _) => true
  | Parsed (JObject _) => true
  end.

(** [a[0]], [a[1]] and [a[2]] when [a] is an array that starts with
    three numbers. *)
Definition sampleOf (a : value) : option Physics.sample :=
  match a with
  | Parsed (JArray (JNumber n0 :: JNumber n1 :: JNumber n2 :: _)) =>
    Some (numberValue n0, numberValue n1, numberValue n2)
  | _ => None
  end.

End Values.

(* ================================================================== *)
(** * The address printed at start-up ([src/termux/server.js]) *)
(* ================================================================== *)

Module Network.
Import JS Values.
Local Open Scope N_scope.

(** One entry of the arrays that [os.networkInterfaces()] returns. *)
Record NetworkInterfaceInfo : Type := mkInterface {
  address : jsstring;
  family : jsstring;
  internal : bool
}.

(** The body of the inner [forEach], as a function of [localIP]. *)
Definition visit (localIP : jsstring) (iface : NetworkInterfaceInfo) : jsstring :=
  if strictEquals iface.(family) (units "IPv4") && negb iface.(internal) then
    if startsWith iface.(address) (units "192") then iface.(address) else localIP
  else localIP.

(** "1. Find Local IP".  [interfaces] lists the properties of the object
    that [os.networkInterfaces()] returns, in the order of
    [Object.keys]. *)
Definition findLocalIP (interfaces : list (jsstring * list NetworkInterfaceInfo))
  : jsstring :=
  let localIP := units "Not Found" in
  fold_left (fun localIP entry => fold_left visit (snd entry) localIP)
            interfaces localIP.

End Network.

(* ================================================================== *)
(** * The client ([src/App.tsx], [src/components/Visualizer.tsx]) *)
(* ================================================================== *)

Module App.
Import JS JSON Values.

(** ** The handler of [ws.onmessage] *)

(** Where the handler ends: in the [catch] branch, in the [info]
    branch, past a false [accelData && gyroData], or in the call
    [update(accelData, gyroData, performance.now())]. *)
Inductive outcome : Type :=
| ParseError
| Info (msg : value)
| Ignored
| Update (accelData gyroData : value).

Definition isInfo (v : value) : bool :=
  match v with
  | Parsed (JString s) => strictEquals s (units "info")
  | _ => false
  end.

(** The body of the [try] block once [data] is parsed.  A property
    read on [null] throws, which the [catch] takes. *)
Definition route (data : json) : outcome :=
  match data with
  | JNull => ParseError
  | _ =>
    if isInfo (get data (units "type")) then Info (get data (units "msg"))
    else
      let accelData := valuesOf (get data (units "Motion Accel")) in
      let gyroData := valuesOf (get data (units "Pseudo Gyro")) in
      if truthy accelData && truthy gyroData then Update accelData gyroData
      else Ignored
  end.

Definition onmessage (eventData : jsstring) : outcome :=
  match parse eventData with
  | Some data => route data
  | None => ParseError
  end.

(** ** The component state *)

(** A line of the status log: the text given to [addLog], or the
    [Phone:] line of an [info] message.  The clock reading in front of
    it and the conversion of [msg] to a string are the host's. *)
Inductive line : Type :=
| Text (msg : jsstring)
| Phone (msg : value).

(** The updater [prev => [entry, ...prev.slice(0, 19)]]. *)
Definition addLog (entry : line) (prev : list line) : list line :=
  entry :: firstn 19 prev.

(** State objects live in [heap] and are named by their index.
    [engine] is [physicsEngine.current.state] and [physicsState] is
    [physicsState.current]: two references that may name the same
    object. *)
Record scene : Type := mkScene {
  heap : list Physics.ControllerState;
  engine : nat;
  physicsState : nat;
  isConnected : bool;
  statusLog : list line
}.

Definition deref (h : list Physics.ControllerState) (a : nat) : Physics.ControllerState :=
  nth a h Physics.construct.

(** Assignments to the fields of the object at [a]. *)
Definition assign (h : list Physics.ControllerState) (a : nat)
  (st : Physics.ControllerState) : list Physics.ControllerState :=
  firstn a h ++ st :: skipn (S a) h.

(** The first render: the engine is constructed and [physicsState]
    starts on the object that [getState()] returns. *)
Definition mount : scene :=
  {| heap := [Physics.construct];
     engine := 0;
     physicsState := 0;
     isConnected := false;
     statusLog := [] |}.

Definition log (entry : line) (s : scene) : scene :=
  {| heap := s.(heap); engine := s.(engine); physicsState := s.(physicsState);
     isConnected := s.(isConnected); statusLog := addLog entry s.(statusLog) |}.

Definition setIsConnected (b : bool) (s : scene) : scene :=
  {| heap := s.(heap); engine := s.(engine); physicsState := s.(physicsState);
     isConnected := b; statusLog := s.(statusLog) |}.

(** [physicsEngine.current.reset()]: a new state object, which only
    the engine refers to. *)
Definition engineReset (now : R) (s : scene) : scene :=
  {| heap := s.(heap) ++ [Physics.reset (deref s.(heap) s.(engine)) now];
     engine := length s.(heap);
     physicsState := s.(physicsState);
     isConnected := s.(isConnected); statusLog := s.(statusLog) |}.

(** [physicsEngine.current.update(...)] writes into the engine's
    object; [physicsState.current = physicsEngine.current.getState()]
    then points the view at it. *)
Definition engineUpdate (accel gyro : Physics.sample) (now : R) (s : scene) : scene :=
  {| heap := assign s.(heap) s.(engine)
                    (Physics.update (deref s.(heap) s.(engine)) accel gyro now);
     engine := s.(engine);
     physicsState := s.(engine);
     isConnected := s.(isConnected); statusLog := s.(statusLog) |}.

Inductive event : Type :=
| Open (now : R)                               (* ws.onopen *)
| Message (eventData : jsstring) (now : R)     (* ws.onmessage *)
| SocketError                                  (* ws.onerror *)
| Close                                        (* ws.onclose *)
| Reset (now : R).                             (* handleReset *)

(** [None]: [update] is called with something else than two arrays of
    numbers, which is outside the model. *)
Definition handle (e : event) (s : scene) : option scene :=
  match e with
  | Open now =>
    Some (engineReset now (log (Text (units "WebSocket Connected!")) (setIsConnected true s)))
  | Message eventData now =>
    match onmessage eventData with
    | ParseError => Some s
    | Info msg => Some (log (Phone msg) s)
    | Ignored => Some s
    | Update accelData gyroData =>
      match sampleOf accelData, sampleOf gyroData with
      | Some accel, Some gyro => Some (engineUpdate accel gyro now s)
      | _, _ => None
      end
    end
  | SocketError => Some (log (Text (units "WebSocket Error. Check IP or Network.")) s)
  | Close => Some (log (Text (units "Disconnected.")) (setIsConnected false s))
  | Reset now => Some (log (Text (units "Position/Rotation Reset.")) (engineReset now s))
  end.

Fixpoint run (events : list event) (s : scene) : option scene :=
  match events with
  | [] => Some s
  | e :: rest =>
    match handle e s with
    | Some s' => run rest s'
    | None => None
    end
  end.

(** What [useFrame] copies to the mesh. *)
Definition frame (s : scene) : Physics.Vector3 * Physics.Quaternion :=
  let st := deref s.(heap) s.(physicsState) in
  (st.(Physics.position), st.(Physics.rotation)).

End App.

(* ================================================================== *)
(** * Terms of the further properties *)
(* ================================================================== *)

Module RotationTerms.
Import Physics PhysicsTerms.
Local Open Scope R_scope.

(** The conjugate of a quaternion, and a vector as a pure quaternion. *)
Definition conjugate (q : Quaternion) : Quaternion :=
  {| qx := - q.(qx); qy := - q.(qy); qz := - q.(qz); qw := q.(qw) |}.

Definition pure (v : Vector3) : Quaternion :=
  {| qx := v.(x); qy := v.(y); qz := v.(z); qw := 0 |}.

(** Squared length of a vector. *)
Definition lengthSq (v : Vector3) : R := dot v v.

End RotationTerms.

Module FramerTerms.
Import JS JSON Server ServerTerms.
Local Open Scope N_scope.

(** The value is an object. *)
Definition isObject (v : json) : Prop := exists members, v = JObject members.

(** The records that the texts parse to, in order; a text that does not
    parse gives none. *)
Definition parsed (texts : list jsstring) : list json :=
  flat_map (fun t => match parse t with Some v => [v] | None => [] end) texts.

(** A text between an opening and a closing brace that holds neither
    boundary. *)
Definition braced (f : jsstring) : Prop :=
  (exists body, f = 123 :: body ++ [125]) /\ hasBoundary f = false.

(** The fragments with a line feed between each two. *)
Fixpoint joinLines (fragments : list jsstring) : jsstring :=
  match fragments with
  | [] => []
  | [f] => f
  | f :: rest => f ++ [10] ++ joinLines rest
  end.

End FramerTerms.

Module NetworkTerms.
Import JS Values Network.

(** An external IPv4 address that starts with 192. *)
Definition usable (iface : NetworkInterfaceInfo) : Prop :=
  iface.(family) = units "IPv4" /\ iface.(internal) = false
  /\ exists rest, iface.(address) = units "192" ++ rest.

Definition usableb (iface : NetworkInterfaceInfo) : bool :=
  strictEquals iface.(family) (units "IPv4") && negb iface.(internal)
  && startsWith iface.(address) (units "192").

(** All the interface entries, in the order they are visited. *)
Definition allInterfaces (interfaces : list (jsstring * list NetworkInterfaceInfo))
  : list NetworkInterfaceInfo :=
  flat_map snd interfaces.

End NetworkTerms.

Module AppTerms.
Import JS JSON Values App.

(** Both references name objects of the heap. *)
Definition wellFormed (s : scene) : Prop :=
  (engine s < length (heap s))%nat /\ (physicsState s < length (heap s))%nat.

(** A message that ends in the call of [update]. *)
Definition isSensor (e : event) : bool :=
  match e with
  | Message eventData _ =>
    match onmessage eventData with Update _ _ => true | _ => false end
  | _ => false
  end.

(** The pose of a state object, as [frame] reads it. *)
Definition pose (st : Physics.ControllerState) : Physics.Vector3 * Physics.Quaternion :=
  (st.(Physics.position), st.(Physics.rotation)).

(** At the origin, not rotated, not moving. *)
Definition atRest (st : Physics.ControllerState) : Prop :=
  st.(Physics.position) = Physics.origin
  /\ st.(Physics.rotation) = Physics.identityRotation
  /\ st.(Physics.velocity) = Physics.origin.

(** The events of [events] are all other than sensor messages. *)
Definition quiet (events : list event) : Prop :=
  forallb (fun e => negb (isSensor e)) events = true.

(** The invariant of the component: the view is on the engine's
    object, or the engine's object is fresh from [reset]. *)
Definition linked (s : scene) : Prop :=
  wellFormed s
  /\ (physicsState s = engine s \/ atRest (deref (heap s) (engine s))).

(** The event is within the model: if it is a message that ends in the
    call of [update], both arguments are arrays that start with three
    numbers. *)
Definition numeric (e : event) : bool :=
  match e with
  | Message eventData _ =>
    match onmessage eventData with
    | Update accelData gyroData =>
      match sampleOf accelData, sampleOf gyroData with
      | Some _, Some _ => true
      | _, _ => false
      end
    | _ => true
    end
  | _ => true
  end.

End AppTerms.

(* ================================================================== *)
(** * Properties of the pose estimator *)
(* ================================================================== *)

Module PhysicsSpec.

Import Physics PhysicsTerms.
Local Open Scope R_scope.

(** ** Reflection of the comparisons *)

Lemma Rltb_true (a b : R) : Rltb a b = true <-> a < b.
Proof. unfold Rltb; destruct (Rlt_dec a b); split; intros; auto; discriminate. Qed.

Lemma Rltb_false (a b : R) : Rltb a b = false <-> ~ a < b.
Proof. unfold Rltb; destruct (Rlt_dec a b); split; intros; auto; try discriminate; contradiction. Qed.

Lemma Rleb_true (a b : R) : Rleb a b = true <-> a <= b.
Proof. unfold Rleb; destruct (Rle_dec a b); split; intros; auto; discriminate. Qed.

Lemma Reqb_true (a b : R) : Reqb a b = true <-> a = b.
Proof. unfold Reqb; destruct (Req_dec_T a b); split; intros; auto; discriminate. Qed.

Lemma rejected_true (dt : R) : rejected dt = true <-> dt > 1 \/ dt <= 0.
Proof.
  unfold rejected, Rgtb.
  rewrite orb_true_iff, Rltb_true, Rleb_true. tauto.
Qed.

Lemma rejected_false (dt : R) : rejected dt = false <-> 0 < dt <= 1.
Proof.
  destruct (rejected dt) eqn:E.
  - apply rejected_true in E. split; [discriminate | lra].
  - split; [intros _ | reflexivity].
    assert (~ (dt > 1 \/ dt <= 0)) by (rewrite <- rejected_true, E; discriminate).
    lra.
Qed.

Lemma or_else_zero (b : R) : or_else 0 b = b.
Proof.
  unfold or_else. destruct (Reqb 0 0) eqn:E; [reflexivity |].
  assert (Reqb 0 0 = true) by (apply Reqb_true; reflexivity). congruence.
Qed.

Lemma or_else_nonzero (a b : R) : a <> 0 -> or_else a b = a.
Proof.
  intros Ha. unfold or_else. destruct (Reqb a 0) eqn:E; [| reflexivity].
  apply Reqb_true in E. contradiction.
Qed.

(** ** The guard *)

Lemma update_rejected (st : ControllerState) (accel gyro : sample) (timestamp : R) :
  rejected (timeDelta st timestamp) = true ->
  update st accel gyro timestamp = touched st timestamp.
Proof. intros H. unfold update. cbv zeta. rewrite H. reflexivity. Qed.

Lemma timeDelta_fresh (st : ControllerState) (timestamp : R) :
  lastUpdate st = 0 -> timeDelta st timestamp = 0.
Proof.
  intros H. unfold timeDelta. cbv zeta. rewrite H, or_else_zero. lra.
Qed.

Lemma timeDelta_seen (st : ControllerState) (timestamp : R) :
  lastUpdate st <> 0 -> timeDelta st timestamp = (timestamp - lastUpdate st) / 1000.
Proof.
  intros H. unfold timeDelta. cbv zeta. rewrite or_else_nonzero by assumption. reflexivity.
Qed.

(** C3.  A call to [update] whose time delta [(timestamp - lastUpdate) /
    1000] is at most 0 or above 1 leaves position, velocity and rotation
    exactly as they were and stores the given time stamp in
    [lastUpdate]; [update] is a total function, so nothing is raised. *)
Theorem C3_dt_guard_frame (st : ControllerState) (accel gyro : sample) (timestamp : R) :
  (timestamp - lastUpdate st) / 1000 <= 0 \/ (timestamp - lastUpdate st) / 1000 > 1 ->
  let st' := update st accel gyro timestamp in
  position st' = position st /\ velocity st' = velocity st /\
  rotation st' = rotation st /\ lastUpdate st' = timestamp.
Proof.
  intros H st'. subst st'.
  rewrite update_rejected; [cbn; auto |].
  apply rejected_true.
  destruct (Req_dec_T (lastUpdate st) 0) as [Hz | Hnz].
  - rewrite timeDelta_fresh by assumption. lra.
  - rewrite timeDelta_seen by assumption. lra.
Qed.

Lemma C3_dt_guard_frame_witness :
  let st := mkState (mkVector3 1 2 3) (mkQuaternion 0 0 0 1) (mkVector3 4 5 6) 5000 in
  let st' := update st (1, 2, 3) (4, 5, 6) 7000 in
  ((7000 - lastUpdate st) / 1000 <= 0 \/ (7000 - lastUpdate st) / 1000 > 1) /\
  position st' = position st /\ velocity st' = velocity st /\
  rotation st' = rotation st /\ lastUpdate st' = 7000.
Proof.
  intros st.
  assert (H : (7000 - lastUpdate st) / 1000 <= 0 \/ (7000 - lastUpdate st) / 1000 > 1)
    by (right; simpl; lra).
  split; [exact H |].
  apply (C3_dt_guard_frame st (1, 2, 3) (4, 5, 6) 7000). exact H.
Defined.

(** C10.  [construct()] stores 0 in [lastUpdate]; the first [update]
    reads [lastUpdate || now], takes [now], gets a time delta of 0, is
    dropped by the guard and only records the time stamp, whatever the
    sample and the time stamp are. *)
Theorem C10_first_update_dropped (accel gyro : sample) (timestamp : R) :
  lastUpdate construct = 0 /\
  timeDelta construct timestamp = 0 /\
  rejected (timeDelta construct timestamp) = true /\
  update construct accel gyro timestamp =
    {| position := position construct; rotation := rotation construct;
       velocity := velocity construct; lastUpdate := timestamp |}.
Proof.
  assert (Hd : timeDelta construct timestamp = 0) by (apply timeDelta_fresh; reflexivity).
  assert (Hr : rejected (timeDelta construct timestamp) = true)
    by (apply rejected_true; rewrite Hd; lra).
  repeat split; auto.
  now rewrite update_rejected.
Qed.

(** C7.  Whatever the state before, [reset()] leaves position (0,0,0),
    velocity (0,0,0), rotation (0,0,0,1) and the current time in
    [lastUpdate]; the result does not depend on the state before. *)
Theorem C7_identity_reset (st : ControllerState) (now : R) :
  position (reset st now) = mkVector3 0 0 0 /\
  velocity (reset st now) = mkVector3 0 0 0 /\
  rotation (reset st now) = mkQuaternion 0 0 0 1 /\
  lastUpdate (reset st now) = now /\
  forall st0 : ControllerState, reset st0 now = reset st now.
Proof. repeat split. Qed.

(** ** Orientation *)

Lemma sumsq_nonneg (q : Quaternion) : 0 <= sumsq q.
Proof. unfold sumsq. nra. Qed.

Lemma norm_sumsq (q : Quaternion) : norm q = sqrt (sumsq q).
Proof. reflexivity. Qed.

Lemma norm_one_sumsq (q : Quaternion) : norm q = 1 <-> sumsq q = 1.
Proof.
  rewrite norm_sumsq. split; intros H.
  - rewrite <- (sqrt_sqrt (sumsq q)) by apply sumsq_nonneg. rewrite H. lra.
  - rewrite H. apply sqrt_1.
Qed.

Lemma multiplyQuaternions_hamilton (p q : Quaternion) :
  multiplyQuaternions p q = hamilton p q.
Proof.
  unfold multiplyQuaternions, hamilton, cross, dot, vec; cbn.
  f_equal; ring.
Qed.

Lemma sumsq_multiply (p q : Quaternion) :
  sumsq (multiplyQuaternions p q) = sumsq p * sumsq q.
Proof. unfold sumsq, multiplyQuaternions; cbn. ring. Qed.

Lemma sumsq_normalize (q : Quaternion) : 0 < sumsq q -> sumsq (normalize q) = 1.
Proof.
  intros Hpos.
  assert (Hs : 0 < sqrt (sumsq q)) by (apply sqrt_lt_R0; assumption).
  assert (Hq : sqrt (sumsq q) * sqrt (sumsq q) = sumsq q)
    by (apply sqrt_sqrt; lra).
  unfold normalize. rewrite norm_sumsq.
  set (n := sqrt (sumsq q)) in *.
  unfold sumsq at 1; cbn.
  replace (qx q / n * (qx q / n) + qy q / n * (qy q / n) + qz q / n * (qz q / n)
           + qw q / n * (qw q / n))
    with (sumsq q / (n * n)) by (unfold sumsq; field; lra).
  rewrite Hq. field. lra.
Qed.

Lemma sumsq_smallAngle (gyro : sample) (dt : R) : 0 < sumsq (smallAngle gyro dt).
Proof.
  destruct gyro as [[gx gy] gz]. unfold sumsq, smallAngle; cbn. nra.
Qed.

(** The second normalization of the source squares with [** 2]. *)
Lemma normalize_pow (r : Quaternion) :
  {| qx := qx r / sqrt (qx r ^ 2 + qy r ^ 2 + qz r ^ 2 + qw r ^ 2);
     qy := qy r / sqrt (qx r ^ 2 + qy r ^ 2 + qz r ^ 2 + qw r ^ 2);
     qz := qz r / sqrt (qx r ^ 2 + qy r ^ 2 + qz r ^ 2 + qw r ^ 2);
     qw := qw r / sqrt (qx r ^ 2 + qy r ^ 2 + qz r ^ 2 + qw r ^ 2) |}
  = normalize r.
Proof.
  unfold normalize, norm.
  replace (qx r ^ 2 + qy r ^ 2 + qz r ^ 2 + qw r ^ 2)
    with (qx r * qx r + qy r * qy r + qz r * qz r + qw r * qw r) by ring.
  reflexivity.
Qed.

(** The rotation block of [update], in the vocabulary above. *)
Lemma integrateGyro_spec (rot : Quaternion) (gyro : sample) (dt : R) :
  integrateGyro rot gyro dt = normalize (hamilton rot (normalize (smallAngle gyro dt))).
Proof.
  destruct gyro as [[gx gy] gz].
  rewrite <- multiplyQuaternions_hamilton, <- normalize_pow.
  replace (smallAngle (gx, gy, gz) dt)
    with {| qx := gx * dt * 0.5; qy := gy * dt * 0.5; qz := gz * dt * 0.5; qw := 1 |}
    by (unfold smallAngle; f_equal; lra).
  reflexivity.
Qed.

Lemma integrateGyro_unit (rot : Quaternion) (gyro : sample) (dt : R) :
  norm rot = 1 -> norm (integrateGyro rot gyro dt) = 1.
Proof.
  intros Hrot. apply norm_one_sumsq in Hrot.
  rewrite integrateGyro_spec, <- multiplyQuaternions_hamilton.
  apply norm_one_sumsq, sumsq_normalize.
  rewrite sumsq_multiply, Hrot, sumsq_normalize by apply sumsq_smallAngle.
  lra.
Qed.

Lemma update_accepted_rotation (st : ControllerState) (accel gyro : sample) (timestamp : R) :
  rejected (timeDelta st timestamp) = false ->
  rotation (update st accel gyro timestamp)
  = integrateGyro (rotation st) gyro (timeDelta st timestamp).
Proof. intros H. unfold update; cbv zeta. rewrite H. reflexivity. Qed.

Lemma update_unit (st : ControllerState) (accel gyro : sample) (timestamp : R) :
  norm (rotation st) = 1 -> norm (rotation (update st accel gyro timestamp)) = 1.
Proof.
  intros H. destruct (rejected (timeDelta st timestamp)) eqn:E.
  - rewrite update_rejected by assumption. exact H.
  - rewrite update_accepted_rotation by assumption. now apply integrateGyro_unit.
Qed.

Lemma identity_unit : norm (mkQuaternion 0 0 0 1) = 1.
Proof.
  apply norm_one_sumsq. unfold sumsq; cbn. ring.
Qed.

Lemma run_unit (calls : list call) (st : ControllerState) :
  norm (rotation st) = 1 -> norm (rotation (run calls st)) = 1.
Proof.
  revert st. induction calls as [| c calls IH]; intros st H; [exact H |].
  cbn. apply IH. destruct c as [accel gyro timestamp | now]; cbn.
  - now apply update_unit.
  - apply identity_unit.
Qed.



(** ** Dead zone and zero-velocity update *)

Lemma update_accepted_velocity (st : ControllerState) (accel gyro : sample) (timestamp : R) :
  rejected (timeDelta st timestamp) = false ->
  let dt := timeDelta st timestamp in
  let worldAccel := deadZone (worldAccelRaw accel (integrateGyro (rotation st) gyro dt)) in
  velocity (update st accel gyro timestamp)
  = if zeroVelocity worldAccel
    then halved (damped (velocity st) worldAccel dt)
    else damped (velocity st) worldAccel dt.
Proof.
  intros H dt worldAccel. unfold update; cbv zeta. rewrite H. cbn.
  fold dt. fold worldAccel. destruct (zeroVelocity worldAccel); reflexivity.
Qed.

Lemma axis_after_deadZone (a : R) :
  Rltb (Rabs (if Rltb (Rabs a) 0.2 then 0 else a)) 0.1 = true <-> Rabs a < 0.2.
Proof.
  destruct (Rltb (Rabs a) 0.2) eqn:E.
  - apply Rltb_true in E. rewrite Rabs_R0, Rltb_true. lra.
  - apply Rltb_false in E. rewrite Rltb_true. lra.
Qed.

Lemma zeroVelocity_deadZone (a : Vector3) :
  zeroVelocity (deadZone a) = true <-> below 0.2 a.
Proof.
  unfold zeroVelocity, deadZone, below; cbn.
  rewrite !andb_true_iff, !axis_after_deadZone. tauto.
Qed.

Lemma zeroVelocity_below (a : Vector3) : zeroVelocity a = true <-> below 0.1 a.
Proof.
  unfold zeroVelocity, below. rewrite !andb_true_iff, !Rltb_true. tauto.
Qed.

(** C2, as the code has it.  In an accepted update (0 < dt <= 1) the
    extra halving of the velocity (factor 0.5 after the 0.95 damping) is
    applied exactly when the world-frame acceleration read AFTER the
    dead zone is below 0.1 on every axis, which is exactly when the
    acceleration before the dead zone (after gravity subtraction) is
    below 0.2 on every axis. *)
Theorem C2_zero_velocity_after_dead_zone
    (st : ControllerState) (accel gyro : sample) (timestamp : R) :
  let dt := timeDelta st timestamp in
  0 < dt <= 1 ->
  let pre := worldAccelRaw accel (integrateGyro (rotation st) gyro dt) in
  let v := damped (velocity st) (deadZone pre) dt in
  (below 0.1 (deadZone pre) <-> below 0.2 pre) /\
  (below 0.2 pre -> velocity (update st accel gyro timestamp) = halved v) /\
  (~ below 0.2 pre -> velocity (update st accel gyro timestamp) = v).
Proof.
  intros dt Hdt pre v. apply rejected_false in Hdt.
  pose proof (update_accepted_velocity st accel gyro timestamp Hdt) as Hv.
  cbv zeta in Hv. fold dt in Hv. fold pre in Hv. fold v in Hv.
  split; [| split].
  - rewrite <- zeroVelocity_below. apply zeroVelocity_deadZone.
  - intros Hb. apply zeroVelocity_deadZone in Hb. now rewrite Hv, Hb.
  - intros Hb. rewrite Hv.
    destruct (zeroVelocity (deadZone pre)) eqn:E; [| reflexivity].
    apply zeroVelocity_deadZone in E. contradiction.
Qed.

(** A device at rest in the identity pose: the gyro reads zero. *)
Lemma integrateGyro_still (dt : R) :
  integrateGyro (mkQuaternion 0 0 0 1) (0, 0, 0) dt = mkQuaternion 0 0 0 1.
Proof.
  rewrite integrateGyro_spec.
  replace (smallAngle (0, 0, 0) dt) with (mkQuaternion 0 0 0 1)
    by (unfold smallAngle; f_equal; lra).
  assert (Hn : normalize (mkQuaternion 0 0 0 1) = mkQuaternion 0 0 0 1).
  { unfold normalize. rewrite identity_unit. cbn. f_equal; lra. }
  rewrite Hn.
  replace (hamilton (mkQuaternion 0 0 0 1) (mkQuaternion 0 0 0 1)) with (mkQuaternion 0 0 0 1)
    by (unfold hamilton, cross, dot, vec; cbn; f_equal; ring).
  exact Hn.
Qed.

Lemma worldAccelRaw_identity (ax ay az : R) :
  worldAccelRaw (ax, ay, az) (mkQuaternion 0 0 0 1) = mkVector3 ax (ay - GRAVITY) az.
Proof. unfold worldAccelRaw, applyQuaternion; cbn. f_equal; ring. Qed.

Lemma C2_zero_velocity_after_dead_zone_witness :
  let st := mkState (mkVector3 0 0 0) (mkQuaternion 0 0 0 1) (mkVector3 1 0 0) 1000 in
  let dt := timeDelta st 1100 in
  let pre := worldAccelRaw (0.15, 9.81, 0) (integrateGyro (rotation st) (0, 0, 0) dt) in
  let v := damped (velocity st) (deadZone pre) dt in
  0 < dt <= 1 /\
  (below 0.1 (deadZone pre) <-> below 0.2 pre) /\
  (below 0.2 pre -> velocity (update st (0.15, 9.81, 0) (0, 0, 0) 1100) = halved v) /\
  (~ below 0.2 pre -> velocity (update st (0.15, 9.81, 0) (0, 0, 0) 1100) = v).
Proof.
  intros st dt pre v.
  assert (H : 0 < dt <= 1) by (subst dt; rewrite timeDelta_seen; simpl; lra).
  split; [exact H |].
  apply (C2_zero_velocity_after_dead_zone st (0.15, 9.81, 0) (0, 0, 0) 1100). exact H.
Defined.

(** C2 as the design document words it fails.  A device at rest in the
    identity pose moving at 1 m/s along X reads (0.15, 9.81, 0): before
    the dead zone the world-frame acceleration is (0.15, 0, 0), so its X
    axis lies in [0.1, 0.2) and is not below 0.1; the update is accepted
    (dt = 0.1) and the velocity is halved all the same, from 0.95 to
    0.475. *)
Lemma C2_counterexample :
  let st := mkState (mkVector3 0 0 0) (mkQuaternion 0 0 0 1) (mkVector3 1 0 0) 1000 in
  let dt := timeDelta st 1100 in
  let pre := worldAccelRaw (0.15, 9.81, 0) (integrateGyro (rotation st) (0, 0, 0) dt) in
  0 < dt <= 1 /\
  pre = mkVector3 0.15 0 0 /\
  0.1 <= Rabs (x pre) < 0.2 /\
  ~ below 0.1 pre /\
  damped (velocity st) (deadZone pre) dt = mkVector3 0.95 0 0 /\
  velocity (update st (0.15, 9.81, 0) (0, 0, 0) 1100) = mkVector3 0.475 0 0 /\
  velocity (update st (0.15, 9.81, 0) (0, 0, 0) 1100)
  <> damped (velocity st) (deadZone pre) dt.
Proof.
  intros st dt pre.
  assert (Hdt : dt = 0.1) by (subst dt; rewrite timeDelta_seen; simpl; lra).
  assert (Hacc : 0 < dt <= 1) by lra.
  assert (Hpre : pre = mkVector3 0.15 0 0).
  { subst pre. cbn [rotation st]. rewrite integrateGyro_still, worldAccelRaw_identity.
    unfold GRAVITY. f_equal; lra. }
  assert (Hx : Rabs 0.15 = 0.15) by (apply Rabs_pos_eq; lra).
  assert (Hdz : deadZone pre = mkVector3 0 0 0).
  { rewrite Hpre. unfold deadZone; cbn.
    assert (E1 : Rltb (Rabs 0.15) 0.2 = true) by (apply Rltb_true; lra).
    assert (E0 : Rltb (Rabs 0) 0.2 = true) by (apply Rltb_true; rewrite Rabs_R0; lra).
    now rewrite E1, E0. }
  assert (Hv : damped (velocity st) (deadZone pre) dt = mkVector3 0.95 0 0).
  { rewrite Hdz. unfold damped, FRICTION; cbn. f_equal; lra. }
  split; [exact Hacc |]. split; [exact Hpre |].
  split; [rewrite Hpre; cbn; lra |].
  split; [rewrite Hpre; unfold below; cbn; lra |].
  split; [exact Hv |].
  apply rejected_false in Hacc.
  pose proof (update_accepted_velocity st (0.15, 9.81, 0) (0, 0, 0) 1100 Hacc) as Hu.
  cbv zeta in Hu. fold dt in Hu. fold pre in Hu.
  rewrite Hu, Hv, Hdz.
  assert (Ez : zeroVelocity (mkVector3 0 0 0) = true).
  { apply zeroVelocity_below. unfold below; cbn. rewrite Rabs_R0. lra. }
  assert (Hhalf : halved (mkVector3 0.95 0 0) = mkVector3 0.475 0 0)
    by (unfold halved; cbn; f_equal; lra).
  rewrite Ez, Hhalf. split; [reflexivity |].
  intros Heq. apply (f_equal x) in Heq. cbn in Heq. lra.
Qed.

(** ** Dead-zone clamp and the device at rest *)

(** Dead-zone clamp.  In an accepted update, a world-frame acceleration
    below 0.2 on every axis (after gravity subtraction) adds nothing to
    the velocity: the dead zone turns it into (0,0,0) and the step leaves
    the old velocity times 0.95, halved by the zero-velocity update. *)
Theorem dead_zone_clamp (st : ControllerState) (accel gyro : sample) (timestamp : R) :
  let dt := timeDelta st timestamp in
  0 < dt <= 1 ->
  below 0.2 (worldAccelRaw accel (integrateGyro (rotation st) gyro dt)) ->
  deadZone (worldAccelRaw accel (integrateGyro (rotation st) gyro dt)) = mkVector3 0 0 0
  /\ velocity (update st accel gyro timestamp)
     = {| x := x (velocity st) * FRICTION * 0.5;
          y := y (velocity st) * FRICTION * 0.5;
          z := z (velocity st) * FRICTION * 0.5 |}.
Proof.
  intros dt Hdt Hb.
  set (pre := worldAccelRaw accel (integrateGyro (rotation st) gyro dt)) in *.
  assert (Hz : deadZone pre = mkVector3 0 0 0).
  { destruct Hb as (Hx & Hy & Hz). unfold deadZone.
    apply Rltb_true in Hx, Hy, Hz. now rewrite Hx, Hy, Hz. }
  split; [exact Hz |].
  apply rejected_false in Hdt.
  pose proof (update_accepted_velocity st accel gyro timestamp Hdt) as Hv.
  cbv zeta in Hv. fold dt in Hv. fold pre in Hv.
  apply zeroVelocity_deadZone in Hb. rewrite Hv, Hb, Hz.
  unfold halved, damped; cbn. f_equal; ring.
Qed.

Lemma dead_zone_clamp_witness :
  let st := mkState (mkVector3 0 0 0) (mkQuaternion 0 0 0 1) (mkVector3 1 0 0) 1000 in
  let dt := timeDelta st 1100 in
  0 < dt <= 1 /\
  below 0.2 (worldAccelRaw (0.15, 9.81, 0) (integrateGyro (rotation st) (0, 0, 0) dt)) /\
  deadZone (worldAccelRaw (0.15, 9.81, 0) (integrateGyro (rotation st) (0, 0, 0) dt))
  = mkVector3 0 0 0 /\
  velocity (update st (0.15, 9.81, 0) (0, 0, 0) 1100)
  = {| x := x (velocity st) * FRICTION * 0.5;
       y := y (velocity st) * FRICTION * 0.5;
       z := z (velocity st) * FRICTION * 0.5 |}.
Proof.
  intros st dt.
  assert (Hdt : 0 < dt <= 1) by (subst dt; rewrite timeDelta_seen; simpl; lra).
  assert (Hb : below 0.2 (worldAccelRaw (0.15, 9.81, 0)
                            (integrateGyro (rotation st) (0, 0, 0) dt))).
  { cbn [rotation st]. rewrite integrateGyro_still, worldAccelRaw_identity.
    unfold below, GRAVITY; cbn.
    replace (9.81 - 9.81) with 0 by lra. rewrite Rabs_R0.
    rewrite (Rabs_pos_eq 0.15) by lra. lra. }
  split; [exact Hdt |]. split; [exact Hb |].
  apply (dead_zone_clamp st (0.15, 9.81, 0) (0, 0, 0) 1100 Hdt Hb).
Defined.

(** A device at rest in the identity pose, reading gravity alone. *)
Lemma update_at_rest (st : ControllerState) (timestamp : R) :
  rotation st = mkQuaternion 0 0 0 1 -> velocity st = mkVector3 0 0 0 ->
  update st (0, 9.81, 0) (0, 0, 0) timestamp = touched st timestamp.
Proof.
  intros Hrot Hvel. destruct (rejected (timeDelta st timestamp)) eqn:E.
  { now apply update_rejected. }
  unfold update; cbv zeta. rewrite E. cbn [rotation velocity position].
  rewrite Hrot, Hvel, integrateGyro_still, worldAccelRaw_identity.
  assert (Hdz : deadZone (mkVector3 0 (9.81 - GRAVITY) 0) = mkVector3 0 0 0).
  { unfold deadZone, GRAVITY; cbn. replace (9.81 - 9.81) with 0 by lra.
    assert (E0 : Rltb (Rabs 0) 0.2 = true) by (apply Rltb_true; rewrite Rabs_R0; lra).
    now rewrite E0. }
  rewrite Hdz.
  assert (Ez : zeroVelocity (mkVector3 0 0 0) = true).
  { apply zeroVelocity_below. unfold below; cbn. rewrite Rabs_R0. lra. }
  rewrite Ez. unfold touched. cbn. rewrite Hrot, Hvel.
  destruct (position st) as [px py pz]. cbn.
  f_equal; f_equal; unfold FRICTION, SCALE_FACTOR; ring.
Qed.

(** End-to-end scenario.  After [reset()], samples with no angular
    velocity and gravity alone on the Y axis, at any time stamps, leave
    the rotation at the identity and velocity and position at zero. *)
Theorem gravity_only_stays_put (st : ControllerState) (now : R) (timestamps : list R) :
  let final := run (map (Update (0, 9.81, 0) (0, 0, 0)) timestamps) (reset st now) in
  position final = mkVector3 0 0 0 /\
  velocity final = mkVector3 0 0 0 /\
  rotation final = mkQuaternion 0 0 0 1.
Proof.
  cbv zeta.
  assert (H : forall s, position s = mkVector3 0 0 0 -> velocity s = mkVector3 0 0 0 ->
                        rotation s = mkQuaternion 0 0 0 1 ->
              let final := run (map (Update (0, 9.81, 0) (0, 0, 0)) timestamps) s in
              position final = mkVector3 0 0 0 /\ velocity final = mkVector3 0 0 0 /\
              rotation final = mkQuaternion 0 0 0 1).
  { induction timestamps as [| t ts IH]; intros s Hp Hv Hr; cbn; [auto |].
    apply IH; rewrite update_at_rest by assumption; assumption. }
  now apply H.
Qed.

End PhysicsSpec.

(* ================================================================== *)
(** * Facts about strings *)
(* ================================================================== *)

Module StringFacts.

Import JS ServerTerms.
Local Open Scope N_scope.

(** ** Occurrences *)

Lemma startsWith_iff (s p : jsstring) :
  startsWith s p = true <-> exists post, s = p ++ post.
Proof.
  revert s. induction p as [| c p IH]; intros s; cbn.
  - split; [intros _; now exists s | reflexivity].
  - destruct s as [| d s]; cbn.
    + split; [discriminate | intros [post H]; discriminate].
    + rewrite andb_true_iff, N.eqb_eq, IH. split.
      * intros [-> [post ->]]. now exists post.
      * intros [post H]. injection H as -> ->. split; [reflexivity | now exists post].
Qed.

Lemma occursAt_skipn (s p : jsstring) (i : nat) :
  occursAt s p i <-> (i <= length s)%nat /\ startsWith (skipn i s) p = true.
Proof.
  unfold occursAt. rewrite startsWith_iff. split.
  - intros (pre & post & -> & <-). split.
    + rewrite length_app. lia.
    + exists post. now rewrite skipn_app, skipn_all, Nat.sub_diag.
  - intros [Hi [post H]]. exists (firstn i s), post. split.
    + now rewrite <- H, firstn_skipn.
    + apply firstn_length_le. exact Hi.
Qed.

Lemma search_Some (s p : jsstring) (i : nat) :
  search s p = Some i -> firstAt s p i.
Proof.
  revert i. induction s as [| d s IH]; intros i; cbn [search].
  - destruct (startsWith [] p) eqn:E; [| discriminate].
    intros [= <-]. split; [| intros j Hj; lia].
    apply occursAt_skipn. split; [cbn; lia | exact E].
  - destruct (startsWith (d :: s) p) eqn:E.
    + intros [= <-]. split; [| intros j Hj; lia].
      apply occursAt_skipn. split; [cbn; lia | exact E].
    + destruct (search s p) as [k |] eqn:Ek; [| discriminate].
      intros [= <-]. destruct (IH k eq_refl) as [Hk Hmin]. split.
      * apply occursAt_skipn in Hk. apply occursAt_skipn. cbn. split; [lia | tauto].
      * intros [| j] Hj Hocc; apply occursAt_skipn in Hocc; cbn in Hocc.
        -- destruct Hocc as [_ Hocc]. congruence.
        -- apply (Hmin j); [lia |]. apply occursAt_skipn. split; [lia | tauto].
Qed.

Lemma search_None (s p : jsstring) :
  search s p = None -> forall i, ~ occursAt s p i.
Proof.
  induction s as [| d s IH]; cbn [search].
  - destruct (startsWith [] p) eqn:E; [discriminate |].
    intros _ i Hocc. apply occursAt_skipn in Hocc. destruct Hocc as [Hi Hocc].
    cbn in Hi. replace i with O in Hocc by lia. cbn in Hocc. congruence.
  - destruct (startsWith (d :: s) p) eqn:E; [discriminate |].
    destruct (search s p) eqn:Ek; [discriminate |].
    intros _ [| i] Hocc; apply occursAt_skipn in Hocc; cbn in Hocc.
    + destruct Hocc as [_ Hocc]. congruence.
    + apply (IH eq_refl i). apply occursAt_skipn. split; [lia | tauto].
Qed.

Lemma indexOf_found (s p : jsstring) :
  (indexOf s p =? -1)%Z = false ->
  exists i, search s p = Some i /\ indexOf s p = Z.of_nat i.
Proof.
  unfold indexOf. destruct (search s p) as [i |]; [| discriminate].
  intros _. now exists i.
Qed.

Lemma indexOf_missing (s p : jsstring) :
  (indexOf s p =? -1)%Z = true -> search s p = None /\ indexOf s p = (-1)%Z.
Proof.
  unfold indexOf. destruct (search s p) as [i |]; [| auto].
  intros H. apply Z.eqb_eq in H. lia.
Qed.

(** ** Slices *)

Lemma slice_prefix (s : jsstring) (k : nat) :
  slice s 0 (Some (Z.of_nat k)) = firstn k s.
Proof.
  unfold slice, clampIndex. cbn [Z.ltb Z.compare].
  destruct (Z.of_nat k <? 0)%Z eqn:E; [apply Z.ltb_lt in E; lia |].
  replace (Z.to_nat (Z.min 0 (Z.of_nat (length s)))) with O by lia.
  cbn [skipn].
  destruct (Nat.le_gt_cases k (length s)).
  - f_equal. lia.
  - rewrite !firstn_all2 by lia. reflexivity.
Qed.

Lemma slice_suffix (s : jsstring) (k : nat) :
  slice s (Z.of_nat k) None = skipn k s.
Proof.
  unfold slice, clampIndex.
  destruct (Z.of_nat k <? 0)%Z eqn:E; [apply Z.ltb_lt in E; lia |].
  destruct (Nat.le_gt_cases k (length s)).
  - replace (Z.to_nat (Z.min (Z.of_nat k) (Z.of_nat (length s)))) with k by lia.
    apply firstn_all2. rewrite length_skipn. lia.
  - rewrite (skipn_all2 (n := k)) by lia.
    rewrite skipn_all2 by lia. apply firstn_nil.
Qed.

(** ** Trimming *)

Lemma dropWhile_length (f : N -> bool) (s : jsstring) :
  (length (dropWhile f s) <= length s)%nat.
Proof.
  induction s as [| c s IH]; cbn; [lia |]. destruct (f c); cbn; lia.
Qed.

Lemma strip_length (f : N -> bool) (s : jsstring) :
  (length (strip f s) <= length s)%nat.
Proof.
  unfold strip. rewrite length_rev.
  etransitivity; [apply dropWhile_length |]. rewrite length_rev.
  apply dropWhile_length.
Qed.

Lemma dropWhile_all (f : N -> bool) (w s : jsstring) :
  forallb f w = true -> dropWhile f (w ++ s) = dropWhile f s.
Proof.
  induction w as [| c w IH]; cbn; [reflexivity |].
  intros H. apply andb_true_iff in H as [-> H]. auto.
Qed.

Lemma dropWhile_keep (f : N -> bool) (c : N) (s : jsstring) :
  f c = false -> dropWhile f (c :: s) = c :: s.
Proof. intros H. cbn. now rewrite H. Qed.

Lemma dropWhile_split (f : N -> bool) (s : jsstring) :
  exists w, s = w ++ dropWhile f s /\ forallb f w = true.
Proof.
  induction s as [| c s (w & Hw & Hall)]; cbn.
  - now exists [].
  - destruct (f c) eqn:E.
    + exists (c :: w). cbn. rewrite E, Hall. split; [now f_equal | reflexivity].
    + now exists [].
Qed.

Lemma dropWhile_snoc (f : N -> bool) (s : jsstring) (c : N) :
  f c = false -> dropWhile f (s ++ [c]) = dropWhile f s ++ [c].
Proof.
  intros H. induction s as [| d s IH]; cbn.
  - now rewrite H.
  - destruct (f d); [exact IH | reflexivity].
Qed.

(** A string that starts and ends outside [f] loses nothing. *)
Lemma strip_solid (f : N -> bool) (c d : N) (s : jsstring) :
  f c = false -> f d = false -> strip f (c :: s ++ [d]) = c :: s ++ [d].
Proof.
  intros Hc Hd. unfold strip. rewrite dropWhile_keep by assumption.
  change (c :: s ++ [d]) with ((c :: s) ++ [d]).
  rewrite rev_app_distr. cbn [rev app].
  rewrite dropWhile_keep by assumption.
  cbn [rev]. rewrite rev_app_distr. cbn [rev app]. now rewrite rev_involutive.
Qed.

Lemma strip_single (f : N -> bool) (c : N) : f c = false -> strip f [c] = [c].
Proof. intros H. unfold strip. cbn. rewrite H. cbn. now rewrite H. Qed.

(** White space around a string changes nothing. *)
Lemma strip_pad (f : N -> bool) (w1 w2 s : jsstring) :
  forallb f w1 = true -> forallb f w2 = true ->
  strip f (w1 ++ s ++ w2) = strip f s.
Proof.
  intros H1 H2. unfold strip. rewrite dropWhile_all by assumption.
  destruct (dropWhile_split f s) as (w & Hs & Hw).
  destruct (dropWhile f s) as [| c r] eqn:E.
  - rewrite app_nil_r in Hs. subst w.
    assert (Hd : dropWhile f (s ++ w2) = []).
    { rewrite <- (app_nil_r (s ++ w2)), <- app_assoc.
      rewrite dropWhile_all by assumption.
      rewrite dropWhile_all by assumption. reflexivity. }
    now rewrite Hd.
  - assert (Hc : f c = false).
    { destruct (f c) eqn:Ec; [| reflexivity]. exfalso.
      clear - E Ec. induction s as [| d s IH]; cbn in E; [discriminate |].
      destruct (f d) eqn:Ed; [auto |]. injection E as -> _. congruence. }
    assert (Hd : dropWhile f (s ++ w2) = c :: r ++ w2).
    { rewrite Hs at 1. rewrite <- app_assoc, dropWhile_all by assumption.
      cbn. now rewrite Hc. }
    rewrite Hd. change (c :: r ++ w2) with ((c :: r) ++ w2).
    rewrite rev_app_distr, dropWhile_all; [reflexivity |].
    rewrite forallb_forall in *. intros a Ha. apply H2. now apply in_rev.
Qed.

Lemma strip_ends (f : N -> bool) (s : jsstring) (c : N) :
  f c = false -> strip f (s ++ [c]) = dropWhile f s ++ [c].
Proof.
  intros H. unfold strip. rewrite dropWhile_snoc by assumption.
  rewrite rev_app_distr. cbn [rev app]. rewrite dropWhile_keep by assumption.
  cbn [rev]. now rewrite rev_involutive.
Qed.

Lemma strip_begins (f : N -> bool) (s : jsstring) (c : N) :
  f c = false -> exists r, strip f (c :: s) = c :: r.
Proof.
  intros H. unfold strip. rewrite dropWhile_keep by assumption.
  cbn [rev]. rewrite dropWhile_snoc by assumption.
  rewrite rev_app_distr. cbn. eauto.
Qed.

Lemma endsWith_snoc (s : jsstring) (c : N) : endsWith (s ++ [c]) [c] = true.
Proof.
  unfold endsWith. rewrite rev_app_distr. cbn. now rewrite N.eqb_refl.
Qed.

Lemma endsWith_unit (s : jsstring) (c : N) :
  endsWith s [c] = true -> exists pre, s = pre ++ [c].
Proof.
  unfold endsWith. cbn. destruct (rev s) as [| d r] eqn:E; [discriminate |].
  rewrite andb_true_iff, N.eqb_eq. intros [<- _].
  exists (rev r). rewrite <- (rev_involutive s), E. reflexivity.
Qed.

(** ** More on trimming *)

Lemma dropWhile_head (f : N -> bool) (s : jsstring) (h : N) (t : jsstring) :
  dropWhile f s = h :: t -> f h = false.
Proof.
  induction s as [| c s IH]; cbn; [discriminate |].
  destruct (f c) eqn:E; [exact IH |]. now intros [= <- _].
Qed.

Lemma strip_head (f : N -> bool) (s : jsstring) (h : N) (t : jsstring) :
  strip f s = h :: t -> f h = false.
Proof.
  unfold strip. destruct (dropWhile f s) as [| c t1] eqn:E; [discriminate |].
  apply dropWhile_head in E. cbn [rev].
  rewrite dropWhile_snoc, rev_app_distr by assumption. cbn.
  now intros [= <- _].
Qed.

Lemma strip_fixed (f : N -> bool) (s : jsstring) (h c : N) (t pre : jsstring) :
  s = h :: t -> s = pre ++ [c] -> f h = false -> f c = false -> strip f s = s.
Proof.
  intros Hh Hc Fh Fc. unfold strip.
  rewrite Hh at 1. rewrite dropWhile_keep by assumption. rewrite <- Hh.
  rewrite Hc at 1. rewrite rev_app_distr. cbn [rev app].
  rewrite dropWhile_keep by assumption. cbn [rev].
  now rewrite rev_involutive.
Qed.

Lemma forallb_rev (f : N -> bool) (w : jsstring) :
  forallb f w = true -> forallb f (rev w) = true.
Proof.
  rewrite !forallb_forall. intros H a Ha. apply H. now apply in_rev.
Qed.

Lemma strip_decompose (f : N -> bool) (s : jsstring) :
  exists w1 w2, s = w1 ++ strip f s ++ w2
                /\ forallb f w1 = true /\ forallb f w2 = true.
Proof.
  unfold strip.
  destruct (dropWhile_split f s) as (w1 & H1 & F1).
  destruct (dropWhile_split f (rev (dropWhile f s))) as (w & H2 & F2).
  exists w1, (rev w). split; [| split; [assumption | now apply forallb_rev]].
  rewrite <- rev_app_distr, <- H2, rev_involutive. exact H1.
Qed.

End StringFacts.

(* ================================================================== *)
(** * Facts about JSON.parse *)
(* ================================================================== *)

Module JSONFacts.

Import JS JSON ServerTerms StringFacts.
Local Open Scope N_scope.

(** ** What a value ends with *)

Lemma consumes_app (x s r : jsstring) (c : N) :
  consumes s r c -> consumes (x ++ s) r c.
Proof. intros [pre ->]. exists (x ++ pre). now rewrite app_assoc. Qed.

Lemma consumes_cons (a : N) (s r : jsstring) (c : N) :
  consumes s r c -> consumes (a :: s) r c.
Proof. apply (consumes_app [a]). Qed.

Lemma consumes_skipWS (s r : jsstring) (c : N) :
  consumes (skipWS s) r c -> consumes s r c.
Proof.
  destruct (dropWhile_split isJSONWhiteSpace s) as (w & Hs & _).
  intros H. rewrite Hs. now apply consumes_app.
Qed.

Ltac boolean :=
  repeat match goal with
  | H : (_ && _)%bool = true |- _ => apply andb_true_iff in H; destruct H
  | H : (_ || _)%bool = false |- _ => apply orb_false_iff in H; destruct H
  | H : (_ =? _) = true |- _ => apply N.eqb_eq in H
  | H : (_ =? _) = false |- _ => apply N.eqb_neq in H
  | H : (_ <=? _) = true |- _ => apply N.leb_le in H
  | H : (_ <=? _) = false |- _ => apply N.leb_gt in H
  | H : (_ <? _) = true |- _ => apply N.ltb_lt in H
  | H : (_ <? _) = false |- _ => apply N.ltb_ge in H
  end.

Lemma isWhiteSpace_JSON (c : N) : isJSONWhiteSpace c = true -> isWhiteSpace c = true.
Proof.
  unfold isJSONWhiteSpace, isWhiteSpace. intros H.
  repeat (apply orb_true_iff in H; destruct H as [H | H]);
    apply N.eqb_eq in H; subst; reflexivity.
Qed.

Lemma solid_JSON (c : N) : isWhiteSpace c = false -> isJSONWhiteSpace c = false.
Proof.
  intros H. destruct (isJSONWhiteSpace c) eqn:E; [| reflexivity].
  apply isWhiteSpace_JSON in E. congruence.
Qed.

Lemma solid_between (lo hi c : N) :
  lo <= c <= hi -> 33 <= lo -> hi <= 159 -> isWhiteSpace c = false.
Proof.
  intros Hc Hlo Hhi. unfold isWhiteSpace.
  repeat (apply orb_false_iff; split);
    try (apply N.eqb_neq; lia).
  apply andb_false_iff. left. apply N.leb_gt. lia.
Qed.

Lemma solid_digit (c : N) : isDigit c = true -> isWhiteSpace c = false.
Proof.
  unfold isDigit. intros H. boolean. apply (solid_between 48 57); lia.
Qed.

Lemma lastUnit_solid (v : json) (c : N) : lastUnit v c -> isWhiteSpace c = false.
Proof.
  destruct v; cbn; intros H; subst; try reflexivity. now apply solid_digit.
Qed.

Lemma lastUnit_brace (v : json) : lastUnit v 125 -> exists members, v = JObject members.
Proof. destruct v; cbn; intros H; try discriminate. eauto. Qed.

(** ** Strings *)

Lemma parseChars_consumes (s acc str r : jsstring) :
  parseChars s acc = Some (str, r) -> consumes s r 34.
Proof.
  remember (length s) as n eqn:Hn. revert s acc Hn.
  induction n as [n IH] using lt_wf_ind. intros s acc Hn.
  destruct s as [| c s]; cbn [parseChars]; [discriminate |].
  destruct (c =? 34) eqn:Eq.
  { apply N.eqb_eq in Eq. subst c. intros [= _ <-]. now exists []. }
  destruct (c =? 92) eqn:Eb.
  - destruct s as [| e s]; [discriminate |].
    destruct (e =? 117).
    + destruct s as [| h1 [| h2 [| h3 [| h4 s]]]]; try discriminate.
      destruct (hex4 h1 h2 h3 h4); [| discriminate].
      intros H. apply IH with (m := length s) in H; [| cbn in Hn; lia | reflexivity].
      now apply (consumes_app [c; e; h1; h2; h3; h4]).
    + destruct (escape e); [| discriminate].
      intros H. apply IH with (m := length s) in H; [| cbn in Hn; lia | reflexivity].
      now apply (consumes_app [c; e]).
  - destruct (c <? 32); [discriminate |].
    intros H. apply IH with (m := length s) in H; [| cbn in Hn; lia | reflexivity].
    now apply consumes_cons.
Qed.

(** ** Numbers *)

Lemma digits_split (s ds r : jsstring) :
  digits s = (ds, r) -> s = ds ++ r /\ forallb isDigit ds = true.
Proof.
  revert ds r. induction s as [| c s IH]; intros ds r; cbn.
  - intros [= <- <-]. auto.
  - destruct (isDigit c) eqn:E.
    + destruct (digits s) as [ds' r'] eqn:Ed. intros [= <- <-].
      destruct (IH ds' r' eq_refl) as [-> Hall]. cbn. rewrite E, Hall. auto.
    + intros [= <- <-]. auto.
Qed.

Lemma run_endsInDigit (ds r : jsstring) :
  ds <> [] -> forallb isDigit ds = true -> endsInDigit (ds ++ r) r.
Proof.
  intros Hne Hall. destruct (exists_last Hne) as (pre & d & ->).
  rewrite forallb_app in Hall. cbn in Hall. boolean.
  exists d. split; [| assumption]. exists pre. now rewrite <- app_assoc.
Qed.

Lemma endsInDigit_app (x s r : jsstring) : endsInDigit s r -> endsInDigit (x ++ s) r.
Proof. intros (d & H & Hd). exists d. split; [now apply consumes_app | assumption]. Qed.

Lemma parseInt_consumes (s int r : jsstring) :
  parseInt s = Some (int, r) -> endsInDigit s r.
Proof.
  destruct s as [| c s]; cbn; [discriminate |].
  destruct (c =? 48) eqn:E0.
  - apply N.eqb_eq in E0. subst c. intros [= _ <-].
    exists 48. split; [now exists [] | reflexivity].
  - destruct (isDigit c) eqn:Ed; [| discriminate].
    destruct (digits s) as [ds r'] eqn:E. intros [= _ <-].
    apply digits_split in E as [-> Hall].
    apply (run_endsInDigit (c :: ds) r'); [discriminate |].
    cbn. now rewrite Ed, Hall.
Qed.

Lemma parseFrac_consumes (s frac r : jsstring) :
  parseFrac s = Some (frac, r) -> s = r \/ endsInDigit s r.
Proof.
  destruct s as [| c s]; cbn.
  - intros [= _ <-]. now left.
  - destruct (c =? 46).
    + destruct (digits s) as [[| d ds] r'] eqn:E; [discriminate |].
      intros [= _ <-]. right. apply digits_split in E as [-> Hall].
      apply (endsInDigit_app [c]). now apply run_endsInDigit.
    + intros [= _ <-]. now left.
Qed.

Lemma parseSign_split (s sg r : jsstring) :
  parseSign s = (sg, r) -> exists x, s = x ++ r.
Proof.
  unfold parseSign. destruct s as [| a s]; [intros [= _ <-]; now exists [] |].
  destruct ((a =? 43) || (a =? 45))%bool; intros [= _ <-];
    [now exists [a] | now exists []].
Qed.

Lemma parseExp_consumes (s exp r : jsstring) :
  parseExp s = Some (exp, r) -> s = r \/ endsInDigit s r.
Proof.
  destruct s as [| c s]; cbn.
  - intros [= _ <-]. now left.
  - destruct ((c =? 101) || (c =? 69))%bool.
    + destruct (parseSign s) as [sg r1] eqn:Es.
      apply parseSign_split in Es as [x ->].
      destruct (digits r1) as [[| d ds] r2] eqn:E; [discriminate |].
      intros [= _ <-]. right. apply digits_split in E as [-> Hall].
      apply (endsInDigit_app (c :: x)). now apply run_endsInDigit.
    + intros [= _ <-]. now left.
Qed.

Lemma unsigned_consumes (minus s0 token r : jsstring) :
  match parseInt s0 with
  | None => None
  | Some (int, s1) =>
    match parseFrac s1 with
    | None => None
    | Some (frac, s2) =>
      match parseExp s2 with
      | None => None
      | Some (exp, s3) => Some (minus ++ int ++ frac ++ exp, s3)
      end
    end
  end = Some (token, r) -> endsInDigit s0 r.
Proof.
  destruct (parseInt s0) as [[int s1] |] eqn:Ei; [| discriminate].
  destruct (parseFrac s1) as [[frac s2] |] eqn:Ef; [| discriminate].
  destruct (parseExp s2) as [[exp s3] |] eqn:Ee; [| discriminate].
  intros [= _ <-].
  apply parseInt_consumes in Ei. apply parseFrac_consumes in Ef.
  apply parseExp_consumes in Ee.
  assert (H2 : endsInDigit s0 s2).
  { destruct Ef as [<- | (d & [pre ->] & Hd)]; [assumption |].
    destruct Ei as (e & [pre' ->] & _).
    exists d. split; [| assumption]. exists (pre' ++ [e] ++ pre).
    now rewrite <- !app_assoc. }
  destruct Ee as [<- | (d & [pre ->] & Hd)]; [assumption |].
  destruct H2 as (e & [pre' ->] & _).
  exists d. split; [| assumption]. exists (pre' ++ [e] ++ pre).
  now rewrite <- !app_assoc.
Qed.

Lemma parseNumber_consumes (s token r : jsstring) :
  parseNumber s = Some (token, r) -> endsInDigit s r.
Proof.
  unfold parseNumber. destruct s as [| c s].
  - apply unsigned_consumes.
  - destruct (c =? 45).
    + intros H. apply unsigned_consumes in H. now apply (endsInDigit_app [c]).
    + apply unsigned_consumes.
Qed.

Lemma parseNumber_start (c : N) (s token r : jsstring) :
  parseNumber (c :: s) = Some (token, r) -> c = 45 \/ isDigit c = true.
Proof.
  unfold parseNumber. destruct (c =? 45) eqn:E; [apply N.eqb_eq in E; auto |].
  cbn [parseInt]. destruct (c =? 48) eqn:E0.
  - apply N.eqb_eq in E0. subst c. intros _. now right.
  - destruct (isDigit c); [intros _; now right | discriminate].
Qed.

(** ** Values *)

Lemma literal_consumes (s lit : jsstring) (c : N) (pre : jsstring) :
  lit = pre ++ [c] -> startsWith s lit = true ->
  consumes s (skipn (length lit) s) c.
Proof.
  intros -> H. apply startsWith_iff in H as [post ->].
  rewrite skipn_app, skipn_all, Nat.sub_diag. cbn.
  exists pre. now rewrite <- app_assoc.
Qed.

Lemma consumes_after (pre : jsstring) (a : N) (s r : jsstring) (c : N) :
  consumes s r c -> consumes (pre ++ a :: s) r c.
Proof.
  intros H. change (a :: s) with ([a] ++ s). rewrite app_assoc.
  now apply consumes_app.
Qed.

Lemma parse_consumes (fuel : nat) :
  (forall s v r, parseValue fuel s = Some (v, r) ->
     exists c, consumes s r c /\ lastUnit v c) /\
  (forall s acc v r, parseElements fuel s acc = Some (v, r) ->
     consumes s r 93 /\ lastUnit v 93) /\
  (forall s acc v r, parseMembers fuel s acc = Some (v, r) ->
     consumes s r 125 /\ lastUnit v 125).
Proof.
  induction fuel as [| fuel (IHv & IHe & IHm)].
  { repeat split; discriminate. }
  split; [| split].
  - intros s v r. cbn [parseValue].
    destruct (skipWS s) as [| c r0] eqn:Es; [discriminate |].
    intros H.
    enough (exists c', consumes (c :: r0) r c' /\ lastUnit v c') as (c' & Hc & Hl).
    { exists c'. split; [| assumption]. apply consumes_skipWS. now rewrite Es. }
    destruct (c =? 123).
    { assert (Hm : parseMembers fuel r0 [] = Some (v, r) ->
                   exists c', consumes (c :: r0) r c' /\ lastUnit v c').
      { intros Hm. apply IHm in Hm as [Hc Hl]. exists 125.
        split; [now apply consumes_cons | assumption]. }
      destruct (skipWS r0) as [| d r1] eqn:Er; [auto |].
      destruct (d =? 125) eqn:Ed; [| auto].
      apply N.eqb_eq in Ed. subst d. injection H as <- <-.
      exists 125. split; [| reflexivity].
      apply consumes_cons, consumes_skipWS. rewrite Er. now exists []. }
    destruct (c =? 91).
    { assert (He : parseElements fuel r0 [] = Some (v, r) ->
                   exists c', consumes (c :: r0) r c' /\ lastUnit v c').
      { intros He. apply IHe in He as [Hc Hl]. exists 93.
        split; [now apply consumes_cons | assumption]. }
      destruct (skipWS r0) as [| d r1] eqn:Er; [auto |].
      destruct (d =? 93) eqn:Ed; [| auto].
      apply N.eqb_eq in Ed. subst d. injection H as <- <-.
      exists 93. split; [| reflexivity].
      apply consumes_cons, consumes_skipWS. rewrite Er. now exists []. }
    destruct (c =? 34).
    { destruct (parseChars r0 []) as [[str r'] |] eqn:Ec; [| discriminate].
      injection H as <- <-. exists 34. split; [| reflexivity].
      apply consumes_cons. eapply parseChars_consumes. eassumption. }
    destruct (startsWith (c :: r0) (units "true")) eqn:Et.
    { injection H as <- <-. exists 101. split; [| reflexivity].
      apply (literal_consumes _ (units "true") 101 (units "tru") eq_refl Et). }
    destruct (startsWith (c :: r0) (units "false")) eqn:Ef.
    { injection H as <- <-. exists 101. split; [| reflexivity].
      apply (literal_consumes _ (units "false") 101 (units "fals") eq_refl Ef). }
    destruct (startsWith (c :: r0) (units "null")) eqn:En.
    { injection H as <- <-. exists 108. split; [| reflexivity].
      apply (literal_consumes _ (units "null") 108 (units "nul") eq_refl En). }
    destruct (parseNumber (c :: r0)) as [[token r'] |] eqn:Enum; [| discriminate].
    injection H as <- <-. apply parseNumber_consumes in Enum as (d & Hd & Hdig).
    exists d. split; assumption.
  - intros s acc v r. cbn [parseElements].
    destruct (parseValue fuel s) as [[v0 r0] |] eqn:Ev; [| discriminate].
    apply IHv in Ev as (c0 & [pre ->] & _).
    destruct (skipWS r0) as [| c r1] eqn:Er; [discriminate |].
    destruct (c =? 44).
    { intros H. apply IHe in H as [Hc Hl]. split; [| assumption].
      apply consumes_after, consumes_skipWS. rewrite Er.
      now apply consumes_cons. }
    destruct (c =? 93) eqn:Ec; [| discriminate].
    apply N.eqb_eq in Ec. subst c. intros [= <- <-]. split; [| reflexivity].
    apply consumes_after, consumes_skipWS. rewrite Er. now exists [].
  - intros s acc v r. cbn [parseMembers].
    destruct (skipWS s) as [| c r0] eqn:Es; [discriminate |].
    destruct (c =? 34); [| discriminate].
    destruct (parseChars r0 []) as [[key r1] |] eqn:Ek; [| discriminate].
    apply parseChars_consumes in Ek as [pre1 ->].
    destruct (skipWS r1) as [| c1 r2] eqn:E1; [discriminate |].
    destruct (c1 =? 58); [| discriminate].
    destruct (parseValue fuel r2) as [[v0 r3] |] eqn:Ev; [| discriminate].
    apply IHv in Ev as (c0 & [pre2 ->] & _).
    destruct (skipWS r3) as [| c3 r4] eqn:E3; [discriminate |].
    intros H.
    enough (consumes (c3 :: r4) r 125 /\ lastUnit v 125) as [Hc Hl].
    { split; [| assumption]. apply consumes_skipWS. rewrite Es.
      apply consumes_cons, consumes_after, consumes_skipWS. rewrite E1.
      apply consumes_cons, consumes_after, consumes_skipWS. now rewrite E3. }
    destruct (c3 =? 44).
    { apply IHm in H as [Hc Hl]. split; [now apply consumes_cons | assumption]. }
    destruct (c3 =? 125) eqn:Ec; [| discriminate].
    apply N.eqb_eq in Ec. subst c3. injection H as <- <-.
    split; [now exists [] | reflexivity].
Qed.

Lemma forallb_JSON (w : jsstring) :
  forallb isJSONWhiteSpace w = true -> forallb isWhiteSpace w = true.
Proof.
  rewrite !forallb_forall. intros H a Ha. apply isWhiteSpace_JSON. now apply H.
Qed.

Lemma startsWith_head (c d : N) (s p : jsstring) :
  startsWith (c :: s) (d :: p) = true -> c = d.
Proof.
  cbn [startsWith]. intros H. apply andb_true_iff in H as [H _].
  apply N.eqb_eq in H. now subst.
Qed.

(** A value starts with a code unit that is not white space. *)
Lemma parseValue_start (fuel : nat) (s : jsstring) (v : json) (r : jsstring) :
  parseValue fuel s = Some (v, r) ->
  exists c r0, skipWS s = c :: r0 /\ isWhiteSpace c = false.
Proof.
  destruct fuel as [| fuel]; [discriminate |]. cbn [parseValue].
  destruct (skipWS s) as [| c r0]; [discriminate |].
  intros H. exists c, r0. split; [reflexivity |].
  destruct (c =? 123) eqn:E1; [apply N.eqb_eq in E1; now subst |].
  destruct (c =? 91) eqn:E2; [apply N.eqb_eq in E2; now subst |].
  destruct (c =? 34) eqn:E3; [apply N.eqb_eq in E3; now subst |].
  destruct (startsWith (c :: r0) (units "true")) eqn:Et.
  { apply startsWith_head in Et. now subst. }
  destruct (startsWith (c :: r0) (units "false")) eqn:Ef.
  { apply startsWith_head in Ef. now subst. }
  destruct (startsWith (c :: r0) (units "null")) eqn:En.
  { apply startsWith_head in En. now subst. }
  destruct (parseNumber (c :: r0)) as [[token r'] |] eqn:Enum; [| discriminate].
  apply parseNumber_start in Enum as [-> | Hd]; [reflexivity | now apply solid_digit].
Qed.

(** What a successful [JSON.parse] says about the text: stripped of its
    JSON white space it is what [trim] leaves, it parses to the same
    value, and it ends in the last code unit of that value. *)
Lemma parse_trim (s : jsstring) (v : json) :
  parse s = Some v ->
  parse (trim s) = Some v /\ exists pre c, trim s = pre ++ [c] /\ lastUnit v c.
Proof.
  unfold parse. cbv zeta.
  set (core := strip isJSONWhiteSpace s).
  destruct (parseValue (fuelFor core) core) as [[v0 [| x r]] |] eqn:E; try discriminate.
  intros [= ->].
  destruct (proj1 (parse_consumes (fuelFor core)) _ _ _ E) as (c & [pre Hc] & Hl).
  destruct (parseValue_start _ _ _ _ E) as (c0 & r0 & Hs & Hc0).
  assert (Hcore : exists t, core = c0 :: t /\ isWhiteSpace c0 = false).
  { destruct core as [| h t] eqn:Ecore.
    - destruct pre; discriminate.
    - assert (Hh : isJSONWhiteSpace h = false) by (eapply strip_head; exact Ecore).
      unfold skipWS in Hs. rewrite dropWhile_keep in Hs by assumption.
      injection Hs as -> ->. eauto. }
  destruct Hcore as (t & Ht & _).
  pose proof (lastUnit_solid _ _ Hl) as Hsolid.
  assert (Htrim : trim s = core).
  { destruct (strip_decompose isJSONWhiteSpace s) as (w1 & w2 & Hs' & F1 & F2).
    fold core in Hs'. unfold trim. rewrite Hs'.
    rewrite strip_pad by now apply forallb_JSON.
    now apply (strip_fixed _ _ c0 c t pre). }
  rewrite Htrim. split; [| now exists pre, c].
  replace (strip isJSONWhiteSpace core) with core.
  - now rewrite E.
  - symmetry. apply (strip_fixed _ _ c0 c t pre); auto using solid_JSON.
Qed.

(** A text that parses to an object ends, once trimmed, in a closing
    brace; and a text that ends so and parses at all is an object. *)
Lemma parse_object_closes (s : jsstring) (members : list (jsstring * json)) :
  parse s = Some (JObject members) -> endsWith (trim s) [125] = true.
Proof.
  intros H. apply parse_trim in H as (_ & pre & c & -> & Hl).
  cbn in Hl. subst c. apply endsWith_snoc.
Qed.

Lemma parse_closing_object (s : jsstring) (v : json) :
  endsWith (trim s) [125] = true -> parse s = Some v ->
  exists members, v = JObject members.
Proof.
  intros He H. apply parse_trim in H as (_ & pre & c & Ht & Hl).
  apply endsWith_unit in He as [pre' He]. rewrite He in Ht.
  apply app_inj_tail in Ht as [_ <-]. now apply lastUnit_brace.
Qed.

Lemma parse_empty : parse [] = None.
Proof. reflexivity. Qed.

(** ** Fuel *)

Lemma consumes_length (s r : jsstring) (c : N) :
  consumes s r c -> (length r < length s)%nat.
Proof. intros [pre ->]. rewrite length_app. cbn. lia. Qed.

Lemma skipWS_length (s : jsstring) : (length (skipWS s) <= length s)%nat.
Proof. apply dropWhile_length. Qed.

(** A parse that succeeds with some fuel succeeds, with the same result,
    with any fuel that is at least twice the number of code units read
    (one more for the elements of an array and the members of an
    object). *)
Lemma parse_fuel (fuel : nat) :
  (forall s v r, parseValue fuel s = Some (v, r) ->
     forall fuel', (2 * (length s - length r) <= fuel')%nat ->
       parseValue fuel' s = Some (v, r)) /\
  (forall s acc v r, parseElements fuel s acc = Some (v, r) ->
     forall fuel', (2 * (length s - length r) + 1 <= fuel')%nat ->
       parseElements fuel' s acc = Some (v, r)) /\
  (forall s acc v r, parseMembers fuel s acc = Some (v, r) ->
     forall fuel', (2 * (length s - length r) + 1 <= fuel')%nat ->
       parseMembers fuel' s acc = Some (v, r)).
Proof.
  induction fuel as [| fuel (IHv & IHe & IHm)].
  { repeat split; discriminate. }
  split; [| split].
  - intros s v r H fuel' Hfuel.
    pose proof (proj1 (parse_consumes (S fuel)) _ _ _ H) as (c' & Hc' & _).
    apply consumes_length in Hc'.
    destruct fuel' as [| fuel']; [lia |].
    revert H. cbn [parseValue].
    pose proof (skipWS_length s) as Hws.
    destruct (skipWS s) as [| c r0] eqn:Es; [discriminate |]. cbn [length] in Hws.
    destruct (c =? 123).
    { assert (Hm : parseMembers fuel r0 [] = Some (v, r) ->
                   parseMembers fuel' r0 [] = Some (v, r)).
      { intros Hm. apply (IHm _ _ _ _ Hm).
        apply (proj2 (proj2 (parse_consumes fuel))) in Hm as [Hm _].
        apply consumes_length in Hm. lia. }
      destruct (skipWS r0) as [| d r1]; [exact Hm |].
      destruct (d =? 125); [auto | exact Hm]. }
    destruct (c =? 91).
    { assert (He : parseElements fuel r0 [] = Some (v, r) ->
                   parseElements fuel' r0 [] = Some (v, r)).
      { intros He. apply (IHe _ _ _ _ He).
        apply (proj1 (proj2 (parse_consumes fuel))) in He as [He _].
        apply consumes_length in He. lia. }
      destruct (skipWS r0) as [| d r1]; [exact He |].
      destruct (d =? 93); [auto | exact He]. }
    auto.
  - intros s acc v r H fuel' Hfuel.
    pose proof (proj1 (proj2 (parse_consumes (S fuel))) _ _ _ _ H) as [Hc' _].
    apply consumes_length in Hc'.
    destruct fuel' as [| fuel']; [lia |].
    revert H. cbn [parseElements].
    destruct (parseValue fuel s) as [[v0 r0] |] eqn:Ev; [| discriminate].
    pose proof (proj1 (parse_consumes fuel) _ _ _ Ev) as (c0 & Hc0 & _).
    apply consumes_length in Hc0.
    pose proof (skipWS_length r0) as Hws.
    destruct (skipWS r0) as [| c r1] eqn:Er; [discriminate |]. cbn [length] in Hws.
    destruct (c =? 44) eqn:Ecomma.
    + intros H.
      pose proof (proj1 (proj2 (parse_consumes fuel)) _ _ _ _ H) as [Hc1 _].
      apply consumes_length in Hc1.
      rewrite (IHv _ _ _ Ev fuel') by lia. rewrite Er, Ecomma.
      apply (IHe _ _ _ _ H). lia.
    + intros H. rewrite (IHv _ _ _ Ev fuel'), Er, Ecomma; [exact H |].
      destruct (c =? 93); [| discriminate]. injection H as _ <-. lia.
  - intros s acc v r H fuel' Hfuel.
    pose proof (proj2 (proj2 (parse_consumes (S fuel))) _ _ _ _ H) as [Hc' _].
    apply consumes_length in Hc'.
    destruct fuel' as [| fuel']; [lia |].
    revert H. cbn [parseMembers].
    pose proof (skipWS_length s) as Hws.
    destruct (skipWS s) as [| c r0] eqn:Es; [discriminate |]. cbn [length] in Hws.
    destruct (c =? 34); [| discriminate].
    destruct (parseChars r0 []) as [[key r1] |] eqn:Ek; [| discriminate].
    apply parseChars_consumes, consumes_length in Ek.
    pose proof (skipWS_length r1) as Hws1.
    destruct (skipWS r1) as [| c1 r2] eqn:E1; [discriminate |]. cbn [length] in Hws1.
    destruct (c1 =? 58); [| discriminate].
    destruct (parseValue fuel r2) as [[v0 r3] |] eqn:Ev; [| discriminate].
    pose proof (proj1 (parse_consumes fuel) _ _ _ Ev) as (c0 & Hc0 & _).
    apply consumes_length in Hc0.
    pose proof (skipWS_length r3) as Hws3.
    destruct (skipWS r3) as [| c3 r4] eqn:E3; [discriminate |]. cbn [length] in Hws3.
    destruct (c3 =? 44) eqn:Ecomma.
    + intros H.
      pose proof (proj2 (proj2 (parse_consumes fuel)) _ _ _ _ H) as [Hc1 _].
      apply consumes_length in Hc1.
      rewrite (IHv _ _ _ Ev fuel') by lia. rewrite E3, Ecomma.
      apply (IHm _ _ _ _ H). lia.
    + intros H. rewrite (IHv _ _ _ Ev fuel'), E3, Ecomma; [exact H |].
      destruct (c3 =? 125); [| discriminate]. injection H as _ <-. lia.
Qed.

(** The fuel [parse] gives is enough: whatever some fuel parses, it
    parses. *)
Lemma parse_any_fuel (text : jsstring) (v : json) :
  parse text = Some v <->
  exists fuel, parseValue fuel (strip isJSONWhiteSpace text) = Some (v, []).
Proof.
  unfold parse. cbv zeta. set (core := strip isJSONWhiteSpace text). split.
  - destruct (parseValue (fuelFor core) core) as [[v0 [| x r]] |] eqn:E; try discriminate.
    intros [= ->]. now exists (fuelFor core).
  - intros [fuel H].
    rewrite (proj1 (parse_fuel fuel) _ _ _ H (fuelFor core)); [reflexivity |].
    unfold fuelFor. cbn [length]. lia.
Qed.

End JSONFacts.

(* ================================================================== *)
(** * Properties of the framer and the relay *)
(* ================================================================== *)

Module ServerSpec.

Import JS JSON Server ServerTerms StringFacts JSONFacts.

(** ** The loop shrinks the buffer and ends *)

Lemma tryParseAndSend_buffer (jsonStr : jsstring) (st : server) :
  buffer (tryParseAndSend jsonStr st) = buffer st.
Proof.
  unfold tryParseAndSend. cbv zeta.
  destruct (negb (truthy (trim jsonStr))); [reflexivity |].
  destruct (parse (trim jsonStr)); reflexivity.
Qed.

Lemma boundary_found (b : jsstring) :
  hasBoundary b = true ->
  exists (i : nat) (sep : jsstring),
    splitPoint b = Z.of_nat (S i) /\ firstAt b sep i /\
    (sep = newlineBoundary
     \/ (sep = bareBoundary /\ forall j, ~ occursAt b newlineBoundary j)).
Proof.
  unfold hasBoundary, splitPoint.
  destruct (indexOf b newlineBoundary =? -1)%Z eqn:E1; cbn [negb orb].
  - intros E2. apply negb_true_iff in E2.
    apply indexOf_found in E2 as (i & Hs & Hi).
    apply indexOf_missing in E1 as [Hnone _].
    exists i, bareBoundary. rewrite Hi. split; [lia |].
    split; [now apply search_Some |]. right. split; [reflexivity |].
    now apply search_None.
  - intros _. apply indexOf_found in E1 as (i & Hs & Hi).
    exists i, newlineBoundary. rewrite Hi. split; [lia |].
    split; [now apply search_Some | now left].
Qed.

Lemma no_boundary (b : jsstring) :
  hasBoundary b = false ->
  indexOf b newlineBoundary = (-1)%Z /\ indexOf b bareBoundary = (-1)%Z.
Proof.
  unfold hasBoundary. intros H. apply orb_false_iff in H as [H1 H2].
  apply negb_false_iff in H1, H2. apply Z.eqb_eq in H1, H2. auto.
Qed.

(** The condition of the loop holds exactly when one of the two
    separators occurs somewhere in the buffer. *)
Lemma hasBoundary_iff (b : jsstring) :
  hasBoundary b = true <->
  exists sep i, (sep = newlineBoundary \/ sep = bareBoundary) /\ occursAt b sep i.
Proof.
  split.
  - intros H. destruct (boundary_found b H) as (i & sep & _ & [Hocc _] & Hsep).
    exists sep, i. split; [tauto | assumption].
  - intros (sep & i & Hsep & Hocc).
    assert (Hfound : (indexOf b sep =? -1)%Z = false).
    { unfold indexOf. destruct (search b sep) as [k |] eqn:E.
      - apply Z.eqb_neq. lia.
      - exfalso. exact (search_None _ _ E i Hocc). }
    unfold hasBoundary. destruct Hsep as [-> | ->]; rewrite Hfound; cbn.
    + reflexivity.
    + apply orb_true_r.
Qed.

Lemma no_boundary_anywhere (b : jsstring) :
  hasBoundary b = false ->
  forall sep i, sep = newlineBoundary \/ sep = bareBoundary -> ~ occursAt b sep i.
Proof.
  intros H sep i Hsep Hocc.
  assert (Ht : hasBoundary b = true) by (apply hasBoundary_iff; eauto).
  congruence.
Qed.

Lemma cut_at (pre : jsstring) (c : N) (post : jsstring) :
  firstn (S (length pre)) (pre ++ c :: post) = pre ++ [c]
  /\ skipn (S (length pre)) (pre ++ c :: post) = post.
Proof.
  change (c :: post) with ([c] ++ post). rewrite app_assoc.
  replace (S (length pre)) with (length (pre ++ [c]))
    by (rewrite length_app; cbn; lia).
  split.
  - now rewrite firstn_app, Nat.sub_diag, firstn_all, app_nil_r.
  - now rewrite skipn_app, Nat.sub_diag, skipn_all.
Qed.

(** One iteration, spelled out on the text around the boundary. *)
Lemma splitOnce_spec (st : server) :
  hasBoundary (buffer st) = true ->
  exists (i : nat) (sep : jsstring),
    firstAt (buffer st) sep i /\
    (sep = newlineBoundary
     \/ (sep = bareBoundary /\ forall j, ~ occursAt (buffer st) newlineBoundary j)) /\
    exists pre post,
      buffer st = pre ++ [125%N] ++ post /\ length pre = i /\
      endsWith (trim (pre ++ [125%N])) [125%N] = true /\
      (exists rest, trim post = 123%N :: rest) /\
      splitOnce st = tryParseAndSend (trim (pre ++ [125%N])) (withBuffer (trim post) st).
Proof.
  intros H. destruct (boundary_found _ H) as (i & sep & Hsp & Hfirst & Hsep).
  exists i, sep. split; [assumption |]. split; [assumption |].
  destruct Hfirst as [(pre & post0 & Hb & Hlen) _].
  assert (Hpost : exists post, sep ++ post0 = [125%N] ++ post
                               /\ exists rest, trim post = 123%N :: rest).
  { destruct Hsep as [-> | [-> _]].
    - exists ([10%N] ++ (123%N :: post0) ++ []). split.
      + now rewrite app_nil_r.
      + unfold trim. rewrite strip_pad by reflexivity.
        now apply strip_begins.
    - exists (123%N :: post0). split; [reflexivity |].
      now apply strip_begins. }
  destruct Hpost as (post & Hpost & Hrest).
  rewrite Hpost in Hb. exists pre, post.
  split; [assumption |]. split; [assumption |].
  split; [unfold trim; rewrite strip_ends by reflexivity; apply endsWith_snoc |].
  split; [assumption |].
  unfold splitOnce. cbv zeta. rewrite Hsp, slice_prefix, slice_suffix.
  rewrite Hb, <- Hlen. cbn [app].
  destruct (cut_at pre 125%N post) as [-> ->]. reflexivity.
Qed.

Lemma splitOnce_shrinks (st : server) :
  hasBoundary (buffer st) = true ->
  (length (buffer (splitOnce st)) < length (buffer st))%nat.
Proof.
  intros H. destruct (splitOnce_spec st H)
    as (i & sep & _ & _ & pre & post & Hb & _ & _ & _ & ->).
  rewrite tryParseAndSend_buffer. cbn [buffer withBuffer].
  rewrite Hb, !length_app. cbn [length].
  pose proof (strip_length isWhiteSpace post). unfold trim. lia.
Qed.

Lemma drain_exits (fuel : nat) (st : server) :
  (length (buffer st) <= fuel)%nat -> hasBoundary (buffer (drain fuel st)) = false.
Proof.
  revert st. induction fuel as [| fuel IH]; intros st Hlen; cbn [drain].
  - destruct (buffer st); [reflexivity | cbn in Hlen; lia].
  - destruct (hasBoundary (buffer st)) eqn:E; [| exact E].
    apply IH. pose proof (splitOnce_shrinks st E). lia.
Qed.

Lemma afterLoop_exits (st : server) (chunk : jsstring) :
  hasBoundary (buffer (afterLoop st chunk)) = false.
Proof. apply drain_exits. unfold drainFuel. lia. Qed.

(** More fuel changes nothing once the loop has ended. *)
Lemma drain_more (fuel extra : nat) (st : server) :
  (length (buffer st) <= fuel)%nat -> drain (fuel + extra) st = drain fuel st.
Proof.
  revert st. induction fuel as [| fuel IH]; intros st Hlen.
  - destruct extra; [reflexivity |]. cbn.
    destruct (buffer st) eqn:E; [reflexivity | cbn in Hlen; lia].
  - cbn [drain Nat.add]. destruct (hasBoundary (buffer st)) eqn:E; [| reflexivity].
    apply IH. pose proof (splitOnce_shrinks st E). lia.
Qed.

(** ** The split position *)

(** C5, as the code has it.  While the buffer holds a boundary, that is
    an occurrence of the newline form or of the bare form, the loop goes
    on and the framer splits right after the closing brace of the first
    occurrence of the newline form whenever the buffer holds that form
    anywhere, and otherwise right after the closing brace of the first
    occurrence of the bare form; the left part, trimmed, ends in a
    closing brace and is the parse candidate, the right part, trimmed,
    begins with an opening brace and is the new buffer.  Two records in
    one chunk with nothing between them come out as two records, in
    order. *)
Theorem C5_split_position :
  (forall st : server,
     (exists sep i, (sep = newlineBoundary \/ sep = bareBoundary)
                    /\ occursAt (buffer st) sep i) ->
     hasBoundary (buffer st) = true /\
     exists (i : nat) (sep : jsstring),
       firstAt (buffer st) sep i /\
       (sep = newlineBoundary
        \/ (sep = bareBoundary /\ forall j, ~ occursAt (buffer st) newlineBoundary j)) /\
       exists pre post,
         buffer st = pre ++ [125%N] ++ post /\ length pre = i /\
         endsWith (trim (pre ++ [125%N])) [125%N] = true /\
         (exists rest, trim post = 123%N :: rest) /\
         splitOnce st
         = tryParseAndSend (trim (pre ++ [125%N])) (withBuffer (trim post) st)) /\
  feed [quoted "{'a':1}{'b':2}"]
  = [JObject [(units "a", JNumber (units "1"))];
     JObject [(units "b", JNumber (units "2"))]].
Proof.
  split; [| reflexivity].
  intros st Hocc. apply hasBoundary_iff in Hocc.
  split; [exact Hocc | now apply splitOnce_spec].
Qed.

Lemma C5_split_position_witness :
  let st := mkServer (quoted "{'a':1}{'b':2}") [] [] in
  (exists sep i, (sep = newlineBoundary \/ sep = bareBoundary)
                 /\ occursAt (buffer st) sep i) /\
  hasBoundary (buffer st) = true /\
  exists (i : nat) (sep : jsstring),
    firstAt (buffer st) sep i /\
    (sep = newlineBoundary
     \/ (sep = bareBoundary /\ forall j, ~ occursAt (buffer st) newlineBoundary j)) /\
    exists pre post,
      buffer st = pre ++ [125%N] ++ post /\ length pre = i /\
      endsWith (trim (pre ++ [125%N])) [125%N] = true /\
      (exists rest, trim post = 123%N :: rest) /\
      splitOnce st
      = tryParseAndSend (trim (pre ++ [125%N])) (withBuffer (trim post) st).
Proof.
  intros st.
  assert (H : exists sep i, (sep = newlineBoundary \/ sep = bareBoundary)
                            /\ occursAt (buffer st) sep i).
  { exists bareBoundary, 6%nat. split; [now right |].
    exists (quoted "{'a':1"), (quoted "'b':2}"). split; reflexivity. }
  split; [exact H |]. exact (proj1 C5_split_position st H).
Defined.

(** C5 as the design document words it fails.  In the buffer
    [{"a":1}{"b":2}], a line feed, [{"c":3}] the bare form comes first,
    at position 6, and the newline form second, at position 13.  The
    first occurrence of either asks for a split at 7; the code splits at
    14, the left part [{"a":1}{"b":2}] does not parse, and only the
    third record is emitted. *)
Lemma C5_counterexample :
  let b := quoted "{'a':1}{'b':2}" ++ [10%N] ++ quoted "{'c':3}" in
  indexOf b bareBoundary = 6%Z /\
  indexOf b newlineBoundary = 13%Z /\
  earliestBoundary b = 6%Z /\
  splitPoint b = 14%Z /\
  splitPoint b <> (earliestBoundary b + 1)%Z /\
  feed [b] = [JObject [(units "c", JNumber (units "3"))]].
Proof.
  vm_compute. repeat split; discriminate.
Qed.

(** ** The retained buffer *)

Lemma onData_unfold (st : server) (chunk : jsstring) :
  onData st chunk =
  let mid := afterLoop st chunk in
  if endsWith (trim (buffer mid)) closingBrace then
    match parse (buffer mid) with
    | Some _ => withBuffer [] (tryParseAndSend (buffer mid) mid)
    | None => mid
    end
  else mid.
Proof. reflexivity. Qed.

Lemma tryParseAndSend_emits (jsonStr : jsstring) (st : server) (data : json) :
  parse (trim jsonStr) = Some data ->
  tryParseAndSend jsonStr st =
  {| buffer := buffer st;
     clients := broadcast data (clients st);
     emitted := emitted st ++ [data] |}.
Proof.
  intros H. unfold tryParseAndSend. cbv zeta.
  destruct (trim jsonStr) as [| c r] eqn:E; [rewrite parse_empty in H; discriminate |].
  cbn [truthy negb]. now rewrite H.
Qed.

(** C9, as the code has it.  When the handler has processed a chunk the
    retained buffer holds neither boundary and does not itself parse as
    a record.  The loop ends with no boundary left; if the buffer it
    leaves parses, as it stands, as one complete record, that record is
    emitted and broadcast and the buffer is cleared; otherwise the state
    the loop leaves is kept as it is. *)
Theorem C9_buffer_invariant (st : server) (chunk : jsstring) :
  let mid := afterLoop st chunk in
  let st' := onData st chunk in
  indexOf (buffer st') newlineBoundary = (-1)%Z /\
  indexOf (buffer st') bareBoundary = (-1)%Z /\
  (forall sep i, sep = newlineBoundary \/ sep = bareBoundary ->
     ~ occursAt (buffer st') sep i) /\
  ~ isRecord (buffer st') /\
  hasBoundary (buffer mid) = false /\
  (forall members, parse (buffer mid) = Some (JObject members) ->
     buffer st' = [] /\
     emitted st' = emitted mid ++ [JObject members] /\
     clients st' = broadcast (JObject members) (clients mid)) /\
  (~ isRecord (buffer mid) -> st' = mid).
Proof.
  intros mid st'.
  assert (Hrec : forall members, parse (buffer mid) = Some (JObject members) ->
                 st' = withBuffer [] {| buffer := buffer mid;
                                        clients := broadcast (JObject members) (clients mid);
                                        emitted := emitted mid ++ [JObject members] |}).
  { intros members H. subst st'. rewrite onData_unfold. cbv zeta. fold mid.
    unfold closingBrace. rewrite (parse_object_closes _ _ H), H.
    now rewrite (tryParseAndSend_emits _ _ _ (proj1 (parse_trim _ _ H))). }
  assert (Hkeep : ~ isRecord (buffer mid) -> st' = mid).
  { intros Hno. subst st'. rewrite onData_unfold. cbv zeta. fold mid.
    destruct (endsWith (trim (buffer mid)) closingBrace) eqn:Eclose; [| reflexivity].
    destruct (parse (buffer mid)) as [v |] eqn:Eparse; [| reflexivity].
    destruct (parse_closing_object _ _ Eclose Eparse) as [members ->].
    exfalso. apply Hno. now exists members. }
  assert (Hcases : isRecord (buffer mid) \/ ~ isRecord (buffer mid)).
  { unfold isRecord. destruct (parse (buffer mid)) as [[| | | | | members] |];
      try (right; intros [m H]; discriminate). left. now exists members. }
  assert (Hclean : hasBoundary (buffer st') = false /\ ~ isRecord (buffer st')).
  { destruct Hcases as [[members H] | Hno].
    - rewrite (Hrec members H). cbn. split; [reflexivity |].
      intros [m Hm]. rewrite parse_empty in Hm. discriminate.
    - rewrite (Hkeep Hno). split; [apply afterLoop_exits | assumption]. }
  destruct Hclean as [Hb Hr].
  pose proof (no_boundary_anywhere _ Hb) as Hnone.
  apply no_boundary in Hb as [H1 H2].
  pose proof (afterLoop_exits st chunk) as Hexit. fold mid in Hexit.
  repeat split; try assumption; rewrite (Hrec members H); reflexivity.
Qed.

Lemma C9_buffer_invariant_witness :
  let chunk := quoted "{'a':1}" in
  let record := JObject [(units "a", JNumber (units "1"))] in
  parse (buffer (afterLoop start chunk)) = Some record /\
  buffer (onData start chunk) = [] /\
  emitted (onData start chunk) = emitted (afterLoop start chunk) ++ [record] /\
  clients (onData start chunk) = broadcast record (clients (afterLoop start chunk)).
Proof.
  intros chunk record.
  assert (H : parse (buffer (afterLoop start chunk)) = Some record) by reflexivity.
  split; [exact H |].
  destruct (C9_buffer_invariant start chunk) as (_ & _ & _ & _ & _ & Hrec & _).
  exact (Hrec _ H).
Defined.

(** C9 as the design document words it fails.  A chunk made of a byte
    order mark (U+FEFF) and [{}]: the loop leaves it in the buffer;
    trimmed, that buffer is [{}] and parses as one complete record, but
    [JSON.parse] is given the buffer as it stands and rejects the mark,
    so nothing is emitted and the buffer is kept. *)
Lemma C9_counterexample :
  let chunk := 65279%N :: quoted "{}" in
  buffer (afterLoop start chunk) = chunk /\
  parse (trim (buffer (afterLoop start chunk))) = Some (JObject []) /\
  emitted (onData start chunk) = [] /\
  buffer (onData start chunk) = chunk /\
  parse (trim (buffer (onData start chunk))) = Some (JObject []).
Proof.
  vm_compute. repeat split.
Qed.

(** ** Chunk boundaries *)

(** C6 fails on the two sensor records of the design document.  In one
    chunk they come out as they are.  Cut the same text right after the
    space of ["Pseudo Gyro"]: the first chunk holds the boundary, the
    loop keeps the trimmed rest, the space at its end is lost, and the
    second record comes out under the key ["PseudoGyro"]. *)
Lemma C6_chunk_split_changes_record :
  let whole := motionAccel ++ [10%N] ++ pseudoGyro in
  let chunk1 := motionAccel ++ [10%N] ++ quoted "{'Pseudo " in
  let chunk2 := quoted "Gyro':{'values':[0.1,0.2,0.3]}}" in
  chunk1 ++ chunk2 = whole /\
  feed [whole]
  = [JObject [(units "Motion Accel", values [units "1"; units "2"; units "3"])];
     JObject [(units "Pseudo Gyro", values [units "0.1"; units "0.2"; units "0.3"])]] /\
  feed [chunk1; chunk2]
  = [JObject [(units "Motion Accel", values [units "1"; units "2"; units "3"])];
     JObject [(units "PseudoGyro", values [units "0.1"; units "0.2"; units "0.3"])]] /\
  feed [chunk1; chunk2] <> feed [whole].
Proof.
  vm_compute. repeat split. discriminate.
Qed.

Ltac each_of_list :=
  repeat match goal with
  | |- Forall _ [] => apply Forall_nil
  | |- Forall _ (_ :: _) => apply Forall_cons
  end.

(** Wherever the text read so far ends, the next chunk leads to the
    state that one chunk with both would have led to. *)
Lemma twoBare_closed :
  Forall (fun k =>
    Forall (fun j =>
      onData (afterPrefix twoBare k) (firstn j (skipn k twoBare))
      = afterPrefix twoBare (k + j))
    (seq 0 (15 - k)))
  (seq 0 15).
Proof.
  cbn [seq Nat.sub]. each_of_list; cbn [seq Nat.sub]; each_of_list;
    vm_compute; reflexivity.
Qed.

Lemma twoBare_step (k j : nat) :
  (k + j <= 14)%nat ->
  onData (afterPrefix twoBare k) (firstn j (skipn k twoBare))
  = afterPrefix twoBare (k + j).
Proof.
  intros H. pose proof twoBare_closed as Hall.
  rewrite Forall_forall in Hall. specialize (Hall k).
  rewrite Forall_forall in Hall. apply Hall; apply in_seq; lia.
Qed.

Lemma twoBare_chunks (chunks : list jsstring) (k : nat) :
  concat chunks = skipn k twoBare -> (k <= 14)%nat ->
  serve (map Data chunks) (afterPrefix twoBare k) = afterPrefix twoBare 14.
Proof.
  revert k. induction chunks as [| c chunks IH]; intros k Hcat Hk.
  - cbn [concat] in Hcat. assert (k = 14)%nat as ->; [| reflexivity].
    assert (Hlen : length (skipn k twoBare) = O) by now rewrite <- Hcat.
    rewrite length_skipn in Hlen. change (length twoBare) with 14%nat in Hlen. lia.
  - cbn [concat] in Hcat. cbn [map serve fold_left handle].
    assert (Hlen : (length c + length (concat chunks) = 14 - k)%nat).
    { rewrite <- length_app, Hcat, length_skipn. reflexivity. }
    assert (Hc : c = firstn (length c) (skipn k twoBare)).
    { rewrite <- Hcat, firstn_app, Nat.sub_diag, firstn_all. cbn. now rewrite app_nil_r. }
    rewrite Hc at 1. rewrite twoBare_step by lia.
    apply IH; [| lia].
    rewrite <- (Nat.add_comm (length c)), <- skipn_skipn, <- Hcat.
    now rewrite skipn_app, skipn_all, Nat.sub_diag.
Qed.

(** However the text [{"a":1}{"b":2}] is cut into chunks, empty ones
    included, the framer emits what it emits for the text in one chunk:
    the two records, in order. *)
Theorem two_bare_records_any_chunking (chunks : list jsstring) :
  concat chunks = twoBare ->
  feed chunks = feed [twoBare]
  /\ feed chunks = [JObject [(units "a", JNumber (units "1"))];
                    JObject [(units "b", JNumber (units "2"))]].
Proof.
  intros H. unfold feed.
  change start with (afterPrefix twoBare 0).
  rewrite (twoBare_chunks chunks 0 H) by lia. split; reflexivity.
Qed.

Lemma two_bare_records_any_chunking_witness :
  let chunks := [quoted "{'a':"; quoted "1}{"; []; quoted "'b':2}"] in
  concat chunks = twoBare /\
  feed chunks = feed [twoBare] /\
  feed chunks = [JObject [(units "a", JNumber (units "1"))];
                 JObject [(units "b", JNumber (units "2"))]].
Proof.
  intros chunks.
  assert (H : concat chunks = twoBare) by reflexivity.
  split; [exact H |]. exact (two_bare_records_any_chunking chunks H).
Defined.

(** ** Fan-out *)

Lemma subsequence_nil_l {A : Type} (m : list A) : subsequence [] m.
Proof.
  induction m as [| x m IH]; [apply subsequence_nil | now apply subsequence_skip].
Qed.

Lemma subsequence_snoc_r {A : Type} (l m : list A) (x : A) :
  subsequence l m -> subsequence l (m ++ [x]).
Proof.
  induction 1; cbn.
  - apply subsequence_nil_l.
  - now apply subsequence_skip.
  - now apply subsequence_keep.
Qed.

Lemma subsequence_snoc {A : Type} (l m : list A) (x : A) :
  subsequence l m -> subsequence (l ++ [x]) (m ++ [x]).
Proof.
  induction 1; cbn.
  - apply subsequence_keep, subsequence_nil.
  - now apply subsequence_skip.
  - now apply subsequence_keep.
Qed.

(** What the broadcast loop does to the client at each position. *)
Lemma broadcast_nth (msg : json) (cs : list client) (n : nat) (c : client) :
  nth_error cs n = Some c ->
  exists c', nth_error (broadcast msg cs) n = Some c'
             /\ sid c' = sid c /\ readyState c' = readyState c
             /\ inbox c' = if isOpen (readyState c) then inbox c ++ [msg] else inbox c.
Proof.
  intros H. unfold broadcast. rewrite nth_error_map, H. cbn.
  eexists. split; [reflexivity |]. destruct (isOpen (readyState c)); auto.
Qed.

Lemma broadcast_In (msg : json) (cs : list client) (c' : client) :
  In c' (broadcast msg cs) ->
  exists c, In c cs /\ sid c' = sid c
            /\ (inbox c' = inbox c ++ [msg] \/ inbox c' = inbox c).
Proof.
  unfold broadcast. rewrite in_map_iff. intros (c & <- & Hin).
  exists c. split; [assumption |]. destruct (isOpen (readyState c)); cbn; auto.
Qed.

Lemma lateOnly_withBuffer (n0 id : nat) (b : jsstring) (st : server) :
  lateOnly n0 id st -> lateOnly n0 id (withBuffer b st).
Proof. exact (fun H => H). Qed.

Lemma lateOnly_tryParseAndSend (n0 id : nat) (jsonStr : jsstring) (st : server) :
  lateOnly n0 id st -> lateOnly n0 id (tryParseAndSend jsonStr st).
Proof.
  intros [Hlen Hin]. unfold tryParseAndSend. cbv zeta.
  destruct (negb (truthy (trim jsonStr))); [now split |].
  destruct (parse (trim jsonStr)) as [data |]; [| now split].
  split; cbn [emitted clients].
  - rewrite length_app. lia.
  - intros c' Hc' Hid. apply broadcast_In in Hc' as (c & Hc & Hsid & Hbox).
    destruct (Hin c Hc) as (l & Hl & Hsub); [congruence |].
    rewrite skipn_app. replace (n0 - length (emitted st))%nat with O by lia.
    cbn [skipn]. destruct Hbox as [-> | ->]; rewrite Hl.
    + exists (l ++ [data]). split; [reflexivity | now apply subsequence_snoc].
    + exists l. split; [reflexivity | now apply subsequence_snoc_r].
Qed.

Lemma lateOnly_drain (n0 id fuel : nat) (st : server) :
  lateOnly n0 id st -> lateOnly n0 id (drain fuel st).
Proof.
  revert st. induction fuel as [| fuel IH]; intros st H; cbn [drain]; [assumption |].
  destruct (hasBoundary (buffer st)); [| assumption].
  apply IH. unfold splitOnce. cbv zeta.
  now apply lateOnly_tryParseAndSend, lateOnly_withBuffer.
Qed.

Lemma lateOnly_onData (n0 id : nat) (st : server) (chunk : jsstring) :
  lateOnly n0 id st -> lateOnly n0 id (onData st chunk).
Proof.
  intros H. rewrite onData_unfold. cbv zeta.
  assert (Hmid : lateOnly n0 id (afterLoop st chunk))
    by now apply lateOnly_drain, lateOnly_withBuffer.
  destruct (endsWith _ _); [| assumption].
  destruct (parse _); [| assumption].
  now apply lateOnly_withBuffer, lateOnly_tryParseAndSend.
Qed.

Lemma lateOnly_handle (n0 id : nat) (st : server) (e : event) :
  lateOnly n0 id st -> lateOnly n0 id (handle st e).
Proof.
  intros H. destruct e as [id' | id' rs | id' | chunk]; cbn [handle].
  - destruct H as [Hlen Hin]. split; [assumption |]. cbn [clients emitted].
    intros c Hc Hid. apply in_app_or in Hc as [Hc | [<- | []]]; [now apply Hin |].
    exists []. split; [reflexivity | apply subsequence_nil_l].
  - destruct H as [Hlen Hin]. split; [assumption |]. cbn [clients emitted].
    intros c' Hc' Hid. apply in_map_iff in Hc' as (c & <- & Hc).
    destruct (Nat.eqb (sid c) id'); cbn in *; now apply Hin.
  - destruct H as [Hlen Hin]. split; [assumption |]. cbn [clients emitted].
    intros c Hc Hid. apply filter_In in Hc as [Hc _]. now apply Hin.
  - now apply lateOnly_onData.
Qed.

Lemma lateOnly_serve (n0 id : nat) (events : list event) (st : server) :
  lateOnly n0 id st -> lateOnly n0 id (serve events st).
Proof.
  revert st. induction events as [| e events IH]; intros st H; [assumption |].
  cbn. now apply IH, lateOnly_handle.
Qed.

Lemma extends_refl (st : server) : extends st st.
Proof. exists []. now rewrite app_nil_r. Qed.

Lemma extends_trans (st1 st2 st3 : server) :
  extends st1 st2 -> extends st2 st3 -> extends st1 st3.
Proof.
  intros [m1 H1] [m2 H2]. exists (m1 ++ m2). now rewrite H2, H1, app_assoc.
Qed.

Lemma extends_tryParseAndSend (jsonStr : jsstring) (st : server) :
  extends st (tryParseAndSend jsonStr st).
Proof.
  unfold tryParseAndSend. cbv zeta.
  destruct (negb (truthy (trim jsonStr))); [apply extends_refl |].
  destruct (parse (trim jsonStr)) as [data |]; [| apply extends_refl].
  now exists [data].
Qed.

Lemma extends_drain (fuel : nat) (st : server) : extends st (drain fuel st).
Proof.
  revert st. induction fuel as [| fuel IH]; intros st; cbn [drain];
    [apply extends_refl |].
  destruct (hasBoundary (buffer st)); [| apply extends_refl].
  eapply extends_trans; [| apply IH].
  unfold splitOnce. cbv zeta.
  apply (extends_tryParseAndSend _ (withBuffer _ st)).
Qed.

Lemma extends_onData (st : server) (chunk : jsstring) : extends st (onData st chunk).
Proof.
  rewrite onData_unfold. cbv zeta.
  assert (Hmid : extends st (afterLoop st chunk))
    by apply (extends_drain _ (withBuffer _ st)).
  destruct (endsWith _ _); [| assumption].
  destruct (parse _); [| assumption].
  eapply extends_trans; [exact Hmid |].
  apply (extends_tryParseAndSend (buffer (afterLoop st chunk))).
Qed.

Lemma extends_handle (st : server) (e : event) : extends st (handle st e).
Proof.
  destruct e; cbn [handle];
    [exists []; cbn; now rewrite app_nil_r .. | apply extends_onData].
Qed.

Lemma extends_serve (events : list event) (st : server) :
  extends st (serve events st).
Proof.
  revert st. induction events as [| e events IH]; intros st; [apply extends_refl |].
  cbn. eapply extends_trans; [apply extends_handle | apply IH].
Qed.

(** The data handler broadcasts what it emits, in order. *)
Lemma deliver_nil (cs : list client) : deliver [] cs = cs.
Proof.
  unfold deliver. induction cs as [| [i rs box] cs IH]; cbn; [reflexivity |].
  rewrite IH, app_nil_r. now destruct (isOpen rs).
Qed.

Lemma deliver_app (new more : list json) (cs : list client) :
  deliver more (deliver new cs) = deliver (new ++ more) cs.
Proof.
  unfold deliver. rewrite map_map. apply map_ext. intros [i rs box]. cbn.
  destruct (isOpen rs) eqn:E; cbn; rewrite E; [now rewrite app_assoc | reflexivity].
Qed.

Lemma broadcast_deliver (data : json) (cs : list client) :
  broadcast data cs = deliver [data] cs.
Proof. reflexivity. Qed.

Lemma delivers_refl (st : server) : delivers st st [].
Proof. split; [now rewrite app_nil_r | now rewrite deliver_nil]. Qed.

Lemma delivers_trans (st1 st2 st3 : server) (new more : list json) :
  delivers st1 st2 new -> delivers st2 st3 more -> delivers st1 st3 (new ++ more).
Proof.
  intros [E1 C1] [E2 C2]. split.
  - now rewrite E2, E1, app_assoc.
  - now rewrite C2, C1, deliver_app.
Qed.

Lemma delivers_tryParseAndSend (jsonStr : jsstring) (st : server) :
  exists new, delivers st (tryParseAndSend jsonStr st) new.
Proof.
  unfold tryParseAndSend. cbv zeta.
  destruct (negb (truthy (trim jsonStr))); [exists []; apply delivers_refl |].
  destruct (parse (trim jsonStr)) as [data |]; [| exists []; apply delivers_refl].
  exists [data]. split; reflexivity.
Qed.

Lemma delivers_drain (fuel : nat) (st : server) :
  exists new, delivers st (drain fuel st) new.
Proof.
  revert st. induction fuel as [| fuel IH]; intros st; cbn [drain];
    [exists []; apply delivers_refl |].
  destruct (hasBoundary (buffer st)); [| exists []; apply delivers_refl].
  unfold splitOnce. cbv zeta.
  set (j := trim (slice (buffer st) 0 _)). set (b := trim (slice (buffer st) _ None)).
  destruct (delivers_tryParseAndSend j (withBuffer b st)) as [new Hnew].
  destruct (IH (tryParseAndSend j (withBuffer b st))) as [more Hmore].
  exists (new ++ more). eapply delivers_trans; [exact Hnew | exact Hmore].
Qed.

Lemma delivers_onData (st : server) (chunk : jsstring) :
  exists new, delivers st (onData st chunk) new.
Proof.
  rewrite onData_unfold. cbv zeta.
  destruct (delivers_drain (drainFuel (withBuffer (buffer st ++ chunk) st))
              (withBuffer (buffer st ++ chunk) st)) as [new Hnew].
  fold (afterLoop st chunk) in Hnew.
  destruct (endsWith _ _); [| now exists new].
  destruct (parse _); [| now exists new].
  destruct (delivers_tryParseAndSend (buffer (afterLoop st chunk)) (afterLoop st chunk))
    as [more Hmore].
  exists (new ++ more). eapply delivers_trans; [exact Hnew | exact Hmore].
Qed.

(** C8.  A record that [tryParseAndSend] parses is appended to the log
    of emissions and passed to [send] on every client that is in the set
    and open at that moment; a client of the set that is not open is
    left exactly as it was (the server keeps no queue, so nothing is
    sent to it later on behalf of this record).  The data handler emits
    through [tryParseAndSend] only: the records one chunk makes it emit
    end up, in order, in the inbox of every open client, and nowhere
    else.  A client registered under a fresh id starts with the info
    message alone, and whatever it receives afterwards was emitted after
    its registration, in the order of emission. *)
Theorem C8_fan_out :
  (forall (st : server) (jsonStr : jsstring) (data : json),
     parse (trim jsonStr) = Some data ->
     let st' := tryParseAndSend jsonStr st in
     emitted st' = emitted st ++ [data] /\
     length (clients st') = length (clients st) /\
     forall n c, nth_error (clients st) n = Some c ->
       exists c', nth_error (clients st') n = Some c'
                  /\ sid c' = sid c /\ readyState c' = readyState c
                  /\ inbox c' = if isOpen (readyState c)
                                then inbox c ++ [data] else inbox c) /\
  (forall (st : server) (chunk : jsstring),
     exists new,
       emitted (onData st chunk) = emitted st ++ new /\
       clients (onData st chunk) = deliver new (clients st)) /\
  (forall (st : server) (id : nat) (events : list event),
     (forall c, In c (clients st) -> sid c <> id) ->
     let st' := serve (Connection id :: events) st in
     exists later,
       emitted st' = emitted st ++ later /\
       forall c, In c (clients st') -> sid c = id ->
         exists l, inbox c = infoMessage :: l /\ subsequence l later).
Proof.
  split; [| split].
  - intros st jsonStr data H st'. subst st'.
    rewrite (tryParseAndSend_emits _ _ _ H). cbn [emitted clients].
    split; [reflexivity |]. split; [apply length_map |].
    intros n c. apply broadcast_nth.
  - exact delivers_onData.
  - intros st id events Hfresh st'.
    assert (H0 : lateOnly (length (emitted st)) id (handle st (Connection id))).
    { split; [cbn; lia |]. cbn [handle clients emitted].
      intros c Hc Hid. apply in_app_or in Hc as [Hc | [<- | []]].
      - now apply Hfresh in Hc.
      - exists []. split; [reflexivity | apply subsequence_nil_l]. }
    apply (lateOnly_serve _ _ events) in H0.
    change (serve events (handle st (Connection id))) with st' in H0.
    destruct H0 as [Hlen Hin].
    exists (skipn (length (emitted st)) (emitted st')). split; [| assumption].
    destruct (extends_serve (Connection id :: events) st) as [more Hmore].
    fold st' in Hmore. rewrite Hmore at 2.
    now rewrite skipn_app, skipn_all, Nat.sub_diag.
Qed.

Lemma C8_fan_out_witness :
  let idle := mkClient 1 CLOSING [] in
  let live := mkClient 2 OPEN [] in
  let st := mkServer [] [idle; live] [] in
  let text := quoted "{'a':1}" in
  let data := JObject [(units "a", JNumber (units "1"))] in
  parse (trim text) = Some data /\
  (forall c, In c (clients st) -> sid c <> 3) /\
  (emitted (tryParseAndSend text st) = emitted st ++ [data] /\
   length (clients (tryParseAndSend text st)) = length (clients st) /\
   forall n c, nth_error (clients st) n = Some c ->
     exists c', nth_error (clients (tryParseAndSend text st)) n = Some c'
                /\ sid c' = sid c /\ readyState c' = readyState c
                /\ inbox c' = if isOpen (readyState c)
                              then inbox c ++ [data] else inbox c) /\
  exists later,
    emitted (serve [Connection 3; Data text] st) = emitted st ++ later /\
    forall c, In c (clients (serve [Connection 3; Data text] st)) -> sid c = 3 ->
      exists l, inbox c = infoMessage :: l /\ subsequence l later.
Proof.
  intros idle live st text data.
  assert (Hparse : parse (trim text) = Some data) by reflexivity.
  assert (Hfresh : forall c, In c (clients st) -> sid c <> 3).
  { intros c [<- | [<- | []]]; discriminate. }
  split; [exact Hparse |]. split; [exact Hfresh |]. split.
  - exact (proj1 C8_fan_out st text data Hparse).
  - exact (proj2 (proj2 C8_fan_out) st 3%nat [Data text] Hfresh).
Defined.

End ServerSpec.

(* ================================================================== *)
(** * Further properties of the pose estimator *)
(* ================================================================== *)

Module PhysicsMore.
Import Physics PhysicsTerms RotationTerms PhysicsSpec.
Local Open Scope R_scope.

(** [applyQuaternion v q] is the sandwich product of quaternion algebra:
    with [v] taken as a quaternion with scalar part 0, the result is the
    vector part of q v q* (q* the conjugate), and the scalar part of
    that product is 0.  This holds for every [q], unit or not. *)
Theorem applyQuaternion_sandwich (v : Vector3) (q : Quaternion) :
  let p := hamilton (hamilton q (pure v)) (conjugate q) in
  applyQuaternion v q = vec p /\ qw p = 0.
Proof.
  cbv zeta. unfold applyQuaternion, hamilton, conjugate, pure, vec, cross, dot; cbn.
  split; [f_equal; ring | ring].
Qed.

(** [applyQuaternion] scales the squared length of a vector by the
    square of the squared norm of the quaternion; with a unit quaternion
    it keeps the length of every vector. *)
Theorem applyQuaternion_length (v : Vector3) (q : Quaternion) :
  lengthSq (applyQuaternion v q) = sumsq q * sumsq q * lengthSq v
  /\ (norm q = 1 -> lengthSq (applyQuaternion v q) = lengthSq v).
Proof.
  assert (H : lengthSq (applyQuaternion v q) = sumsq q * sumsq q * lengthSq v).
  { unfold lengthSq, dot, applyQuaternion, sumsq; cbn. ring. }
  split; [exact H |].
  intros Hn. apply norm_one_sumsq in Hn. rewrite H, Hn. ring.
Qed.

(** Rotating by [q2] and then by [q1] is rotating by
    [multiplyQuaternions q1 q2]. *)
Theorem applyQuaternion_compose (v : Vector3) (q1 q2 : Quaternion) :
  applyQuaternion (applyQuaternion v q2) q1 = applyQuaternion v (multiplyQuaternions q1 q2).
Proof.
  unfold applyQuaternion, multiplyQuaternions; cbn. f_equal; ring.
Qed.

(** [multiplyQuaternions] is associative, has the identity rotation
    (0,0,0,1) as unit on both sides, and the norm of a product is the
    product of the norms. *)
Theorem multiplyQuaternions_monoid (p q r : Quaternion) :
  multiplyQuaternions (multiplyQuaternions p q) r
  = multiplyQuaternions p (multiplyQuaternions q r)
  /\ multiplyQuaternions (mkQuaternion 0 0 0 1) p = p
  /\ multiplyQuaternions p (mkQuaternion 0 0 0 1) = p
  /\ norm (multiplyQuaternions p q) = norm p * norm q.
Proof.
  repeat split.
  - unfold multiplyQuaternions; cbn. f_equal; ring.
  - destruct p; unfold multiplyQuaternions; cbn. f_equal; ring.
  - destruct p; unfold multiplyQuaternions; cbn. f_equal; ring.
  - rewrite !norm_sumsq, <- sqrt_mult by apply sumsq_nonneg.
    f_equal. unfold sumsq, multiplyQuaternions; cbn. ring.
Qed.

(** With a gyroscope reading of (0,0,0) an accepted update leaves a
    unit rotation exactly as it was, whatever the acceleration. *)
Theorem zero_gyro_keeps_orientation
    (st : ControllerState) (accel : sample) (timestamp : R) :
  0 < timeDelta st timestamp <= 1 ->
  norm (rotation st) = 1 ->
  rotation (update st accel (0, 0, 0) timestamp) = rotation st.
Proof.
  intros Hdt Hn. apply rejected_false in Hdt.
  rewrite update_accepted_rotation by assumption.
  rewrite integrateGyro_spec.
  replace (smallAngle (0, 0, 0) (timeDelta st timestamp)) with (mkQuaternion 0 0 0 1)
    by (unfold smallAngle; f_equal; lra).
  assert (Hid : normalize (mkQuaternion 0 0 0 1) = mkQuaternion 0 0 0 1).
  { unfold normalize. rewrite identity_unit. cbn. f_equal; lra. }
  rewrite Hid, <- multiplyQuaternions_hamilton.
  destruct (rotation st) as [a b c d] eqn:E.
  replace (multiplyQuaternions (mkQuaternion a b c d) (mkQuaternion 0 0 0 1))
    with (mkQuaternion a b c d)
    by (unfold multiplyQuaternions; cbn; f_equal; ring).
  unfold normalize. rewrite Hn. cbn. f_equal; lra.
Qed.

Lemma zero_gyro_keeps_orientation_witness :
  let st := mkState (mkVector3 0 0 0) (mkQuaternion 0 1 0 0) (mkVector3 0 0 0) 1000 in
  0 < timeDelta st 1500 <= 1 /\
  norm (rotation st) = 1 /\
  rotation (update st (1, 2, 3) (0, 0, 0) 1500) = rotation st.
Proof.
  intros st.
  assert (Hdt : 0 < timeDelta st 1500 <= 1) by (rewrite timeDelta_seen; simpl; lra).
  assert (Hn : norm (rotation st) = 1).
  { apply norm_one_sumsq. unfold sumsq; cbn. ring. }
  split; [exact Hdt |]. split; [exact Hn |].
  exact (zero_gyro_keeps_orientation st (1, 2, 3) 1500 Hdt Hn).
Defined.

(** A stall costs one sample.  The first update after a gap of more
    than a second changes neither position, velocity nor rotation, but
    it records its time stamp; the update that follows within a second
    is accepted, with the time step counted from the dropped one. *)
Theorem stall_costs_one_sample
    (st : ControllerState) (accel1 gyro1 accel2 gyro2 : sample) (t1 t2 : R) :
  0 < lastUpdate st ->
  (t1 - lastUpdate st) / 1000 > 1 ->
  0 < (t2 - t1) / 1000 <= 1 ->
  let st1 := update st accel1 gyro1 t1 in
  let st2 := update st1 accel2 gyro2 t2 in
  position st1 = position st /\ velocity st1 = velocity st /\
  rotation st1 = rotation st /\
  timeDelta st1 t2 = (t2 - t1) / 1000 /\
  rejected (timeDelta st1 t2) = false /\
  rotation st2 = integrateGyro (rotation st) gyro2 ((t2 - t1) / 1000).
Proof.
  intros Hlast Hstall Hnext st1 st2.
  assert (H1 : st1 = touched st t1).
  { subst st1. apply update_rejected, rejected_true.
    rewrite timeDelta_seen by lra. now left. }
  assert (Hd : timeDelta st1 t2 = (t2 - t1) / 1000).
  { rewrite H1, timeDelta_seen; cbn; [reflexivity | lra]. }
  assert (Hacc : rejected (timeDelta st1 t2) = false).
  { apply rejected_false. now rewrite Hd. }
  rewrite H1 at 1 2 3. cbn [position velocity rotation touched].
  repeat split; try assumption.
  subst st2. rewrite update_accepted_rotation by assumption.
  rewrite Hd, H1. reflexivity.
Qed.

Lemma stall_costs_one_sample_witness :
  let st := mkState (mkVector3 0 0 0) (mkQuaternion 0 0 0 1) (mkVector3 0 0 0) 1000 in
  let st1 := update st (0, 9.81, 0) (1, 0, 0) 5000 in
  let st2 := update st1 (0, 9.81, 0) (1, 0, 0) 5016 in
  0 < lastUpdate st /\ (5000 - lastUpdate st) / 1000 > 1 /\
  0 < (5016 - 5000) / 1000 <= 1 /\
  position st1 = position st /\ velocity st1 = velocity st /\
  rotation st1 = rotation st /\
  timeDelta st1 5016 = (5016 - 5000) / 1000 /\
  rejected (timeDelta st1 5016) = false /\
  rotation st2 = integrateGyro (rotation st) (1, 0, 0) ((5016 - 5000) / 1000).
Proof.
  intros st st1 st2.
  assert (H0 : 0 < lastUpdate st) by (simpl; lra).
  assert (H1 : (5000 - lastUpdate st) / 1000 > 1) by (simpl; lra).
  assert (H2 : 0 < (5016 - 5000) / 1000 <= 1) by lra.
  split; [exact H0 |]. split; [exact H1 |]. split; [exact H2 |].
  exact (stall_costs_one_sample st (0, 9.81, 0) (1, 0, 0) (0, 9.81, 0) (1, 0, 0)
           5000 5016 H0 H1 H2).
Defined.

(** After [reset] at a clock reading other than 0, the first update
    that follows within a second is integrated, with the time step
    counted from the reset.  When the clock read 0 at the reset, the
    first update only records its time stamp, as after construction. *)
Theorem first_update_after_reset
    (st : ControllerState) (now : R) (accel gyro : sample) (timestamp : R) :
  (now <> 0 -> 0 < (timestamp - now) / 1000 <= 1 ->
     rejected (timeDelta (reset st now) timestamp) = false /\
     rotation (update (reset st now) accel gyro timestamp)
     = integrateGyro (mkQuaternion 0 0 0 1) gyro ((timestamp - now) / 1000)) /\
  (now = 0 ->
     update (reset st now) accel gyro timestamp = touched (reset st now) timestamp).
Proof.
  split.
  - intros Hnow Hdt.
    assert (Hd : timeDelta (reset st now) timestamp = (timestamp - now) / 1000)
      by now rewrite timeDelta_seen.
    assert (Hacc : rejected (timeDelta (reset st now) timestamp) = false)
      by (apply rejected_false; now rewrite Hd).
    split; [exact Hacc |].
    rewrite update_accepted_rotation by assumption. now rewrite Hd.
  - intros ->. apply update_rejected, rejected_true.
    rewrite timeDelta_fresh by reflexivity. lra.
Qed.

Lemma first_update_after_reset_witness :
  let st := construct in
  (2000 <> 0 /\ 0 < (2016 - 2000) / 1000 <= 1 /\
   rejected (timeDelta (reset st 2000) 2016) = false /\
   rotation (update (reset st 2000) (0, 9.81, 0) (1, 0, 0) 2016)
   = integrateGyro (mkQuaternion 0 0 0 1) (1, 0, 0) ((2016 - 2000) / 1000)) /\
  update (reset st 0) (0, 9.81, 0) (1, 0, 0) 2016 = touched (reset st 0) 2016.
Proof.
  intros st.
  assert (Hnow : 2000 <> 0) by lra.
  assert (Hdt : 0 < (2016 - 2000) / 1000 <= 1) by lra.
  split.
  - split; [exact Hnow |]. split; [exact Hdt |].
    exact (proj1 (first_update_after_reset st 2000 (0, 9.81, 0) (1, 0, 0) 2016) Hnow Hdt).
  - exact (proj2 (first_update_after_reset st 0 (0, 9.81, 0) (1, 0, 0) 2016) eq_refl).
Defined.

(** After the dead zone each axis of the acceleration is 0 or has
    magnitude at least 0.2; applying the dead zone twice changes
    nothing more; and the zero-velocity test read on such a vector holds
    exactly when the vector is zero. *)
Theorem deadZone_range (a : Vector3) :
  (x (deadZone a) = 0 \/ 0.2 <= Rabs (x (deadZone a))) /\
  (y (deadZone a) = 0 \/ 0.2 <= Rabs (y (deadZone a))) /\
  (z (deadZone a) = 0 \/ 0.2 <= Rabs (z (deadZone a))) /\
  deadZone (deadZone a) = deadZone a /\
  (zeroVelocity (deadZone a) = true <-> deadZone a = mkVector3 0 0 0).
Proof.
  assert (Hax : forall c, let b := if Rltb (Rabs c) 0.2 then 0 else c in
                          (b = 0 \/ 0.2 <= Rabs b)
                          /\ (if Rltb (Rabs b) 0.2 then 0 else b) = b
                          /\ (Rltb (Rabs b) 0.1 = true <-> b = 0)).
  { intros c. cbv zeta. destruct (Rltb (Rabs c) 0.2) eqn:E.
    - assert (E0 : Rltb (Rabs 0) 0.2 = true) by (apply Rltb_true; rewrite Rabs_R0; lra).
      rewrite E0. repeat split; auto.
      intros _. apply Rltb_true. rewrite Rabs_R0. lra.
    - rewrite E. pose proof E as E'. apply Rltb_false in E'.
      split; [right; lra |]. split; [reflexivity |]. split.
      + intros H. apply Rltb_true in H. lra.
      + intros ->. rewrite Rabs_R0 in E'. lra. }
  destruct (Hax (x a)) as (Hx1 & Hx2 & Hx3).
  destruct (Hax (y a)) as (Hy1 & Hy2 & Hy3).
  destruct (Hax (z a)) as (Hz1 & Hz2 & Hz3).
  cbv zeta in *.
  split; [exact Hx1 |]. split; [exact Hy1 |]. split; [exact Hz1 |]. split.
  - unfold deadZone; cbn [x y z]. now rewrite Hx2, Hy2, Hz2.
  - unfold zeroVelocity, deadZone; cbn [x y z].
    rewrite !andb_true_iff, Hx3, Hy3, Hz3. split.
    + intros [[H1 H2] H3]. now rewrite H1, H2, H3.
    + intros H. injection H; auto.
Qed.

Lemma update_accepted_position (st : ControllerState) (accel gyro : sample) (timestamp : R) :
  rejected (timeDelta st timestamp) = false ->
  let dt := timeDelta st timestamp in
  let st' := update st accel gyro timestamp in
  position st'
  = {| x := x (position st) + x (velocity st') * dt * SCALE_FACTOR;
       y := y (position st) + y (velocity st') * dt * SCALE_FACTOR;
       z := z (position st) + z (velocity st') * dt * SCALE_FACTOR |}.
Proof.
  intros H dt st'. subst st'. unfold update; cbv zeta. rewrite H. reflexivity.
Qed.

Lemma damped_axis_bound (v a dt : R) :
  0 < dt ->
  let dz := if Rltb (Rabs a) 0.2 then 0 else a in
  Rabs ((v + dz * dt) * FRICTION) <= 0.95 * (Rabs v + Rabs a * dt)
  /\ Rabs ((v + dz * dt) * FRICTION * 0.5) <= 0.95 * (Rabs v + Rabs a * dt).
Proof.
  intros Hdt dz. unfold FRICTION.
  assert (Hdz : Rabs (v + dz * dt) <= Rabs v + Rabs a * dt).
  { subst dz. destruct (Rltb (Rabs a) 0.2).
    - replace (v + 0 * dt) with v by ring.
      pose proof (Rabs_pos a). nra.
    - eapply Rle_trans; [apply Rabs_triang |].
      rewrite Rabs_mult, (Rabs_pos_eq dt) by lra. lra. }
  pose proof (Rabs_pos (v + dz * dt)) as Hpos.
  rewrite !Rabs_mult, (Rabs_pos_eq 0.95), (Rabs_pos_eq 0.5) by lra.
  split; nra.
Qed.

(** In an accepted update each axis of the new velocity is at most
    0.95 times the old speed plus the acceleration times the time step
    (the acceleration being the world acceleration before the dead
    zone), and each axis of the position moves by at most half the new
    speed on that axis. *)
Theorem step_is_damped (st : ControllerState) (accel gyro : sample) (timestamp : R) :
  let dt := timeDelta st timestamp in
  0 < dt <= 1 ->
  let st' := update st accel gyro timestamp in
  let a := worldAccelRaw accel (rotation st') in
  Rabs (x (velocity st')) <= 0.95 * (Rabs (x (velocity st)) + Rabs (x a) * dt) /\
  Rabs (y (velocity st')) <= 0.95 * (Rabs (y (velocity st)) + Rabs (y a) * dt) /\
  Rabs (z (velocity st')) <= 0.95 * (Rabs (z (velocity st)) + Rabs (z a) * dt) /\
  Rabs (x (position st') - x (position st)) <= 0.5 * Rabs (x (velocity st')) /\
  Rabs (y (position st') - y (position st)) <= 0.5 * Rabs (y (velocity st')) /\
  Rabs (z (position st') - z (position st)) <= 0.5 * Rabs (z (velocity st')).
Proof.
  intros dt Hdt st' a.
  pose proof Hdt as Hacc. apply rejected_false in Hacc.
  assert (Hrot : rotation st' = integrateGyro (rotation st) gyro dt)
    by (subst st' dt; now apply update_accepted_rotation).
  pose proof (update_accepted_velocity st accel gyro timestamp Hacc) as Hv.
  cbv zeta in Hv. fold dt in Hv. rewrite <- Hrot in Hv. fold a st' in Hv.
  pose proof (update_accepted_position st accel gyro timestamp Hacc) as Hp.
  cbv zeta in Hp. fold dt st' in Hp.
  destruct Hdt as [Hdt0 Hdt1].
  destruct (damped_axis_bound (x (velocity st)) (x a) dt Hdt0) as [Hx1 Hx2].
  destruct (damped_axis_bound (y (velocity st)) (y a) dt Hdt0) as [Hy1 Hy2].
  destruct (damped_axis_bound (z (velocity st)) (z a) dt Hdt0) as [Hz1 Hz2].
  cbv zeta in *.
  assert (Hstep : forall p v, Rabs (p + v * dt * SCALE_FACTOR - p) <= 0.5 * Rabs v).
  { intros p v. replace (p + v * dt * SCALE_FACTOR - p) with (v * (dt * 0.5))
      by (unfold SCALE_FACTOR; ring).
    rewrite Rabs_mult, (Rabs_pos_eq (dt * 0.5)) by lra.
    pose proof (Rabs_pos v). nra. }
  rewrite Hp. cbn [x y z].
  repeat split; try apply Hstep;
    rewrite Hv; destruct (zeroVelocity (deadZone a)); cbn; assumption.
Qed.

Lemma step_is_damped_witness :
  let st := mkState (mkVector3 0 0 0) (mkQuaternion 0 0 0 1) (mkVector3 1 0 0) 1000 in
  let dt := timeDelta st 1100 in
  let st' := update st (3, 9.81, 0) (0, 0, 0) 1100 in
  let a := worldAccelRaw (3, 9.81, 0) (rotation st') in
  0 < dt <= 1 /\
  Rabs (x (velocity st')) <= 0.95 * (Rabs (x (velocity st)) + Rabs (x a) * dt) /\
  Rabs (y (velocity st')) <= 0.95 * (Rabs (y (velocity st)) + Rabs (y a) * dt) /\
  Rabs (z (velocity st')) <= 0.95 * (Rabs (z (velocity st)) + Rabs (z a) * dt) /\
  Rabs (x (position st') - x (position st)) <= 0.5 * Rabs (x (velocity st')) /\
  Rabs (y (position st') - y (position st)) <= 0.5 * Rabs (y (velocity st')) /\
  Rabs (z (position st') - z (position st)) <= 0.5 * Rabs (z (velocity st')).
Proof.
  intros st dt st' a.
  assert (Hdt : 0 < dt <= 1) by (subst dt; rewrite timeDelta_seen; simpl; lra).
  split; [exact Hdt |].
  exact (step_is_damped st (3, 9.81, 0) (0, 0, 0) 1100 Hdt).
Defined.

End PhysicsMore.

(* ================================================================== *)
(** * Further properties of the stream framer *)
(* ================================================================== *)

Module FramerMore.
Import JS JSON Server ServerTerms StringFacts JSONFacts ServerSpec FramerTerms.
Local Open Scope N_scope.

(** ** Trimming twice *)

Lemma strip_last (f : N -> bool) (s pre : jsstring) (c : N) :
  strip f s = pre ++ [c] -> f c = false.
Proof.
  unfold strip. intros H. apply (f_equal (@rev N)) in H.
  rewrite rev_involutive, rev_app_distr in H. cbn in H.
  eapply dropWhile_head. exact H.
Qed.

Lemma strip_idempotent (f : N -> bool) (s : jsstring) :
  strip f (strip f s) = strip f s.
Proof.
  destruct (strip f s) as [| h t] eqn:E; [reflexivity |].
  assert (Hne : h :: t <> []) by discriminate.
  destruct (exists_last Hne) as (pre & c & Hc).
  apply (strip_fixed f (h :: t) h c t pre); auto.
  - eapply strip_head. exact E.
  - eapply strip_last. rewrite E. exact Hc.
Qed.

Lemma trim_idempotent (s : jsstring) : trim (trim s) = trim s.
Proof. apply strip_idempotent. Qed.

(** ** Only objects are emitted *)

Lemma tryParseAndSend_object (jsonStr : jsstring) (st : server) :
  endsWith (trim jsonStr) [125] = true ->
  exists new, emitted (tryParseAndSend jsonStr st) = emitted st ++ new
              /\ Forall isObject new.
Proof.
  intros Hclose. unfold tryParseAndSend. cbv zeta.
  destruct (negb (truthy (trim jsonStr))).
  { exists []. now rewrite app_nil_r. }
  destruct (parse (trim jsonStr)) as [data |] eqn:E.
  - exists [data]. split; [reflexivity |]. constructor; [| constructor].
    apply (parse_closing_object (trim jsonStr)); [| exact E].
    now rewrite trim_idempotent.
  - exists []. now rewrite app_nil_r.
Qed.

Lemma drain_object (fuel : nat) (st : server) :
  exists new, emitted (drain fuel st) = emitted st ++ new /\ Forall isObject new.
Proof.
  revert st. induction fuel as [| fuel IH]; intros st; cbn [drain].
  { exists []. now rewrite app_nil_r. }
  destruct (hasBoundary (buffer st)) eqn:E.
  - destruct (splitOnce_spec st E)
      as (i & sep & _ & _ & pre & post & _ & _ & Hclose & _ & Hsplit).
    destruct (tryParseAndSend_object (trim (pre ++ [125])) (withBuffer (trim post) st))
      as (new & Hnew & Hobj).
    { now rewrite trim_idempotent. }
    destruct (IH (splitOnce st)) as (more & Hmore & Hobj').
    exists (new ++ more). split.
    + rewrite Hmore, Hsplit, Hnew. cbn [emitted withBuffer]. now rewrite app_assoc.
    + apply Forall_app. now split.
  - exists []. now rewrite app_nil_r.
Qed.

(** Whatever the buffer and the chunk, every value the data handler
    emits is an object: a number, a string, an array, [true], [false] or
    [null] is never emitted, even where the text parses. *)
Theorem framer_emits_objects_only (st : server) (chunk : jsstring) :
  exists new,
    emitted (onData st chunk) = emitted st ++ new /\ Forall isObject new.
Proof.
  rewrite onData_unfold. cbv zeta.
  destruct (drain_object (drainFuel (withBuffer (buffer st ++ chunk) st))
              (withBuffer (buffer st ++ chunk) st)) as (new & Hnew & Hobj).
  fold (afterLoop st chunk) in Hnew. cbn [emitted withBuffer] in Hnew.
  destruct (endsWith (trim (buffer (afterLoop st chunk))) closingBrace) eqn:Eclose;
    [| now exists new].
  destruct (parse (buffer (afterLoop st chunk))); [| now exists new].
  destruct (tryParseAndSend_object (buffer (afterLoop st chunk)) (afterLoop st chunk) Eclose)
    as (more & Hmore & Hobj').
  exists (new ++ more). split.
  - cbn [emitted withBuffer]. now rewrite Hmore, Hnew, app_assoc.
  - apply Forall_app. now split.
Qed.

(** ** One record per chunk *)

Lemma parsed_cons (t : jsstring) (texts : list jsstring) :
  parsed (t :: texts) = parsed [t] ++ parsed texts.
Proof. unfold parsed. cbn [flat_map]. now rewrite app_nil_r. Qed.

Lemma drain_idle (fuel : nat) (st : server) :
  hasBoundary (buffer st) = false -> drain fuel st = st.
Proof. intros H. destruct fuel; cbn [drain]; [reflexivity | now rewrite H]. Qed.

Lemma onData_record (st : server) (text : jsstring) :
  buffer st = [] -> isRecord text -> hasBoundary text = false ->
  buffer (onData st text) = []
  /\ emitted (onData st text) = emitted st ++ parsed [text].
Proof.
  intros Hb [members Hparse] Hclean.
  rewrite onData_unfold. cbv zeta.
  assert (Hmid : afterLoop st text = withBuffer text st).
  { unfold afterLoop. cbv zeta. rewrite Hb. cbn [app].
    apply drain_idle. exact Hclean. }
  rewrite Hmid. cbn [buffer withBuffer]. unfold closingBrace.
  rewrite (parse_object_closes _ _ Hparse), Hparse.
  rewrite (tryParseAndSend_emits _ _ _ (proj1 (parse_trim _ _ Hparse))).
  unfold parsed. cbn. rewrite Hparse. split; reflexivity.
Qed.

(** Complete records that come one per chunk, each free of boundaries,
    are all emitted, in order, and the buffer is empty after each. *)
Theorem one_record_per_chunk (texts : list jsstring) (st : server) :
  buffer st = [] ->
  Forall (fun t => isRecord t /\ hasBoundary t = false) texts ->
  buffer (serve (map Data texts) st) = []
  /\ emitted (serve (map Data texts) st) = emitted st ++ parsed texts
  /\ length (parsed texts) = length texts.
Proof.
  revert st. induction texts as [| t texts IH]; intros st Hb Hall.
  - cbn. rewrite app_nil_r. auto.
  - inversion Hall as [| ? ? [Hrec Hclean] Hrest]; subst.
    destruct (onData_record st t Hb Hrec Hclean) as [Hb' He'].
    cbn [map serve fold_left handle].
    destruct (IH (onData st t) Hb' Hrest) as (Hb2 & He2 & Hlen).
    fold (serve (map Data texts) (onData st t)).
    split; [exact Hb2 |]. split.
    + now rewrite He2, He', (parsed_cons t texts), app_assoc.
    + destruct Hrec as [m Hm]. rewrite (parsed_cons t texts), length_app, Hlen.
      unfold parsed. cbn. now rewrite Hm.
Qed.

(** ** Records separated by line feeds, in one chunk *)

Lemma firstAt_search (s p : jsstring) (i : nat) :
  firstAt s p i -> search s p = Some i.
Proof.
  intros [Hocc Hmin]. destruct (search s p) as [k |] eqn:E.
  - destruct (search_Some _ _ _ E) as [Hocc' Hmin'].
    destruct (Nat.lt_trichotomy k i) as [Hlt | [-> | Hgt]]; [| reflexivity |].
    + now apply Hmin in Hlt.
    + now apply Hmin' in Hgt.
  - exfalso. exact (search_None _ _ E i Hocc).
Qed.

Lemma braced_trim (f : jsstring) : braced f -> trim f = f /\ truthy f = true.
Proof.
  intros [[body ->] _]. split; [| reflexivity].
  apply (strip_fixed _ _ 123 125 (body ++ [125]) (123 :: body)); reflexivity.
Qed.

Lemma joinLines_shape (fs : list jsstring) :
  fs <> [] -> Forall braced fs -> exists body, joinLines fs = 123 :: body ++ [125].
Proof.
  induction fs as [| f fs IH]; intros Hne Hall; [congruence |].
  inversion Hall as [| ? ? Hf Hrest]; subst.
  destruct fs as [| g gs].
  - destruct Hf as [Hshape _]. exact Hshape.
  - destruct (IH ltac:(discriminate) Hrest) as [body' Hj].
    destruct Hf as [[body ->] _].
    change (joinLines ((123 :: body ++ [125]) :: g :: gs))
      with ((123 :: body ++ [125]) ++ [10] ++ joinLines (g :: gs)).
    rewrite Hj. exists (body ++ [125] ++ [10] ++ 123 :: body').
    cbn. f_equal. rewrite <- !app_assoc. reflexivity.
Qed.

(** Where a braced fragment meets the next one, the newline form occurs
    for the first time. *)
Lemma junction_first (f r : jsstring) :
  braced f ->
  firstAt (f ++ [10] ++ 123 :: r) newlineBoundary (length f - 1).
Proof.
  intros [[body ->] Hclean].
  set (F0 := 123 :: body).
  assert (Hb : (123 :: body ++ [125]) ++ [10] ++ 123 :: r = F0 ++ newlineBoundary ++ r).
  { subst F0. unfold newlineBoundary. cbn. f_equal. now rewrite <- app_assoc. }
  assert (Hn : Nat.sub (length (123 :: body ++ [125])) 1 = length F0).
  { subst F0. cbn. rewrite length_app. cbn. lia. }
  rewrite Hb, Hn. split; [now exists F0, r |].
  intros j Hj (pre' & post' & Heq & Hlen).
  apply app_eq_app in Heq as [l [[HF Hrest] | [Hpre _]]].
  - destruct l as [| c1 [| c2 [| c3 l']]].
    + rewrite app_nil_r in HF. rewrite HF in Hj. lia.
    + cbn in Hrest. injection Hrest as _ Hbad _. discriminate.
    + cbn in Hrest. injection Hrest as _ _ Hbad _. discriminate.
    + cbn in Hrest. injection Hrest as <- <- <- _.
      apply (no_boundary_anywhere _ Hclean newlineBoundary j (or_introl eq_refl)).
      exists pre', (l' ++ [125]). split; [| exact Hlen].
      change (123 :: body ++ [125]) with (F0 ++ [125]). rewrite HF.
      unfold newlineBoundary. cbn. now rewrite <- !app_assoc.
  - rewrite Hpre, length_app in Hlen. lia.
Qed.

Lemma splitOnce_lines (st : server) (f r : jsstring) :
  braced f ->
  buffer st = f ++ [10] ++ 123 :: r ++ [125] ->
  hasBoundary (buffer st) = true
  /\ splitOnce st = tryParseAndSend f (withBuffer (123 :: r ++ [125]) st).
Proof.
  intros Hf Hb.
  pose proof (junction_first f (r ++ [125]) Hf) as Hfirst.
  rewrite <- Hb in Hfirst.
  pose proof (firstAt_search _ _ _ Hfirst) as Hsearch.
  assert (Hlen : (1 <= length f)%nat).
  { destruct Hf as [[body ->] _]. cbn. lia. }
  assert (Hidx : indexOf (buffer st) newlineBoundary = Z.of_nat (length f - 1)).
  { unfold indexOf. now rewrite Hsearch. }
  assert (Hfound : (indexOf (buffer st) newlineBoundary =? -1)%Z = false).
  { rewrite Hidx. apply Z.eqb_neq. lia. }
  split.
  - unfold hasBoundary. now rewrite Hfound.
  - unfold splitOnce, splitPoint. cbv zeta. rewrite Hfound. cbn [negb].
    rewrite Hidx.
    replace (Z.of_nat (length f - 1) + 1)%Z with (Z.of_nat (length f)) by lia.
    rewrite slice_prefix, slice_suffix, Hb.
    rewrite firstn_app, Nat.sub_diag, firstn_all. cbn [firstn]. rewrite app_nil_r.
    rewrite skipn_app, Nat.sub_diag, skipn_all. cbn [skipn app].
    rewrite (proj1 (braced_trim f Hf)).
    replace (trim (10 :: 123 :: r ++ [125])) with (123 :: r ++ [125]); [reflexivity |].
    symmetry. unfold trim.
    assert (Hpad : 10 :: 123 :: r ++ [125] = [10] ++ (123 :: r ++ [125]) ++ [])
      by now rewrite app_nil_r.
    rewrite Hpad, strip_pad by reflexivity.
    apply (strip_fixed _ _ 123 125 (r ++ [125]) (123 :: r)); reflexivity.
Qed.

Lemma tryParseAndSend_braced (f : jsstring) (st : server) :
  braced f ->
  emitted (tryParseAndSend f st) = emitted st ++ parsed [f].
Proof.
  intros Hf. destruct (braced_trim f Hf) as [Ht Hne].
  unfold tryParseAndSend, parsed. cbv zeta. rewrite Ht, Hne. cbn.
  destruct (parse f); cbn; [reflexivity | now rewrite app_nil_r].
Qed.

Lemma parsed_app (a b : list jsstring) : parsed (a ++ b) = parsed a ++ parsed b.
Proof. apply flat_map_app. Qed.

Lemma drain_lines (fs : list jsstring) :
  fs <> [] -> Forall braced fs ->
  forall (fuel : nat) (st : server),
    buffer st = joinLines fs -> (length (joinLines fs) <= fuel)%nat ->
    buffer (drain fuel st) = last fs []
    /\ emitted (drain fuel st) = emitted st ++ parsed (removelast fs).
Proof.
  induction fs as [| f fs IH]; intros Hne Hall fuel st Hb Hfuel; [congruence |].
  inversion Hall as [| ? ? Hf Hrest]; subst.
  destruct fs as [| g gs].
  - cbn in Hb |- *. rewrite drain_idle by (rewrite Hb; apply Hf).
    now rewrite app_nil_r.
  - destruct (joinLines_shape (g :: gs) ltac:(discriminate) Hrest) as [r Hr].
    change (joinLines (f :: g :: gs)) with (f ++ [10] ++ joinLines (g :: gs)) in *.
    rewrite Hr in Hb.
    destruct (splitOnce_lines st f r Hf Hb) as [Hhas Hsplit].
    destruct fuel as [| fuel].
    { rewrite !length_app in Hfuel. cbn in Hfuel. lia. }
    cbn [drain]. rewrite Hhas, Hsplit.
    destruct (IH ltac:(discriminate) Hrest fuel
                (tryParseAndSend f (withBuffer (123 :: r ++ [125]) st))) as [Hlast Hem].
    + now rewrite tryParseAndSend_buffer, Hr.
    + rewrite !length_app in Hfuel. cbn [length] in Hfuel.
      assert (1 <= length f)%nat by (destruct Hf as [[body ->] _]; cbn; lia). lia.
    + split; [exact Hlast |].
      rewrite Hem, tryParseAndSend_braced by assumption. cbn [emitted withBuffer].
      change (removelast (f :: g :: gs)) with (f :: removelast (g :: gs)).
      now rewrite (parsed_cons f (removelast (g :: gs))), app_assoc.
Qed.

(** Fragments in braces, each free of boundaries, joined by line feeds
    and delivered in one chunk to an empty buffer: every fragment that
    parses is emitted, in order, and one that does not is dropped
    without a trace, except the last, which stays in the buffer when it
    does not parse. *)
Theorem newline_separated_fragments (fs : list jsstring) (st : server) :
  fs <> [] -> Forall braced fs -> buffer st = [] ->
  emitted (onData st (joinLines fs)) = emitted st ++ parsed fs
  /\ buffer (onData st (joinLines fs))
     = match parse (last fs []) with Some _ => [] | None => last fs [] end.
Proof.
  intros Hne Hall Hb.
  rewrite onData_unfold. cbv zeta.
  destruct (drain_lines fs Hne Hall (drainFuel (withBuffer (buffer st ++ joinLines fs) st))
              (withBuffer (buffer st ++ joinLines fs) st)) as [Hlast Hem].
  { now rewrite Hb. }
  { unfold drainFuel. cbn [buffer withBuffer]. rewrite Hb. cbn [app]. lia. }
  fold (afterLoop st (joinLines fs)) in Hlast, Hem. cbn [emitted withBuffer] in Hem.
  set (mid := afterLoop st (joinLines fs)) in *.
  assert (Hl : braced (last fs [])).
  { rewrite Forall_forall in Hall. apply Hall.
    rewrite (app_removelast_last [] Hne) at 2. apply in_or_app. right. now left. }
  assert (Hfs : parsed fs = parsed (removelast fs) ++ parsed [last fs []]).
  { rewrite (app_removelast_last [] Hne) at 1. apply parsed_app. }
  rewrite Hlast. destruct (braced_trim _ Hl) as [Ht _]. rewrite Ht.
  assert (Hclose : endsWith (last fs []) closingBrace = true).
  { destruct Hl as [[body Hbody] _]. rewrite Hbody.
    change (123 :: body ++ [125]) with ((123 :: body) ++ [125]). apply endsWith_snoc. }
  rewrite Hclose.
  destruct (parse (last fs [])) as [v |] eqn:Ep.
  - cbn [buffer emitted withBuffer]. split; [| reflexivity].
    rewrite tryParseAndSend_braced, Hem, Hfs, app_assoc by assumption. reflexivity.
  - split; [| exact Hlast].
    rewrite Hem, Hfs. unfold parsed at 3. cbn. rewrite Ep. cbn.
    now rewrite !app_nil_r.
Qed.

Lemma newline_separated_fragments_witness :
  let fs := [motionAccel; quoted "{oops}"; pseudoGyro] in
  fs <> [] /\ Forall braced fs /\ buffer start = [] /\
  emitted (onData start (joinLines fs)) = emitted start ++ parsed fs /\
  buffer (onData start (joinLines fs))
  = match parse (last fs []) with Some _ => [] | None => last fs [] end.
Proof.
  intros fs.
  assert (Hne : fs <> []) by discriminate.
  assert (Hall : Forall braced fs).
  { repeat constructor.
    - now exists (quoted "'Motion Accel':{'values':[1,2,3]}").
    - now exists (quoted "oops").
    - now exists (quoted "'Pseudo Gyro':{'values':[0.1,0.2,0.3]}"). }
  split; [exact Hne |]. split; [exact Hall |]. split; [reflexivity |].
  exact (newline_separated_fragments fs start Hne Hall eq_refl).
Defined.

Lemma one_record_per_chunk_witness :
  let texts := [motionAccel ++ [10]; pseudoGyro ++ [10]] in
  buffer start = [] /\
  Forall (fun t => isRecord t /\ hasBoundary t = false) texts /\
  buffer (serve (map Data texts) start) = [] /\
  emitted (serve (map Data texts) start) = emitted start ++ parsed texts /\
  length (parsed texts) = length texts.
Proof.
  intros texts.
  assert (Hall : Forall (fun t => isRecord t /\ hasBoundary t = false) texts).
  { repeat constructor.
    - now exists [(units "Motion Accel", values [units "1"; units "2"; units "3"])].
    - now exists [(units "Pseudo Gyro", values [units "0.1"; units "0.2"; units "0.3"])]. }
  split; [reflexivity |]. split; [exact Hall |].
  exact (one_record_per_chunk texts start eq_refl Hall).
Defined.

(** ** What the buffer keeps *)

Lemma drain_shrinks (fuel : nat) (st : server) :
  (length (buffer (drain fuel st)) <= length (buffer st))%nat.
Proof.
  revert st. induction fuel as [| fuel IH]; intros st; cbn [drain]; [lia |].
  destruct (hasBoundary (buffer st)) eqn:E; [| lia].
  pose proof (splitOnce_shrinks st E). pose proof (IH (splitOnce st)). lia.
Qed.

(** The retained buffer is never longer than the old buffer and the
    chunk together.  A chunk that completes neither a boundary nor a
    record is appended as it is, white space included, and nothing is
    emitted or sent. *)
Theorem buffer_only_accumulates (st : server) (chunk : jsstring) :
  (length (buffer (onData st chunk)) <= length (buffer st) + length chunk)%nat
  /\ (hasBoundary (buffer st ++ chunk) = false ->
      ~ isRecord (buffer st ++ chunk) ->
      onData st chunk = withBuffer (buffer st ++ chunk) st).
Proof.
  split.
  - rewrite onData_unfold. cbv zeta.
    assert (Hmid : (length (buffer (afterLoop st chunk))
                    <= length (buffer st) + length chunk)%nat).
    { unfold afterLoop. cbv zeta.
      etransitivity; [apply drain_shrinks |].
      cbn [buffer withBuffer]. rewrite length_app. lia. }
    destruct (endsWith _ _); [| exact Hmid].
    destruct (parse _); [cbn; lia | exact Hmid].
  - intros Hclean Hno. rewrite onData_unfold. cbv zeta.
    assert (Hmid : afterLoop st chunk = withBuffer (buffer st ++ chunk) st).
    { unfold afterLoop. cbv zeta. now apply drain_idle. }
    rewrite Hmid. cbn [buffer withBuffer].
    destruct (endsWith (trim (buffer st ++ chunk)) closingBrace) eqn:Eclose;
      [| reflexivity].
    destruct (parse (buffer st ++ chunk)) as [v |] eqn:Eparse; [| reflexivity].
    destruct (parse_closing_object _ _ Eclose Eparse) as [members ->].
    exfalso. apply Hno. now exists members.
Qed.

Lemma buffer_only_accumulates_witness :
  let st := mkServer (quoted "{'Motion Accel':{'values':") [] [] in
  let chunk := quoted "[1,2,3]} " in
  (length (buffer (onData st chunk)) <= length (buffer st) + length chunk)%nat /\
  hasBoundary (buffer st ++ chunk) = false /\
  ~ isRecord (buffer st ++ chunk) /\
  onData st chunk = withBuffer (buffer st ++ chunk) st.
Proof.
  intros st chunk.
  assert (Hclean : hasBoundary (buffer st ++ chunk) = false) by reflexivity.
  assert (Hno : ~ isRecord (buffer st ++ chunk)).
  { intros [members H]. vm_compute in H. discriminate. }
  split; [exact (proj1 (buffer_only_accumulates st chunk)) |].
  split; [exact Hclean |]. split; [exact Hno |].
  exact (proj2 (buffer_only_accumulates st chunk) Hclean Hno).
Defined.

End FramerMore.

(* ================================================================== *)
(** * Properties of the address discovery *)
(* ================================================================== *)

Module NetworkSpec.
Import JS Values Network NetworkTerms StringFacts.
Local Open Scope N_scope.

Lemma strictEquals_eq (a b : jsstring) : strictEquals a b = true <-> a = b.
Proof.
  revert b. induction a as [| c a IH]; intros [| d b]; cbn; split;
    try discriminate; try reflexivity.
  - intros H. apply andb_true_iff in H as [Hc Ha].
    apply N.eqb_eq in Hc. apply IH in Ha. now subst.
  - intros [= -> ->]. rewrite N.eqb_refl. now apply IH.
Qed.

Lemma usableb_usable (iface : NetworkInterfaceInfo) :
  usableb iface = true <-> usable iface.
Proof.
  unfold usableb, usable.
  rewrite !andb_true_iff, strictEquals_eq, negb_true_iff, startsWith_iff. tauto.
Qed.

Lemma visit_usable (localIP : jsstring) (iface : NetworkInterfaceInfo) :
  visit localIP iface = if usableb iface then address iface else localIP.
Proof.
  unfold visit, usableb.
  destruct (strictEquals (family iface) (units "IPv4") && negb (internal iface));
    reflexivity.
Qed.

Lemma last_default (A : Type) (a : A) (l : list A) (d d' : A) :
  last (a :: l) d = last (a :: l) d'.
Proof.
  revert a. induction l as [| b l IH]; intros a; [reflexivity |].
  cbn [last]. apply IH.
Qed.

Lemma last_append (A : Type) (l m : list A) (d : A) :
  last (l ++ m) d = last m (last l d).
Proof.
  revert d. induction l as [| a l IH]; intros d; [reflexivity |].
  destruct l as [| b l].
  - destruct m as [| c m]; [reflexivity |]. cbn [app]. cbn [last].
    destruct m; [reflexivity |]. apply last_default.
  - transitivity (last ((b :: l) ++ m) d); [reflexivity |].
    rewrite IH. reflexivity.
Qed.

Lemma visits_last (l : list NetworkInterfaceInfo) (localIP : jsstring) :
  fold_left visit l localIP = last (map address (filter usableb l)) localIP.
Proof.
  revert localIP. induction l as [| i l IH]; intros localIP; [reflexivity |].
  cbn [fold_left filter]. rewrite IH, visit_usable.
  destruct (usableb i); [| reflexivity].
  change (address i :: ?l) with ([address i] ++ l).
  cbn [map]. change (address i :: ?l) with ([address i] ++ l).
  now rewrite last_append.
Qed.

Lemma findLocalIP_last (interfaces : list (jsstring * list NetworkInterfaceInfo)) :
  findLocalIP interfaces
  = last (map address (filter usableb (allInterfaces interfaces))) (units "Not Found").
Proof.
  unfold findLocalIP, allInterfaces. cbv zeta.
  generalize (units "Not Found") as ip.
  induction interfaces as [| [name l] rest IH]; intros ip; [reflexivity |].
  cbn [fold_left flat_map snd]. rewrite IH, visits_last, filter_app, map_app.
  now rewrite last_append.
Qed.

(** The address printed at start-up is that of the last external IPv4
    interface whose address starts with 192, in the order the interfaces
    are listed; it is "Not Found" exactly when there is none (no usable
    address is that text).  An internal, an IPv6 or a differently
    numbered address is never printed. *)
Theorem findLocalIP_spec (interfaces : list (jsstring * list NetworkInterfaceInfo)) :
  let candidates := filter usableb (allInterfaces interfaces) in
  findLocalIP interfaces = last (map address candidates) (units "Not Found")
  /\ (findLocalIP interfaces = units "Not Found" <-> candidates = [])
  /\ (findLocalIP interfaces <> units "Not Found" ->
      exists name entries iface,
        In (name, entries) interfaces /\ In iface entries /\ usable iface
        /\ findLocalIP interfaces = address iface).
Proof.
  intros candidates.
  pose proof (findLocalIP_last interfaces) as Hlast. fold candidates in Hlast.
  assert (Hin : candidates <> [] ->
                exists iface, In iface candidates
                              /\ last (map address candidates) (units "Not Found")
                                 = address iface).
  { intros Hne. destruct (exists_last Hne) as (pre & iface & Hc).
    exists iface. rewrite Hc. split; [apply in_or_app; right; now left |].
    rewrite map_app. cbn. now rewrite last_last. }
  split; [exact Hlast |]. split; [split |].
  - intros Hnf. destruct candidates as [| c cs] eqn:E; [reflexivity |].
    destruct Hin as (iface & Hmem & Haddr); [discriminate |].
    rewrite <- E in Hmem. apply filter_In in Hmem as [_ Hu].
    apply usableb_usable in Hu as (_ & _ & rest & Hrest).
    rewrite Hlast, Haddr, Hrest in Hnf. discriminate.
  - intros E. rewrite Hlast, E. reflexivity.
  - intros Hfound. destruct candidates as [| c cs] eqn:E.
    { rewrite Hlast in Hfound. now cbn in Hfound. }
    destruct Hin as (iface & Hmem & Haddr); [discriminate |].
    rewrite <- E in Hmem. apply filter_In in Hmem as [Hall Hu].
    apply in_flat_map in Hall as ([name entries] & Hentry & Hi).
    exists name, entries, iface. rewrite Hlast, Haddr.
    repeat split; try assumption; now apply usableb_usable.
Qed.

End NetworkSpec.

(* ================================================================== *)
(** * Properties of the client *)
(* ================================================================== *)

Module AppSpec.
Import JS JSON Values App AppTerms.

Lemma firstn_app_firstn (A : Type) (n m : nat) (a b : list A) :
  (n <= m)%nat -> firstn n (a ++ firstn m b) = firstn n (a ++ b).
Proof.
  revert n. induction a as [| x a IH]; intros n Hnm.
  - cbn. rewrite firstn_firstn. f_equal. lia.
  - destruct n as [| n]; [reflexivity |]. cbn.
    f_equal. apply IH. lia.
Qed.

Lemma addLog_fold (entries prev : list line) :
  (length prev <= 20)%nat ->
  fold_left (fun prev entry => addLog entry prev) entries prev
  = firstn 20 (rev entries ++ prev).
Proof.
  revert prev. induction entries as [| e entries IH]; intros prev Hlen.
  - cbn [fold_left rev app]. symmetry. now apply firstn_all2.
  - cbn [fold_left rev]. rewrite IH.
    + unfold addLog. change (e :: firstn 19 prev) with (firstn 20 (e :: prev)).
      rewrite firstn_app_firstn by lia. now rewrite <- app_assoc.
    + unfold addLog. cbn [length]. rewrite length_firstn. lia.
Qed.

(** The status log holds the twenty most recent lines, newest first:
    after any number of [addLog] calls on the empty log it is the first
    twenty of the lines in reverse order of logging. *)
Theorem statusLog_newest_twenty (entries : list line) :
  let statusLog := fold_left (fun prev entry => addLog entry prev) entries [] in
  statusLog = firstn 20 (rev entries) /\ (length statusLog <= 20)%nat.
Proof.
  cbv zeta. rewrite addLog_fold by (cbn; lia). rewrite app_nil_r.
  split; [reflexivity |]. rewrite length_firstn. lia.
Qed.

(** ** The heap *)

Lemma deref_assign (h : list Physics.ControllerState) (a : nat)
  (st : Physics.ControllerState) :
  (a < length h)%nat -> deref (assign h a st) a = st.
Proof.
  intros Ha. unfold deref, assign.
  rewrite app_nth2; rewrite length_firstn, Nat.min_l by lia; [| lia].
  now rewrite Nat.sub_diag.
Qed.

Lemma length_assign (h : list Physics.ControllerState) (a : nat)
  (st : Physics.ControllerState) :
  (a < length h)%nat -> length (assign h a st) = length h.
Proof.
  intros Ha. unfold assign.
  rewrite length_app, length_firstn. cbn [length]. rewrite length_skipn. lia.
Qed.

Lemma deref_alloc (h : list Physics.ControllerState) (a : nat)
  (st : Physics.ControllerState) :
  (a < length h)%nat -> deref (h ++ [st]) a = deref h a.
Proof. intros Ha. unfold deref. now apply app_nth1. Qed.

Lemma deref_new (h : list Physics.ControllerState) (st : Physics.ControllerState) :
  deref (h ++ [st]) (length h) = st.
Proof. unfold deref. now rewrite nth_middle. Qed.

(** ** One event *)

Lemma reset_atRest (st : Physics.ControllerState) (now : R) :
  atRest (Physics.reset st now).
Proof. repeat split. Qed.

Lemma engineReset_spec (now : R) (s : scene) :
  wellFormed s ->
  wellFormed (engineReset now s)
  /\ frame (engineReset now s) = frame s
  /\ atRest (deref (heap (engineReset now s)) (engine (engineReset now s))).
Proof.
  intros [He Hv]. unfold wellFormed, frame, engineReset.
  cbn [heap engine physicsState].
  rewrite length_app, deref_new, deref_alloc by assumption. cbn [length].
  repeat split; lia.
Qed.

Lemma handle_quiet (e : event) (s : scene) :
  wellFormed s -> isSensor e = false ->
  exists s', handle e s = Some s' /\ wellFormed s' /\ frame s' = frame s
             /\ (atRest (deref (heap s) (engine s)) ->
                 atRest (deref (heap s') (engine s'))).
Proof.
  intros Hwf Hq. destruct e as [now | eventData now | | | now]; cbn [handle].
  - eexists. split; [reflexivity |].
    destruct (engineReset_spec now
                (log (Text (units "WebSocket Connected!")) (setIsConnected true s)) Hwf)
      as (H1 & H2 & H3).
    split; [exact H1 | split; [exact H2 | intros _; exact H3]].
  - cbn in Hq. destruct (onmessage eventData); try discriminate;
      eexists; (split; [reflexivity |]);
      (split; [exact Hwf | split; [reflexivity | auto]]).
  - eexists. split; [reflexivity |].
    split; [exact Hwf | split; [reflexivity | auto]].
  - eexists. split; [reflexivity |].
    split; [exact Hwf | split; [reflexivity | auto]].
  - eexists. split; [reflexivity |].
    destruct (engineReset_spec now s Hwf) as (H1 & H2 & H3).
    split; [exact H1 | split; [exact H2 | intros _; exact H3]].
Qed.

Lemma run_quiet (events : list event) (s : scene) :
  wellFormed s -> quiet events ->
  exists s', run events s = Some s' /\ wellFormed s' /\ frame s' = frame s
             /\ (atRest (deref (heap s) (engine s)) ->
                 atRest (deref (heap s') (engine s'))).
Proof.
  revert s. induction events as [| e events IH]; intros s Hwf Hq.
  - exists s. split; [reflexivity | split; [exact Hwf | split; [reflexivity | auto]]].
  - unfold quiet in Hq. cbn [forallb] in Hq. apply andb_true_iff in Hq as [He Hq].
    apply negb_true_iff in He.
    destruct (handle_quiet e s Hwf He) as (s1 & H1 & Hwf1 & Hf1 & Hr1).
    destruct (IH s1 Hwf1 Hq) as (s2 & H2 & Hwf2 & Hf2 & Hr2).
    exists s2. cbn [run]. rewrite H1.
    split; [exact H2 | split; [exact Hwf2 | split; [now rewrite Hf2 | auto]]].
Qed.

(** A reset is not drawn.  [handleReset] puts the engine on a new
    state object and leaves [physicsState.current] on the old one, so
    the mesh keeps the pose it had: through the reset and through
    whatever follows (info messages, messages that are dropped, socket
    errors, a close, a reconnection, more resets) until a sensor
    message arrives.  All that time the engine is at the origin. *)
Theorem reset_is_not_drawn (s : scene) (now : R) (events : list event) :
  wellFormed s -> quiet events ->
  exists s', run (Reset now :: events) s = Some s'
             /\ frame s' = frame s
             /\ atRest (deref (heap s') (engine s')).
Proof.
  intros Hwf Hq.
  destruct (handle_quiet (Reset now) s Hwf eq_refl) as (s1 & H1 & Hwf1 & Hf1 & _).
  assert (Hrest : atRest (deref (heap s1) (engine s1))).
  { cbn [handle] in H1. injection H1 as <-. apply (engineReset_spec now s Hwf). }
  destruct (run_quiet events s1 Hwf1 Hq) as (s2 & H2 & _ & Hf2 & Hr2).
  exists s2. cbn [run]. rewrite H1.
  split; [exact H2 | split; [now rewrite Hf2 | auto]].
Qed.

Lemma reset_is_not_drawn_witness :
  let moved :=
    {| Physics.position := Physics.mkVector3 1 2 3;
       Physics.rotation := Physics.mkQuaternion 0 1 0 0;
       Physics.velocity := Physics.origin;
       Physics.lastUpdate := 4 |} in
  let s := mkScene [Physics.construct; moved] 1 1 true [] in
  exists s', run [Reset 5; Message (units "null") 6; Close; Open 7] s = Some s'
             /\ frame s' = (Physics.mkVector3 1 2 3, Physics.mkQuaternion 0 1 0 0)
             /\ atRest (deref (heap s') (engine s')).
Proof.
  intros moved s.
  apply (reset_is_not_drawn s 5 [Message (units "null") 6; Close; Open 7]).
  - unfold wellFormed. cbn. lia.
  - reflexivity.
Defined.

Lemma handle_linked (e : event) (s s' : scene) :
  linked s -> handle e s = Some s' -> linked s'.
Proof.
  intros [Hwf Hl] H.
  destruct (isSensor e) eqn:Es.
  - destruct e as [now | eventData now | | | now]; try discriminate.
    cbn in Es, H. destruct (onmessage eventData) as [| | | a g]; try discriminate.
    destruct (sampleOf a); [| discriminate]. destruct (sampleOf g); [| discriminate].
    injection H as <-. split; [| now left].
    destruct Hwf as [He Hv]. unfold wellFormed. cbn.
    rewrite length_assign by assumption. lia.
  - destruct (handle_quiet e s Hwf Es) as (s1 & H1 & Hwf1 & _ & Hr1).
    rewrite H in H1. injection H1 as <-. split; [assumption |].
    destruct e as [now | eventData now | | | now]; cbn [handle] in H.
    + right. injection H as <-.
      apply (engineReset_spec now
               (log (Text (units "WebSocket Connected!")) (setIsConnected true s)) Hwf).
    + cbn in Es. destruct (onmessage eventData); try discriminate;
        injection H as <-; exact Hl.
    + injection H as <-. exact Hl.
    + injection H as <-. exact Hl.
    + right. injection H as <-. apply (engineReset_spec now s Hwf).
Qed.

Lemma run_linked (events : list event) (s s' : scene) :
  linked s -> run events s = Some s' -> linked s'.
Proof.
  revert s. induction events as [| e events IH]; intros s Hl H.
  - injection H as <-. exact Hl.
  - cbn [run] in H. destruct (handle e s) as [s1 |] eqn:E1; [| discriminate].
    apply (IH s1); [| exact H]. now apply (handle_linked e s).
Qed.

Lemma mount_linked : linked mount.
Proof. split; [unfold wellFormed; cbn; lia | now left]. Qed.

Lemma handle_numeric (e : event) (s : scene) :
  numeric e = true -> exists s', handle e s = Some s'.
Proof.
  intros H. destruct e as [now | eventData now | | | now]; cbn [handle];
    try (eexists; reflexivity).
  cbn [numeric] in H. destruct (onmessage eventData) as [| msg | | a g];
    try (eexists; reflexivity).
  destruct (sampleOf a); [| discriminate]. destruct (sampleOf g); [| discriminate].
  eexists; reflexivity.
Qed.

Lemma run_numeric (events : list event) (s : scene) :
  forallb numeric events = true -> exists s', run events s = Some s'.
Proof.
  revert s. induction events as [| e events IH]; intros s H.
  - now exists s.
  - cbn [forallb] in H. apply andb_true_iff in H as [He H].
    destruct (handle_numeric e s He) as [s1 H1].
    destruct (IH s1 H) as [s2 H2].
    exists s2. cbn [run]. now rewrite H1.
Qed.

(** The picture never lags behind a moving controller.  Take any
    events since the first render in which every message that reaches
    [update] carries, in both channels, an array that starts with three
    numbers.  The handlers run through all of them, and afterwards the
    mesh is drawn at the pose of the engine's state, unless the engine's
    state is fresh from a reset (at the origin, not rotated, not
    moving). *)
Theorem picture_follows_engine (events : list event) :
  forallb numeric events = true ->
  exists s, run events mount = Some s
            /\ (frame s = pose (deref (heap s) (engine s))
                \/ atRest (deref (heap s) (engine s))).
Proof.
  intros Hnum. destruct (run_numeric events mount Hnum) as [s H].
  exists s. split; [exact H |].
  destruct (run_linked events mount s mount_linked H) as [_ [Hl | Hr]].
  - left. unfold frame. now rewrite Hl.
  - now right.
Qed.

Lemma picture_follows_engine_witness :
  let sensor :=
    quoted "{'Motion Accel':{'values':[0,9.81,0]},'Pseudo Gyro':{'values':[0.1,0,0]}}" in
  let events := [Open 5; Message sensor 6; Message sensor 22; Message (units "null") 30;
                 Reset 40; SocketError] in
  forallb numeric events = true
  /\ exists s, run events mount = Some s
               /\ (frame s = pose (deref (heap s) (engine s))
                   \/ atRest (deref (heap s) (engine s))).
Proof.
  intros sensor events.
  assert (Hnum : forallb numeric events = true) by reflexivity.
  split; [exact Hnum |].
  exact (picture_follows_engine events Hnum).
Defined.

(** ** Messages *)

Lemma numberValue_examples :
  (numberValue (units "9.81") = 9.81
   /\ numberValue (units "-0.5") = -0.5
   /\ numberValue (units "25e-1") = 2.5
   /\ numberValue (units "1.5E+2") = 150
   /\ numberValue (units "0") = 0)%R.
Proof.
  unfold numberValue. cbn. unfold Pos.to_nat. cbn. repeat split; lra.
Qed.

Lemma sampleOf_truthy (v : value) (sample : Physics.sample) :
  sampleOf v = Some sample -> truthy v = true.
Proof. destruct v as [| [] |]; try discriminate. reflexivity. Qed.

Lemma route_object (members : list (jsstring * json)) :
  route (JObject members)
  = if isInfo (get (JObject members) (units "type"))
    then Info (get (JObject members) (units "msg"))
    else
      let accelData := valuesOf (get (JObject members) (units "Motion Accel")) in
      let gyroData := valuesOf (get (JObject members) (units "Pseudo Gyro")) in
      if truthy accelData && truthy gyroData then Update accelData gyroData
      else Ignored.
Proof. reflexivity. Qed.

(** A sensor message is integrated and drawn.  When the text parses to
    a record that is not an info message and whose two channels carry
    arrays that start with three numbers, the handler runs [update] on
    the engine's state with those numbers and the time of arrival, and
    from then on the mesh is drawn at the pose of that state; nothing is
    logged. *)
Theorem sensor_message_is_drawn (s : scene) (eventData : jsstring) (now : R)
  (data : json) (accel gyro : Physics.sample) :
  wellFormed s ->
  parse eventData = Some data ->
  isInfo (get data (units "type")) = false ->
  sampleOf (valuesOf (get data (units "Motion Accel"))) = Some accel ->
  sampleOf (valuesOf (get data (units "Pseudo Gyro"))) = Some gyro ->
  exists s',
    handle (Message eventData now) s = Some s'
    /\ deref (heap s') (engine s')
       = Physics.update (deref (heap s) (engine s)) accel gyro now
    /\ frame s' = pose (deref (heap s') (engine s'))
    /\ engine s' = engine s
    /\ statusLog s' = statusLog s.
Proof.
  intros [He Hv] Hparse Hinfo Ha Hg.
  assert (Hroute : onmessage eventData
                   = Update (valuesOf (get data (units "Motion Accel")))
                            (valuesOf (get data (units "Pseudo Gyro")))).
  { unfold onmessage. rewrite Hparse.
    destruct data; try discriminate Ha.
    rewrite route_object, Hinfo. cbv zeta.
    now rewrite (sampleOf_truthy _ _ Ha), (sampleOf_truthy _ _ Hg). }
  eexists. cbn [handle]. rewrite Hroute, Ha, Hg.
  split; [reflexivity |]. unfold frame, engineUpdate.
  cbn [heap engine physicsState statusLog].
  rewrite deref_assign by assumption. repeat split.
Qed.

Lemma sensor_message_is_drawn_witness :
  let eventData :=
    quoted "{'Motion Accel':{'values':[0,9.81,0]},'Pseudo Gyro':{'values':[0.1,0,0]}}" in
  let accel := (numberValue (units "0"), numberValue (units "9.81"), numberValue (units "0")) in
  let gyro := (numberValue (units "0.1"), numberValue (units "0"), numberValue (units "0")) in
  exists s',
    handle (Message eventData 16) mount = Some s'
    /\ deref (heap s') (engine s')
       = Physics.update (deref (heap mount) (engine mount)) accel gyro 16
    /\ frame s' = pose (deref (heap s') (engine s'))
    /\ engine s' = engine mount
    /\ statusLog s' = statusLog mount.
Proof.
  intros eventData accel gyro.
  apply (sensor_message_is_drawn mount eventData 16
           (JObject
              [(units "Motion Accel",
                JObject [(units "values",
                          JArray [JNumber (units "0"); JNumber (units "9.81");
                                  JNumber (units "0")])]);
               (units "Pseudo Gyro",
                JObject [(units "values",
                          JArray [JNumber (units "0.1"); JNumber (units "0");
                                  JNumber (units "0")])])])
           accel gyro).
  - unfold wellFormed. cbn. lia.
  - vm_compute. reflexivity.
  - reflexivity.
  - reflexivity.
  - reflexivity.
Defined.

(** [update] is reached only by records with both channels.  If the
    handler gets as far as calling [update], the text is a JSON object,
    its [type] is not the string info, both channel names are among its
    members, and the two arguments are the [values] of the channels
    (the last binding of each name), both truthy.  Text that does not
    parse, [null], arrays, strings, numbers, info messages and records
    that lack a channel never reach the engine. *)
Theorem update_needs_both_channels (eventData : jsstring) (accelData gyroData : value) :
  onmessage eventData = Update accelData gyroData ->
  exists members accel gyro,
    parse eventData = Some (JObject members)
    /\ isInfo (get (JObject members) (units "type")) = false
    /\ getOwn members (units "Motion Accel") = Some accel
    /\ getOwn members (units "Pseudo Gyro") = Some gyro
    /\ accelData = valuesOf (Parsed accel) /\ truthy accelData = true
    /\ gyroData = valuesOf (Parsed gyro) /\ truthy gyroData = true.
Proof.
  unfold onmessage. destruct (parse eventData) as [data |]; [| discriminate].
  destruct data as [| b | token | str | elements | members]; try discriminate.
  rewrite route_object. cbv zeta.
  destruct (isInfo (get (JObject members) (units "type"))) eqn:Ei; [discriminate |].
  unfold get.
  destruct (getOwn members (units "Motion Accel")) as [accel |] eqn:Ea;
    [| discriminate].
  destruct (getOwn members (units "Pseudo Gyro")) as [gyro |] eqn:Eg;
    [| now rewrite andb_false_r].
  destruct (truthy (valuesOf (Parsed accel))) eqn:Ta; [| discriminate].
  destruct (truthy (valuesOf (Parsed gyro))) eqn:Tg; [| discriminate].
  cbn [andb]. intros [= <- <-].
  exists members, accel, gyro. repeat split; assumption || reflexivity.
Qed.

Lemma update_needs_both_channels_witness :
  let eventData :=
    quoted "{'Motion Accel':{'values':[0,9.81,0]},'Pseudo Gyro':{'values':[0.1,0,0]}}" in
  let accelData :=
    Parsed (JArray [JNumber (units "0"); JNumber (units "9.81"); JNumber (units "0")]) in
  let gyroData :=
    Parsed (JArray [JNumber (units "0.1"); JNumber (units "0"); JNumber (units "0")]) in
  exists members accel gyro,
    parse eventData = Some (JObject members)
    /\ isInfo (get (JObject members) (units "type")) = false
    /\ getOwn members (units "Motion Accel") = Some accel
    /\ getOwn members (units "Pseudo Gyro") = Some gyro
    /\ accelData = valuesOf (Parsed accel) /\ truthy accelData = true
    /\ gyroData = valuesOf (Parsed gyro) /\ truthy gyroData = true.
Proof.
  intros eventData accelData gyroData.
  apply (update_needs_both_channels eventData accelData gyroData).
  vm_compute. reflexivity.
Defined.

End AppSpec.

(* ================================================================== *)
(** * The unit norm of the rotation, with rounding *)
(* ================================================================== *)

Module RoundedSpec.
Import Physics PhysicsTerms Rounded RoundedTerms PhysicsSpec.
Local Open Scope R_scope.

(** ** Exact arithmetic gives the exact estimator *)

Lemma multiplyQuaternions_exact (p q : Quaternion) :
  Rounded.multiplyQuaternions Rounded.exact p q = Physics.multiplyQuaternions p q.
Proof. reflexivity. Qed.

Lemma applyQuaternion_exact (v : Vector3) (q : Quaternion) :
  Rounded.applyQuaternion Rounded.exact v q = Physics.applyQuaternion v q.
Proof. reflexivity. Qed.

Lemma timeDelta_exact (st : ControllerState) (t : R) :
  Rounded.timeDelta Rounded.exact st t = Physics.timeDelta st t.
Proof. reflexivity. Qed.

Lemma integrateGyro_exact (rot : Quaternion) (gyro : sample) (dt : R) :
  Rounded.integrateGyro Rounded.exact rot gyro dt = Physics.integrateGyro rot gyro dt.
Proof. destruct gyro as [[gx gy] gz]. reflexivity. Qed.

Lemma worldAccelRaw_exact (accel : sample) (rot : Quaternion) :
  Rounded.worldAccelRaw Rounded.exact accel rot = Physics.worldAccelRaw accel rot.
Proof. destruct accel as [[ax ay] az]. reflexivity. Qed.

Lemma deadZone_exact (a : Vector3) :
  Rounded.deadZone Rounded.exact a = Physics.deadZone a.
Proof. reflexivity. Qed.

Lemma zeroVelocity_exact (a : Vector3) :
  Rounded.zeroVelocity Rounded.exact a = Physics.zeroVelocity a.
Proof. reflexivity. Qed.

Lemma update_exact (st : ControllerState) (accel gyro : sample) (t : R) :
  Rounded.update Rounded.exact st accel gyro t = Physics.update st accel gyro t.
Proof.
  unfold Rounded.update, Physics.update. cbv zeta.
  rewrite timeDelta_exact.
  destruct (rejected (Physics.timeDelta st t)); [reflexivity |].
  rewrite integrateGyro_exact, worldAccelRaw_exact, deadZone_exact, zeroVelocity_exact.
  cbn [position rotation velocity lastUpdate].
  destruct (Physics.zeroVelocity _); reflexivity.
Qed.

(** ** One rounding *)

Lemma Rabs_bound (x a : R) : Rabs x <= a -> - a <= x <= a.
Proof. unfold Rabs. destruct (Rcase_abs x); lra. Qed.

Section Accurate.

Variable ar : Arithmetic.
Hypothesis Hacc : accurate ar.

Lemma round_within (x B : R) :
  Rabs x <= B -> B <= 1e308 ->
  Rabs (round ar x - x) <= 1e-9 * B + 1e-9.
Proof.
  intros Hx HB. destruct Hacc as [Hr _].
  assert (H := Hr x (Rle_trans _ _ _ Hx HB)). lra.
Qed.

(** A sum of two approximations of non-negative quantities. *)
Lemma add_relative (p q p' q' a b c : R) :
  0 <= p -> 0 <= q -> p + q <= 1e300 ->
  0 <= a <= 1e-8 -> 0 <= b <= 1e-7 -> 0 <= c <= 1e-7 ->
  Rabs (p' - p) <= a * p + b ->
  Rabs (q' - q) <= a * q + c ->
  Rabs (add ar p' q' - (p + q)) <= (a + 1.1e-9) * (p + q) + (b + c + 1.1e-9).
Proof.
  intros Hp Hq Hpq Ha Hb Hc Hp' Hq'. unfold add.
  apply Rabs_bound in Hp'. apply Rabs_bound in Hq'.
  assert (Hap : 0 <= a * p) by (apply Rmult_le_pos; lra).
  assert (Haq : 0 <= a * q) by (apply Rmult_le_pos; lra).
  assert (Hap' : a * p <= 1e-8 * p) by (apply Rmult_le_compat_r; lra).
  assert (Haq' : a * q <= 1e-8 * q) by (apply Rmult_le_compat_r; lra).
  assert (Ht : Rabs (p' + q') <= 1.00000001 * (p + q) + (b + c)).
  { apply Rabs_le. lra. }
  assert (Hr := round_within (p' + q') _ Ht).
  assert (Hbig : 1.00000001 * (p + q) + (b + c) <= 1e308) by lra.
  specialize (Hr Hbig). apply Rabs_bound in Hr.
  apply Rabs_le. lra.
Qed.

Lemma sqrt_relative (N2 n S k : R) :
  0 < n -> N2 = n * n -> 0 <= k <= 1e-6 ->
  Rabs (S - N2) <= k * N2 ->
  Rabs (sqrt S - n) <= k * n.
Proof.
  intros Hn -> Hk HS. apply Rabs_bound in HS.
  assert (Hnn : 0 < n * n) by nra.
  assert (Hup : sqrt S <= n * (1 + k)).
  { rewrite <- (sqrt_square (n * (1 + k))) by nra.
    apply sqrt_le_1_alt. nra. }
  assert (Hlo : n * (1 - k) <= sqrt S).
  { rewrite <- (sqrt_square (n * (1 - k))) by nra.
    apply sqrt_le_1_alt. nra. }
  apply Rabs_le. lra.
Qed.

(** One component of a normalized quaternion: [c / mag] as stored. *)
Lemma component_close (c n mag : R) :
  0.44 <= n -> Rabs c <= n -> Rabs (mag - n) <= 6e-8 * n ->
  let v := c / mag in
  Rabs v <= 1.0000001
  /\ Rabs (div ar c mag * div ar c mag - v * v) <= 5e-9.
Proof.
  intros Hn Hc Hmag v. apply Rabs_bound in Hmag. apply Rabs_bound in Hc.
  assert (Hm : 0 < mag) by nra.
  assert (Hv : - 1.0000001 <= v <= 1.0000001).
  { subst v. split.
    - apply (Rmult_le_reg_r mag); [exact Hm |].
      unfold Rdiv. rewrite Rmult_assoc, Rinv_l by lra. nra.
    - apply (Rmult_le_reg_r mag); [exact Hm |].
      unfold Rdiv. rewrite Rmult_assoc, Rinv_l by lra. nra. }
  assert (Hva : Rabs v <= 1.0000001) by (apply Rabs_le; lra).
  split; [exact Hva |].
  assert (Hr := round_within v 1.0000001 Hva).
  assert (Hbig : 1.0000001 <= 1e308) by lra. specialize (Hr Hbig).
  apply Rabs_bound in Hr. unfold div. fold v.
  set (c' := round ar v) in *.
  apply Rabs_le. nra.
Qed.

(** Normalization as the engine does it: the squares summed from the
    left, the square root, four divisions.  Whatever the quaternion,
    if its exact squared norm is between 0.2 and 1e300, the stored
    result has a squared norm within 1e-6 of 1. *)
Lemma normalized_unit (x y z w sx sy sz sw : R) :
  0.2 <= x * x + y * y + z * z + w * w <= 1e300 ->
  Rabs (sx - x * x) <= 1e-9 * (x * x) + 1e-9 ->
  Rabs (sy - y * y) <= 1e-9 * (y * y) + 1e-9 ->
  Rabs (sz - z * z) <= 1e-9 * (z * z) + 1e-9 ->
  Rabs (sw - w * w) <= 1e-9 * (w * w) + 1e-9 ->
  let mag := root ar (add ar (add ar (add ar sx sy) sz) sw) in
  Rabs (sumsq {| qx := div ar x mag; qy := div ar y mag;
                 qz := div ar z mag; qw := div ar w mag |} - 1) <= 1e-6.
Proof.
  intros HN Hsx Hsy Hsz Hsw mag.
  set (N2 := x * x + y * y + z * z + w * w) in *.
  assert (Hxx : 0 <= x * x) by nra. assert (Hyy : 0 <= y * y) by nra.
  assert (Hzz : 0 <= z * z) by nra. assert (Hww : 0 <= w * w) by nra.
  set (n := sqrt N2).
  assert (Hnn : n * n = N2) by (apply sqrt_sqrt; lra).
  assert (Hn0 : 0.44 <= n).
  { rewrite <- (sqrt_square 0.44) by lra. apply sqrt_le_1_alt. lra. }
  assert (Hn1 : n <= 1e150).
  { rewrite <- (sqrt_square 1e150) by lra. apply sqrt_le_1_alt. lra. }
  (* the sum of the squares *)
  assert (H1 := add_relative (x * x) (y * y) sx sy 1e-9 1e-9 1e-9).
  assert (Ht1 : Rabs (add ar sx sy - (x * x + y * y))
                <= 2.1e-9 * (x * x + y * y) + 3.1e-9).
  { eapply Rle_trans; [apply H1; try lra; unfold N2 in HN; lra | lra]. }
  clear H1.
  assert (H2 := add_relative (x * x + y * y) (z * z) (add ar sx sy) sz 2.1e-9 3.1e-9 1e-9).
  assert (Ht2 : Rabs (add ar (add ar sx sy) sz - (x * x + y * y + z * z))
                <= 3.2e-9 * (x * x + y * y + z * z) + 5.2e-9).
  { eapply Rle_trans; [apply H2; try lra; unfold N2 in HN; lra | lra]. }
  clear H2.
  assert (H3 := add_relative (x * x + y * y + z * z) (w * w)
                  (add ar (add ar sx sy) sz) sw 3.2e-9 5.2e-9 1e-9).
  assert (Ht3 : Rabs (add ar (add ar (add ar sx sy) sz) sw - N2) <= 5e-8 * N2).
  { eapply Rle_trans; [apply H3; try lra; unfold N2 in HN; lra | unfold N2 in *; lra]. }
  clear H3 Ht1 Ht2.
  set (S := add ar (add ar (add ar sx sy) sz) sw) in *.
  (* the square root *)
  assert (Hroot : Rabs (sqrt S - n) <= 5e-8 * n).
  { apply (sqrt_relative N2); [lra | now symmetry | lra | exact Ht3]. }
  assert (Hmag : Rabs (mag - n) <= 6e-8 * n).
  { subst mag. unfold root. apply Rabs_bound in Hroot.
    assert (Hb : Rabs (sqrt S) <= 1.1e150) by (apply Rabs_le; lra).
    assert (Hr := round_within (sqrt S) 1.1e150 Hb).
    assert (Hbig : 1.1e150 <= 1e308) by lra. specialize (Hr Hbig).
    assert (Hb' : Rabs (sqrt S) <= 1.0000001 * n) by (apply Rabs_le; lra).
    destruct Hacc as [Hround _].
    assert (Hr' := Hround (sqrt S) (Rle_trans _ _ _ Hb Hbig)).
    apply Rabs_bound in Hr'. apply Rabs_le. lra. }
  (* the components *)
  assert (Hcomp : forall c, c * c <= N2 -> Rabs c <= n).
  { intros c Hc. apply Rabs_le. rewrite <- Hnn in Hc. nra. }
  destruct (component_close x n mag Hn0 (Hcomp x ltac:(unfold N2; lra)) Hmag) as [_ Hx].
  destruct (component_close y n mag Hn0 (Hcomp y ltac:(unfold N2; lra)) Hmag) as [_ Hy].
  destruct (component_close z n mag Hn0 (Hcomp z ltac:(unfold N2; lra)) Hmag) as [_ Hz].
  destruct (component_close w n mag Hn0 (Hcomp w ltac:(unfold N2; lra)) Hmag) as [_ Hw].
  apply Rabs_bound in Hx, Hy, Hz, Hw, Hmag.
  assert (Hm : 0 < mag) by nra.
  assert (Hexact : x / mag * (x / mag) + y / mag * (y / mag)
                   + z / mag * (z / mag) + w / mag * (w / mag)
                   = N2 / (mag * mag)).
  { unfold N2. field. lra. }
  assert (Hm2 : 0 < mag * mag) by nra.
  assert (Hratio : 1 - 1.3e-7 <= N2 / (mag * mag) <= 1 + 1.3e-7).
  { rewrite <- Hnn. split.
    - apply (Rmult_le_reg_r (mag * mag)); [exact Hm2 |].
      unfold Rdiv. rewrite Rmult_assoc, Rinv_l by lra. nra.
    - apply (Rmult_le_reg_r (mag * mag)); [exact Hm2 |].
      unfold Rdiv. rewrite Rmult_assoc, Rinv_l by lra. nra. }
  unfold sumsq. cbn [qx qy qz qw]. apply Rabs_le. lra.
Qed.

(** ** The increment *)

Lemma scaled_bound (g dt : R) :
  Rabs g <= 1e150 -> 0 < dt <= 1 ->
  Rabs (mul ar (mul ar g dt) 0.5) <= 5.1e149.
Proof.
  intros Hg Hdt. unfold mul. apply Rabs_bound in Hg.
  assert (H1 : Rabs (g * dt) <= 1e150) by (apply Rabs_le; nra).
  assert (Hr1 := round_within (g * dt) 1e150 H1 ltac:(lra)).
  apply Rabs_bound in H1, Hr1.
  set (m := round ar (g * dt)) in *.
  assert (H2 : Rabs (m * 0.5) <= 5.05e149) by (apply Rabs_le; lra).
  assert (Hr2 := round_within (m * 0.5) 5.05e149 H2 ltac:(lra)).
  apply Rabs_bound in H2, Hr2. apply Rabs_le. lra.
Qed.

Lemma product_square (a : R) :
  Rabs a <= 5.1e149 ->
  a * a <= 2.7e299
  /\ Rabs (mul ar a a - a * a) <= 1e-9 * (a * a) + 1e-9.
Proof.
  intros Ha. apply Rabs_bound in Ha.
  assert (Haa : 0 <= a * a <= 2.7e299) by nra.
  split; [lra |]. unfold mul. destruct Hacc as [Hround _].
  assert (H := Hround (a * a)). rewrite (Rabs_pos_eq (a * a)) in H by lra.
  apply H. lra.
Qed.

(** ** The product *)

Lemma mul_close (a b : R) :
  Rabs a <= 2.001 -> Rabs b <= 1.001 ->
  Rabs (mul ar a b - a * b) <= 4e-9 /\ Rabs (a * b) <= 2.1.
Proof.
  intros Ha Hb. apply Rabs_bound in Ha, Hb.
  assert (Hab : Rabs (a * b) <= 2.1) by (apply Rabs_le; nra).
  split; [| exact Hab]. unfold mul.
  assert (H := round_within (a * b) 2.1 Hab ltac:(lra)). lra.
Qed.

Lemma add_close (p q p' q' e1 e2 : R) :
  Rabs (p' - p) <= e1 -> Rabs (q' - q) <= e2 ->
  Rabs p + Rabs q + e1 + e2 <= 10 ->
  Rabs (add ar p' q' - (p + q)) <= e1 + e2 + 1.1e-8
  /\ Rabs (p + q) <= Rabs p + Rabs q.
Proof.
  intros Hp Hq Hsum. split; [| apply Rabs_triang]. unfold add.
  apply Rabs_bound in Hp, Hq.
  assert (Hp0 := Rabs_bound p _ (Rle_refl _)).
  assert (Hq0 := Rabs_bound q _ (Rle_refl _)).
  assert (Ht : Rabs (p' + q') <= 10) by (apply Rabs_le; lra).
  assert (H := round_within (p' + q') 10 Ht ltac:(lra)).
  apply Rabs_bound in H. apply Rabs_le. lra.
Qed.

Lemma sub_close (p q p' q' e1 e2 : R) :
  Rabs (p' - p) <= e1 -> Rabs (q' - q) <= e2 ->
  Rabs p + Rabs q + e1 + e2 <= 10 ->
  Rabs (sub ar p' q' - (p - q)) <= e1 + e2 + 1.1e-8
  /\ Rabs (p - q) <= Rabs p + Rabs q.
Proof.
  intros Hp Hq Hsum.
  destruct (add_close p (- q) p' (- q') e1 e2) as [H1 H2].
  - exact Hp.
  - replace (- q' - - q) with (- (q' - q)) by ring. now rewrite Rabs_Ropp.
  - now rewrite Rabs_Ropp.
  - rewrite Rabs_Ropp in H2. split; [exact H1 | exact H2].
Qed.

(** Four products combined from the left, the second and the third
    added or subtracted, the fourth added: one component of
    [multiplyQuaternions]. *)
Lemma four_close (s2 s3 : bool) (a1 b1 a2 b2 a3 b3 a4 b4 : R) :
  Rabs a1 <= 2.001 -> Rabs b1 <= 1.001 ->
  Rabs a2 <= 2.001 -> Rabs b2 <= 1.001 ->
  Rabs a3 <= 2.001 -> Rabs b3 <= 1.001 ->
  Rabs a4 <= 2.001 -> Rabs b4 <= 1.001 ->
  Rabs (add ar ((if s3 then sub ar else add ar)
                  ((if s2 then sub ar else add ar) (mul ar a1 b1) (mul ar a2 b2))
                  (mul ar a3 b3))
               (mul ar a4 b4)
        - ((if s3 then Rminus else Rplus)
             ((if s2 then Rminus else Rplus) (a1 * b1) (a2 * b2)) (a3 * b3)
           + a4 * b4)) <= 1e-7.
Proof.
  intros Ha1 Hb1 Ha2 Hb2 Ha3 Hb3 Ha4 Hb4.
  destruct (mul_close a1 b1 Ha1 Hb1) as [E1 M1].
  destruct (mul_close a2 b2 Ha2 Hb2) as [E2 M2].
  destruct (mul_close a3 b3 Ha3 Hb3) as [E3 M3].
  destruct (mul_close a4 b4 Ha4 Hb4) as [E4 M4].
  assert (S1 : Rabs ((if s2 then sub ar else add ar) (mul ar a1 b1) (mul ar a2 b2)
                     - (if s2 then Rminus else Rplus) (a1 * b1) (a2 * b2))
               <= 4e-9 + 4e-9 + 1.1e-8
               /\ Rabs ((if s2 then Rminus else Rplus) (a1 * b1) (a2 * b2))
                  <= Rabs (a1 * b1) + Rabs (a2 * b2)).
  { destruct s2; [apply sub_close | apply add_close]; try assumption; lra. }
  destruct S1 as [E12 M12].
  set (t1 := (if s2 then sub ar else add ar) (mul ar a1 b1) (mul ar a2 b2)) in *.
  set (x1 := (if s2 then Rminus else Rplus) (a1 * b1) (a2 * b2)) in *.
  assert (S2 : Rabs ((if s3 then sub ar else add ar) t1 (mul ar a3 b3)
                     - (if s3 then Rminus else Rplus) x1 (a3 * b3))
               <= (4e-9 + 4e-9 + 1.1e-8) + 4e-9 + 1.1e-8
               /\ Rabs ((if s3 then Rminus else Rplus) x1 (a3 * b3))
                  <= Rabs x1 + Rabs (a3 * b3)).
  { destruct s3; [apply sub_close | apply add_close]; try assumption; lra. }
  destruct S2 as [E123 M123].
  set (t2 := (if s3 then sub ar else add ar) t1 (mul ar a3 b3)) in *.
  set (x2 := (if s3 then Rminus else Rplus) x1 (a3 * b3)) in *.
  destruct (add_close x2 (a4 * b4) t2 (mul ar a4 b4) _ _ E123 E4) as [E _]; lra.
Qed.

Lemma product_close (a b : Quaternion) :
  Rabs (qx a) <= 2.001 -> Rabs (qy a) <= 2.001 ->
  Rabs (qz a) <= 2.001 -> Rabs (qw a) <= 2.001 ->
  Rabs (qx b) <= 1.001 -> Rabs (qy b) <= 1.001 ->
  Rabs (qz b) <= 1.001 -> Rabs (qw b) <= 1.001 ->
  let p' := Rounded.multiplyQuaternions ar a b in
  let p := Physics.multiplyQuaternions a b in
  Rabs (qx p' - qx p) <= 1e-7 /\ Rabs (qy p' - qy p) <= 1e-7
  /\ Rabs (qz p' - qz p) <= 1e-7 /\ Rabs (qw p' - qw p) <= 1e-7.
Proof.
  intros Hax Hay Haz Haw Hbx Hby Hbz Hbw p' p.
  assert (Hnx : Rabs (- qx a) <= 2.001) by now rewrite Rabs_Ropp.
  subst p' p. unfold Rounded.multiplyQuaternions, Physics.multiplyQuaternions.
  cbn [qx qy qz qw].
  split; [| split; [| split]].
  - exact (four_close false true _ _ _ _ _ _ _ _ Hax Hbw Hay Hbz Haz Hby Haw Hbx).
  - exact (four_close false false _ _ _ _ _ _ _ _ Hnx Hbz Hay Hbw Haz Hbx Haw Hby).
  - exact (four_close true false _ _ _ _ _ _ _ _ Hax Hby Hay Hbx Haz Hbw Haw Hbz).
  - exact (four_close true true _ _ _ _ _ _ _ _ Hnx Hbx Hay Hby Haz Hbz Haw Hbw).
Qed.

(** ** The rotation block *)

Lemma component_bound (q : Quaternion) (B b : R) :
  sumsq q <= B -> 0 <= b -> B <= b * b ->
  Rabs (qx q) <= b /\ Rabs (qy q) <= b /\ Rabs (qz q) <= b /\ Rabs (qw q) <= b.
Proof.
  intros Hs Hb HB. unfold sumsq in Hs.
  repeat split; apply Rabs_le; nra.
Qed.

Lemma square_close (c d : R) :
  Rabs (c - d) <= 1e-7 -> Rabs d <= 2.1 -> Rabs (c * c - d * d) <= 4.3e-7.
Proof.
  intros Hc Hd. apply Rabs_bound in Hc, Hd. apply Rabs_le. nra.
Qed.

Lemma integrateGyro_near_unit (rot : Quaternion) (gx gy gz dt : R) :
  0 < dt <= 1 ->
  Rabs gx <= 1e150 -> Rabs gy <= 1e150 -> Rabs gz <= 1e150 ->
  0.25 <= sumsq rot <= 4 ->
  Rabs (sumsq (Rounded.integrateGyro ar rot (gx, gy, gz) dt) - 1) <= 1e-6.
Proof.
  intros Hdt Hgx Hgy Hgz Hrot.
  unfold Rounded.integrateGyro. cbv zeta. cbn [qx qy qz qw].
  set (a := mul ar (mul ar gx dt) 0.5).
  set (b := mul ar (mul ar gy dt) 0.5).
  set (c := mul ar (mul ar gz dt) 0.5).
  destruct (product_square a (scaled_bound gx dt Hgx Hdt)) as [Ba Sa].
  destruct (product_square b (scaled_bound gy dt Hgy Hdt)) as [Bb Sb].
  destruct (product_square c (scaled_bound gz dt Hgz Hdt)) as [Bc Sc].
  assert (S1 : Rabs (mul ar 1 1 - 1 * 1) <= 1e-9 * (1 * 1) + 1e-9).
  { unfold mul. assert (H := round_within (1 * 1) 1 ltac:(apply Rabs_le; lra) ltac:(lra)).
    lra. }
  set (dmag := root ar (add ar (add ar (add ar (mul ar a a) (mul ar b b)) (mul ar c c))
                               (mul ar 1 1))).
  assert (Hd := normalized_unit a b c 1 _ _ _ _ ltac:(nra) Sa Sb Sc S1).
  cbv zeta in Hd. fold dmag in Hd.
  set (dQ := {| qx := div ar a dmag; qy := div ar b dmag;
                qz := div ar c dmag; qw := div ar 1 dmag |}) in *.
  apply Rabs_bound in Hd.
  destruct (component_bound dQ 1.000001 1.001 ltac:(lra) ltac:(lra) ltac:(lra))
    as (Dx & Dy & Dz & Dw).
  destruct (component_bound rot 4 2.001 ltac:(lra) ltac:(lra) ltac:(lra))
    as (Rx & Ry & Rz & Rw).
  destruct (product_close rot dQ Rx Ry Rz Rw Dx Dy Dz Dw) as (Px & Py & Pz & Pw).
  set (p' := Rounded.multiplyQuaternions ar rot dQ) in *.
  set (p := Physics.multiplyQuaternions rot dQ) in *.
  assert (Hp : sumsq p = sumsq rot * sumsq dQ) by apply sumsq_multiply.
  assert (Hpb : 0.2499 <= sumsq p <= 4.1) by nra.
  destruct (component_bound p 4.1 2.1 ltac:(lra) ltac:(lra) ltac:(lra))
    as (Ex & Ey & Ez & Ew).
  assert (Qx := square_close _ _ Px Ex). assert (Qy := square_close _ _ Py Ey).
  assert (Qz := square_close _ _ Pz Ez). assert (Qw := square_close _ _ Pw Ew).
  apply Rabs_bound in Qx, Qy, Qz, Qw.
  assert (Hn : 0.2 <= qx p' * qx p' + qy p' * qy p' + qz p' * qz p' + qw p' * qw p'
               <= 1e300).
  { unfold sumsq in Hpb. lra. }
  destruct Hacc as [_ Hsq].
  apply (normalized_unit (qx p') (qy p') (qz p') (qw p') _ _ _ _ Hn);
    apply Hsq; nra.
Qed.

(** ** Calls *)

Lemma update_rotation (st : ControllerState) (accel gyro : sample) (timestamp : R) :
  rotation (Rounded.update ar st accel gyro timestamp)
  = if rejected (Rounded.timeDelta ar st timestamp) then rotation st
    else Rounded.integrateGyro ar (rotation st) gyro (Rounded.timeDelta ar st timestamp).
Proof.
  unfold Rounded.update. cbv zeta.
  destruct (rejected (Rounded.timeDelta ar st timestamp)); reflexivity.
Qed.

Lemma norm_close (q : Quaternion) :
  Rabs (sumsq q - 1) <= 1e-6 -> Rabs (norm q - 1) <= 1e-6.
Proof.
  intros H. rewrite norm_sumsq. apply Rabs_bound in H.
  assert (Hs : sqrt (sumsq q) * sqrt (sumsq q) = sumsq q) by (apply sqrt_sqrt; lra).
  assert (Hr := sqrt_pos (sumsq q)).
  apply Rabs_le. nra.
Qed.

Lemma perform_unit (st : ControllerState) (c : call) :
  moderate c ->
  Rabs (sumsq (rotation st) - 1) <= 1e-6 ->
  Rabs (sumsq (rotation (perform ar st c)) - 1) <= 1e-6.
Proof.
  intros Hc Hst. destruct c as [accel [[gx gy] gz] timestamp | now]; cbn [perform].
  - rewrite update_rotation.
    destruct (rejected (Rounded.timeDelta ar st timestamp)) eqn:E; [exact Hst |].
    apply rejected_false in E. destruct Hc as (Hx & Hy & Hz).
    apply Rabs_bound in Hst. apply integrateGyro_near_unit; try assumption. lra.
  - unfold reset, sumsq. cbn. apply Rabs_le. lra.
Qed.

Lemma run_unit_rounded (calls : list call) (st : ControllerState) :
  Forall moderate calls ->
  Rabs (sumsq (rotation st) - 1) <= 1e-6 ->
  Rabs (sumsq (rotation (run ar calls st)) - 1) <= 1e-6.
Proof.
  intros Hall. revert st. induction Hall as [| c calls Hc _ IH]; intros st Hst;
    [exact Hst |].
  cbn. apply IH. now apply perform_unit.
Qed.

End Accurate.

Lemma sloppy_accurate : accurate sloppy.
Proof.
  split; intros x _; cbn [sloppy round square].
  - unfold Rabs. repeat destruct Rcase_abs; lra.
  - assert (0 <= x * x) by nra.
    unfold Rabs. destruct Rcase_abs; lra.
Qed.

(** C1, as amended.  Let the arithmetic be accurate (every operation
    of the rotation block stores its exact result up to a relative
    error of 1e-9 plus 1e-9, as binary64 does while nothing overflows)
    and let every sample hold three numbers, those of the gyroscope at
    most 1e150 in magnitude.  Start from [construct()] and make any
    finite sequence of calls to [update] and [reset()]: after the last
    call, hence after each call, the Euclidean norm of the rotation is
    within 1e-6 of 1.  The empty sequence is [construct()] itself and a
    sequence ending in [reset()] is the state [reset()] leaves: both
    hold the identity quaternion (0,0,0,1). *)
Theorem C1_unit_norm (ar : Arithmetic) (calls : list call) :
  accurate ar -> Forall moderate calls ->
  Rabs (norm (rotation (run ar calls construct)) - 1) <= 1e-6
  /\ rotation construct = mkQuaternion 0 0 0 1
  /\ forall now, rotation (run ar (calls ++ [Reset now]) construct) = mkQuaternion 0 0 0 1.
Proof.
  intros Hacc Hall. split; [| split].
  - apply norm_close, run_unit_rounded; try assumption.
    unfold sumsq. cbn. apply Rabs_le. lra.
  - reflexivity.
  - intros now. unfold run. rewrite fold_left_app. reflexivity.
Qed.

Lemma C1_unit_norm_witness :
  let calls := [Update (0, 9.81, 0) (1, 2, 3) 1000;
                Update (0, 9.81, 0) (1, 2, 3) 1016;
                Reset 2000;
                Update (0.3, 9.81, 0) (-4, 0, 1e100) 2016] in
  accurate sloppy /\ Forall moderate calls
  /\ Rabs (norm (rotation (run sloppy calls construct)) - 1) <= 1e-6
  /\ rotation construct = mkQuaternion 0 0 0 1
  /\ forall now, rotation (run sloppy (calls ++ [Reset now]) construct)
                 = mkQuaternion 0 0 0 1.
Proof.
  intros calls.
  assert (Hall : Forall moderate calls).
  { repeat (apply Forall_cons;
              [first [exact I | repeat split; apply Rabs_le; lra] |]).
    apply Forall_nil. }
  split; [exact sloppy_accurate |]. split; [exact Hall |].
  exact (C1_unit_norm sloppy calls sloppy_accurate Hall).
Defined.

(** Renormalization repairs drift.  With accurate arithmetic and a
    gyroscope reading of at most 1e150 on each axis, an accepted update
    leaves a rotation whose norm is within 1e-6 of 1 whenever the norm
    of the rotation it starts from is between 1/2 and 2. *)
Theorem renormalization_repairs (ar : Arithmetic)
    (st : ControllerState) (accel gyro : sample) (timestamp : R) :
  accurate ar -> moderate (Update accel gyro timestamp) ->
  0 < Rounded.timeDelta ar st timestamp <= 1 ->
  1 / 2 <= norm (rotation st) <= 2 ->
  Rabs (norm (rotation (Rounded.update ar st accel gyro timestamp)) - 1) <= 1e-6.
Proof.
  intros Hacc Hg Hdt Hn. destruct gyro as [[gx gy] gz]. destruct Hg as (Hx & Hy & Hz).
  apply norm_close. rewrite update_rotation.
  apply rejected_false in Hdt. rewrite Hdt. apply rejected_false in Hdt.
  apply integrateGyro_near_unit; try assumption.
  rewrite norm_sumsq in Hn.
  assert (Hs : sqrt (sumsq (rotation st)) * sqrt (sumsq (rotation st))
               = sumsq (rotation st)) by (apply sqrt_sqrt, sumsq_nonneg).
  nra.
Qed.

Lemma renormalization_repairs_witness :
  let st := mkState (mkVector3 0 0 0) (mkQuaternion 0.9 0 0 1.2) (mkVector3 0 0 0) 1000 in
  accurate sloppy /\ moderate (Update (0, 9.81, 0) (1, 2, 3) 1500)
  /\ 0 < Rounded.timeDelta sloppy st 1500 <= 1
  /\ 1 / 2 <= norm (rotation st) <= 2
  /\ Rabs (norm (rotation (Rounded.update sloppy st (0, 9.81, 0) (1, 2, 3) 1500)) - 1)
     <= 1e-6.
Proof.
  intros st.
  assert (Hg : moderate (Update (0, 9.81, 0) (1, 2, 3) 1500)).
  { repeat split; apply Rabs_le; lra. }
  assert (Hdt : 0 < Rounded.timeDelta sloppy st 1500 <= 1).
  { unfold Rounded.timeDelta, Rounded.div, Rounded.sub. cbv zeta.
    rewrite or_else_nonzero by (simpl; lra). simpl. lra. }
  assert (Hn : 1 / 2 <= norm (rotation st) <= 2).
  { rewrite norm_sumsq.
    replace (sumsq (rotation st)) with (1.5 * 1.5) by (unfold sumsq; simpl; lra).
    rewrite sqrt_square by lra. lra. }
  split; [exact sloppy_accurate |]. split; [exact Hg |].
  split; [exact Hdt |]. split; [exact Hn |].
  exact (renormalization_repairs sloppy st (0, 9.81, 0) (1, 2, 3) 1500
           sloppy_accurate Hg Hdt Hn).
Defined.

End RoundedSpec.

(* ================================================================== *)
(** * The rotation out of range, on binary64 numbers *)
(* ================================================================== *)

Module Binary64Spec.
Import PrimFloat Binary64 Binary64Terms.
Local Open Scope float_scope.

#[local] Set Warnings "-inexact-float".

(** C1 as the design document words it fails.  After two ordinary
    updates (the first is dropped and records its time, the second is
    accepted and leaves a unit rotation), a third update arrives half a
    second later, so it passes the guard.  With the gyroscope sample
    (1e200, 0, 0) the squares of the increment overflow, the increment
    normalizes to (0,0,0,0), the product is zero and the division by
    [mag] = 0 leaves NaN in all four components.  With the sample
    (0.1, 0.2), an array of two numbers, [gyro[2]] is undefined and the
    result is the same.  The norm of such a rotation is not within 1e-6
    of 1. *)
Lemma C1_counterexample :
  let st1 := update construct [0; 9.81; 0] [0; 0; 0] 1000 in
  let st2 := update st1 [0; 9.81; 0] [0.1; 0.2; 0.3] 1016 in
  let huge := update st2 [0; 9.81; 0] [1e200; 0; 0] 1516 in
  let short := update st2 [0; 9.81; 0] [0.1; 0.2] 1516 in
  withinTolerance (rotation st2) = true
  /\ timeDelta st2 1516 = 0.5 /\ rejected (timeDelta st2 1516) = false
  /\ allNaN (rotation huge) = true /\ withinTolerance (rotation huge) = false
  /\ allNaN (rotation short) = true /\ withinTolerance (rotation short) = false.
Proof.
  vm_compute. repeat split.
Qed.

End Binary64Spec.
